(** * Mean-reversion backtest (MRS v2.5): shallow embedding and properties

    The program is a pandas/numpy script.  Columns of the data frame are
    modelled as lists, one entry per row; float64 values as exact
    rationals ([Q], so rounding is abstracted away) and NaN as [None].
    The square root (inside pandas' [std] and in [np.sqrt]) is irrational,
    so the definitions that call it take it as a parameter [np_sqrt]: the
    general theorems hold for every choice of it, and concrete runs use
    [sqrt_approx], accurate to twelve decimal places.

    Library calls are modelled by what they compute: [ewm(span,
    adjust=False)] by its recursion, [rolling(10).std()] and [quantile] by
    their definitions, [replace(0, method='ffill')] by pandas' padding of
    the matching rows, [sort_values] by pandas' [nargsort] over numpy's
    scalar quicksort kernel, and an exception as a [Raised] outcome.  The first
    part of the file follows the script from top to bottom; the second part
    states and proves its properties. *)

From Stdlib Require Import QArith Qabs Qround ZArith List Bool Lia Lqa.
From Stdlib Require Import Permutation Sorted.
Import ListNotations.
Open Scope Q_scope.

(** ** Numeric helpers (numpy scalars) *)

Definition Qltb (x y : Q) : bool := negb (Qle_bool y x).

(** A NaN-able float: [None] is NaN. *)
Definition fnan : Type := option Q.

(** [a > b] on floats: any comparison with NaN is False. *)
Definition gt_nan (a b : fnan) : bool :=
  match a, b with
  | Some x, Some y => Qltb y x
  | _, _ => false
  end.

(** [np.clip(x, lo, hi)] = minimum(maximum(x, lo), hi). *)
Definition np_clip (x lo hi : Q) : Q :=
  let m := if Qltb x lo then lo else x in
  if Qltb hi m then hi else m.

(** [np.sign]. *)
Definition np_sign (x : Q) : Q :=
  if Qltb 0 x then 1 else if Qltb x 0 then -(1) else 0.

(** Rational approximation of the square root from below, to 12 decimals. *)
Definition sqrt_scale : Z := 10 ^ 12.

Definition sqrt_approx (q : Q) : Q :=
  Qmake (Z.sqrt (Qnum q * sqrt_scale * sqrt_scale / Zpos (Qden q)))
        (Z.to_pos sqrt_scale).

(** ** Column helpers (pandas Series) *)

Fixpoint map2 {A B C} (f : A -> B -> C) (xs : list A) (ys : list B) : list C :=
  match xs, ys with
  | x :: xs', y :: ys' => f x y :: map2 f xs' ys'
  | _, _ => []
  end.

(** Left-to-right scan emitting one output per input. *)
Fixpoint scan {S A B} (step : S -> A -> S * B) (s : S) (xs : list A) : list B :=
  match xs with
  | [] => []
  | x :: xs' => let '(s', y) := step s x in y :: scan step s' xs'
  end.

(** [col.loc[mask] = v]: masked assignment of a scalar. *)
Definition loc_assign {A} (mask : list bool) (v : A) (col : list A) : list A :=
  map2 (fun (m : bool) x => if m then v else x) mask col.

(** [Series.shift(1)]: the first row becomes NaN. *)
Definition shift {A} (col : list A) : list (option A) :=
  scan (fun prev x => (Some x, prev)) None col.

(** [Series.fillna(v)]. *)
Definition fillna {A} (v : A) (col : list (option A)) : list A :=
  map (fun o => match o with Some x => x | None => v end) col.

(** [Series.diff()] = [col - col.shift(1)]; NaN in the first row. *)
Definition diff (col : list Q) : list fnan :=
  map2 (fun x o => match o with Some p => Some (x - p) | None => None end)
       col (shift col).

(** [Series.cumprod()]. *)
Definition cumprod (col : list Q) : list Q :=
  scan (fun acc x => let p := acc * x in (p, p)) 1 col.

(** [Series.cummax()]; the state is [None] before the first row. *)
Definition cummax (col : list Q) : list Q :=
  scan (fun (acc : option Q) x =>
          let m := match acc with
                   | Some a => if Qltb a x then x else a
                   | None => x
                   end in (Some m, m)) None col.

Definition Qsum (l : list Q) : Q := fold_right Qplus 0 l.

Definition series_mean (l : list Q) : Q := Qsum l / inject_Z (Z.of_nat (length l)).

(** Sample variance (ddof = 1); NaN with fewer than two observations. *)
Definition series_var (l : list Q) : fnan :=
  match l with
  | [] | [_] => None
  | _ => let m := series_mean l in
         Some (Qsum (map (fun x => (x - m) * (x - m)) l)
               / inject_Z (Z.of_nat (length l) - 1))
  end.

(** Insertion sort, ascending (used by [quantile]). *)
Fixpoint insert_asc (x : Q) (l : list Q) : list Q :=
  match l with
  | [] => [x]
  | y :: l' => if Qle_bool x y then x :: l else y :: insert_asc x l'
  end.

Definition sort_asc (l : list Q) : list Q := fold_right insert_asc [] l.

Definition dropna (col : list fnan) : list Q :=
  flat_map (fun o => match o with Some x => [x] | None => [] end) col.

(** [Series.quantile(q)], linear interpolation over the non-NaN values;
    NaN when there is none. *)
Definition quantile (q : Q) (col : list fnan) : fnan :=
  let v := sort_asc (dropna col) in
  match v with
  | [] => None
  | _ =>
    let h := inject_Z (Z.of_nat (length v) - 1) * q in
    let lo := Z.to_nat (Qfloor h) in
    let a := nth lo v 0 in
    let b := nth (S lo) v a in
    Some (a + (h - inject_Z (Qfloor h)) * (b - a))
  end.

(** ** Global settings (lines 10-17) *)

Definition initial_capital : Q := 10000.
Definition cost_per_trade : Q := 1 # 1000.
Definition stop_loss : Q := - (3 # 100).
Definition take_profit : Q := 5 # 100.

(** One row of [df] after [dropna]: the index, the adjusted close and the
    daily return [Close.pct_change()]. *)
Record bar : Type := mkBar { date : Z; Close : Q; returns : Q }.

Definition frame : Type := list bar.

(** ** Exponentially weighted statistics ([ewm(span, adjust=False)]) *)

Definition ewm_alpha (span : Z) : Q := 2 / (inject_Z span + 1).

(** [ewm(...).mean()]: y0 = x0, y_t = (1 - alpha) y_(t-1) + alpha x_t. *)
Definition ewm_mean (span : Z) (col : list Q) : list Q :=
  let a := ewm_alpha span in
  scan (fun (prev : option Q) x =>
          let m := match prev with
                   | Some y => (1 - a) * y + a * x
                   | None => x
                   end in (Some m, m)) None col.

(** State of pandas' [ewmcov] recursion for a series against itself. *)
Record ewm_state : Type := mkEwm {
  ew_mean : Q; ew_cov : Q; ew_sum_wt : Q; ew_sum_wt2 : Q
}.

(** One iteration of [ewmcov] (adjust=False, bias=False): the returned
    value is the debiased variance, NaN when the debiasing denominator
    is not positive. *)
Definition ewm_var_step (a : Q) (st : option ewm_state) (x : Q)
  : option ewm_state * fnan :=
  match st with
  | None => (Some (mkEwm x 0 1 1), None)
  | Some s =>
    let old_wt_factor := 1 - a in
    let new_wt := a in
    let sum_wt := ew_sum_wt s * old_wt_factor in
    let sum_wt2 := ew_sum_wt2 s * (old_wt_factor * old_wt_factor) in
    let old_wt := 1 * old_wt_factor in
    let old_mean := ew_mean s in
    let mean := (old_wt * old_mean + new_wt * x) / (old_wt + new_wt) in
    let cov := (old_wt * (ew_cov s + (old_mean - mean) * (old_mean - mean))
                + new_wt * ((x - mean) * (x - mean))) / (old_wt + new_wt) in
    let sum_wt := sum_wt + new_wt in
    let sum_wt2 := sum_wt2 + new_wt * new_wt in
    let old_wt := old_wt + new_wt in
    let sum_wt := sum_wt / old_wt in
    let sum_wt2 := sum_wt2 / (old_wt * old_wt) in
    let numerator := sum_wt * sum_wt in
    let denominator := numerator - sum_wt2 in
    (Some (mkEwm mean cov sum_wt sum_wt2),
     if Qltb 0 denominator then Some (numerator / denominator * cov) else None)
  end.

Definition ewm_var (span : Z) (col : list Q) : list fnan :=
  scan (ewm_var_step (ewm_alpha span)) None col.

(** Window of the last [n] observations, newest last. *)
Definition push_window (n : nat) (buf : list Q) (x : Q) : list Q :=
  let b := buf ++ [x] in skipn (length b - n) b.

Section Numeric.

(** The square root of numpy/pandas. *)
Variable np_sqrt : Q -> Q.

Definition sqrt_nan (v : fnan) : fnan := option_map np_sqrt v.

(** [ewm(...).std()]. *)
Definition ewm_std (span : Z) (col : list Q) : list fnan :=
  map sqrt_nan (ewm_var span col).

(** [Series.rolling(n).std()]: NaN until [n] observations are seen. *)
Definition rolling_std (n : nat) (col : list Q) : list fnan :=
  scan (fun buf x =>
          let b := push_window n buf x in
          (b, if Nat.eqb (length b) n then sqrt_nan (series_var b) else None))
       [] col.

(** [Series.std()] (ddof = 1). *)
Definition series_std (col : list Q) : fnan := sqrt_nan (series_var col).


(** ** The strategy function (lines 56-136) *)

(** Line 62: [np.where(std > 0, (Close - mean) / std, 0)]. *)
Definition z_score_row (close mean : Q) (std : fnan) : Q :=
  match std with
  | Some s => if Qltb 0 s then (close - mean) / s else 0
  | None => 0
  end.

Definition z_score_raw (window : Z) (closes : list Q) : list Q :=
  map2 (fun cm s => z_score_row (fst cm) (snd cm) s)
       (combine closes (ewm_mean window closes))
       (ewm_std window closes).

(** Lines 67-70: the volatility filter. *)
Definition volatility (rets : list Q) : list fnan := rolling_std 10 rets.

Definition vol_threshold (rets : list Q) : fnan :=
  quantile (9 # 10) (volatility rets).

Definition vol_filter (rets : list Q) (z : list Q) : list Q :=
  let vol := volatility rets in
  let thr := vol_threshold rets in
  loc_assign (map (fun v => gt_nan v thr) vol) 0 z.

Definition z_score (window : Z) (filter_vol : bool) (df : frame) : list Q :=
  let z := z_score_raw window (map Close df) in
  if filter_vol then vol_filter (map returns df) z else z.

End Numeric.


(** StrategyParams of the specification: window > 0, z_entry > 0,
    0 <= z_exit < z_entry. *)
Definition valid_params (window : Z) (z_entry z_exit : Q) : Prop :=
  (0 < window)%Z /\ 0 < z_entry /\ 0 <= z_exit /\ z_exit < z_entry.

(** Lines 73-76: the signal column, three masked assignments in order. *)
Definition signal (z_entry z_exit : Q) (z : list Q) : list Z :=
  let s0 := repeat 0%Z (length z) in
  let s1 := loc_assign (map (fun x => Qltb x (- z_entry)) z) 1%Z s0 in
  let s2 := loc_assign (map (fun x => Qltb z_entry x) z) (-1)%Z s1 in
  loc_assign (map (fun x => Qltb (Qabs x) z_exit) z) 0%Z s2.

(** The signal of one row, as the three assignments leave it. *)
Definition signal_row (z_entry z_exit z : Q) : Z :=
  if Qltb (Qabs z) z_exit then 0
  else if Qltb z_entry z then -1
  else if Qltb z (- z_entry) then 1 else 0.

Definition unit_signal (s : Z) : Prop := (s = -1 \/ s = 0 \/ s = 1)%Z.

(** Line 79: [replace(0, method='ffill')].  pandas pads the masked (zero)
    rows with the last unmasked value, starting from the first value. *)
Definition replace_zero_ffill (col : list Z) : list Z :=
  scan (fun val x => if Z.eqb x 0 then (val, val) else (x, x))
       (hd 0%Z col) col.

Definition position_discrete (sig : list Z) : list Q :=
  map inject_Z (replace_zero_ffill sig).

(** Lines 82-84: dynamic sizing.  The rational division is the float one
    whenever [z_entry] is not 0.  At [z_entry = 0] the float quotient is NaN
    or an infinity, which this column does not represent: what is proved of
    dynamic sizing is stated for [z_entry] other than 0. *)
Definition position_size (z_entry : Q) (z : list Q) : list Q :=
  map (fun x => np_clip (- x / z_entry) (-(1)) 1) z.

Definition position_dynamic (z_entry : Q) (z pos : list Q) : list Q :=
  map2 (fun p sz => np_sign p * Qabs sz) pos (position_size z_entry z).

Definition position (z_entry z_exit : Q) (dynamic_position : bool)
           (z : list Q) : list Q :=
  let pos := position_discrete (signal z_entry z_exit z) in
  if dynamic_position then position_dynamic z_entry z pos else pos.

(** Lines 87-99: the profit-and-loss columns. *)
Definition position_lag (pos : list Q) : list Q := fillna 0 (shift pos).

Definition strategy_raw (lag rets : list Q) : list Q := map2 Qmult lag rets.

Definition strategy_clipped (raw : list Q) : list Q :=
  map (fun r => np_clip r stop_loss take_profit) raw.

Definition position_change (pos : list Q) : list Q :=
  map Qabs (fillna 0 (diff pos)).

Definition trade_cost (pos : list Q) : list Q :=
  map (fun c => cost_per_trade * c) (position_change pos).

Definition strategy_net (pos rets : list Q) : list Q :=
  map2 Qminus (strategy_clipped (strategy_raw (position_lag pos) rets))
       (trade_cost pos).

Definition equity_of (net : list Q) : list Q :=
  map (fun c => initial_capital * c) (cumprod (map (fun r => 1 + r) net)).

Definition equity_curve (pos rets : list Q) : list Q :=
  equity_of (strategy_net pos rets).

(** Line 102: the benchmark. *)
Definition buy_hold_curve (rets : list Q) : list Q :=
  map (fun c => initial_capital * c) (cumprod (map (fun r => 1 + r) rets)).

(** Exceptions the script can meet inside [backtest_mean_reversion]. *)
Inductive exn : Type :=
| ValueError   (* pandas: "span must satisfy: span >= 1" *)
| IndexError.  (* [iloc[-1]] on an empty column *)

Inductive outcome (A : Type) : Type :=
| Raised (e : exn)
| Returned (a : A).
Arguments Raised {A} e.
Arguments Returned {A} a.

(** The columns of [data] that the rest of the script reads. *)
Record data_columns : Type := mkData {
  d_index : list Z;
  d_Close : list Q;
  d_z_score : list Q;
  d_signal : list Z;
  d_position : list Q;
  d_strategy_net : list Q;
  d_equity_curve : list Q;
  d_buy_hold_curve : list Q
}.

(** The returned dictionary.  [cagr] is a real power of the final value
    and takes no part in the ranking; it is not modelled. *)
Record backtest_result : Type := mkResult {
  total_return : Q;
  sharpe : Q;
  max_drawdown : Q;
  win_rate : Q;
  final_value : Q;
  data : data_columns
}.

Definition Qlist_min (l : list Q) : Q :=
  match l with
  | [] => 0
  | x :: r => fold_left (fun m y => if Qltb y m then y else m) r x
  end.

Definition count_if (p : Q -> bool) (l : list Q) : Z :=
  Z.of_nat (length (filter p l)).

(** Lines 118-121. *)
Definition max_drawdown_of (equity : list Q) : Q :=
  Qlist_min (map2 (fun e c => (e - c) / c) equity (cummax equity)) * 100.

(** Lines 123-126. *)
Definition win_rate_of (net : list Q) : Q :=
  let winning_days := count_if (fun r => Qltb 0 r) net in
  let losing_days := count_if (fun r => Qltb r 0) net in
  if (0 <? winning_days + losing_days)%Z
  then inject_Z winning_days / inject_Z (winning_days + losing_days) * 100
  else 0.

Section Backtest.

Variable np_sqrt : Q -> Q.

(** Lines 112-116. *)
Definition sharpe_of (net : list Q) : Q :=
  if gt_nan (series_std np_sqrt net) (Some 0)
  then match series_std np_sqrt net with
       | Some s => np_sqrt 252 * series_mean net / s
       | None => 0
       end
  else 0.

Definition backtest_mean_reversion (df : frame) (window : Z)
           (z_entry z_exit : Q) (dynamic_position filter_vol : bool)
  : outcome backtest_result :=
  if (window <? 1)%Z then Raised ValueError
  else
    let z := z_score np_sqrt window filter_vol df in
    let sig := signal z_entry z_exit z in
    let pos := position z_entry z_exit dynamic_position z in
    let rets := map returns df in
    let net := strategy_net pos rets in
    let equity := equity_of net in
    let buy_hold := buy_hold_curve rets in
    match rev equity with
    | [] => Raised IndexError
    | final :: _ =>
      Returned
        (mkResult ((final / initial_capital - 1) * 100)
                  (sharpe_of net)
                  (max_drawdown_of equity)
                  (win_rate_of net)
                  final
                  (mkData (map date df) (map Close df) z sig pos net equity
                          buy_hold))
    end.

(** ** Parameter grid search (lines 139-161) *)

Record summary : Type := mkSummary {
  Window : Z; Z_Entry : Q; Z_Exit : Q;
  Return : Q; Sharpe : Q; MaxDD : Q; WinRate : Q
}.

(** [itertools.product] of three lists, the last one varying fastest. *)
Definition product3 {A B C} (xs : list A) (ys : list B) (zs : list C)
  : list (A * B * C) :=
  flat_map (fun x => flat_map (fun y => map (fun z => (x, y, z)) zs) ys) xs.

(** One iteration of the loop: [try ... results.append(...)],
    [except Exception: continue]. *)
Definition grid_step (df : frame) (results : list summary)
           (p : Z * Q * Q) : list summary :=
  let '(w, ze, zx) := p in
  match backtest_mean_reversion df w ze zx false true with
  | Returned r =>
      results ++ [mkSummary w ze zx (total_return r) (sharpe r)
                            (max_drawdown r) (win_rate r)]
  | Raised _ => results
  end.

Definition grid_search (df : frame) (grid : list (Z * Q * Q)) : list summary :=
  fold_left (grid_step df) grid [].

End Backtest.

Definition windows : list Z := [10; 20; 30; 50]%Z.
Definition z_entries : list Q := [1; 3 # 2; 2].
Definition z_exits : list Q := [3 # 10; 1 # 2; 7 # 10].
Definition param_grid : list (Z * Q * Q) := product3 windows z_entries z_exits.

(** ** Ranking (lines 163-175)

    [results_df.sort_values(by='Sharpe', ascending=False)] hands the Sharpe
    column to pandas' [nargsort], which reverses it, asks numpy for an
    ascending [argsort] of the default kind, quicksort, maps the answer back
    to row numbers and reverses it; the rows are then taken in that order.
    numpy's quicksort is an introsort and is not stable. *)

(** *** numpy's scalar kernel ([aquicksort_], npysort/quicksort.cpp)

    [tosort] is the array of indices being permuted and [v] the keys they
    point to.  A numpy build may hand [argsort] to a vectorised kernel on
    CPUs that have one; such a kernel returns the keys in the same order and
    may place the rows of equal key differently. *)

Definition SMALL_QUICKSORT : nat := 16.

(** [int npy_get_msb(unum)]: the position of the highest set bit. *)
Definition npy_get_msb (unum : nat) : nat := Nat.log2 unum.

Definition aget (tosort : list nat) (p : nat) : nat := nth p tosort 0%nat.

Fixpoint aset (tosort : list nat) (p x : nat) : list nat :=
  match tosort, p with
  | [], _ => []
  | _ :: r, O => x :: r
  | y :: r, S p' => y :: aset r p' x
  end.

(** [INTP_SWAP(a, b)]: [tmp = b; b = a; a = tmp]. *)
Definition INTP_SWAP (tosort : list nat) (p q : nat) : list nat :=
  let tmp := aget tosort q in
  aset (aset tosort q (aget tosort p)) p tmp.

Section Kernel.

Variable v : list Q.

(** [v[*p]]: the key of the entry at position [p]. *)
Definition v_at (tosort : list nat) (p : nat) : Q := nth (aget tosort p) v 0.

(** [if (less(v[*p], v[*q]))] then swap the entries at [p] and [q]. *)
Definition swap_if_less (a : list nat) (p q : nat) : list nat :=
  if Qltb (v_at a p) (v_at a q) then INTP_SWAP a p q else a.

(** [do { ++pi; } while (less(v[*pi], vp))]. *)
Fixpoint scan_up (fuel : nat) (vp : Q) (a : list nat) (pi : nat) : nat :=
  match fuel with
  | O => S pi
  | S f => if Qltb (v_at a (S pi)) vp then scan_up f vp a (S pi) else S pi
  end.

(** [do { --pj; } while (less(vp, v[*pj]))]. *)
Fixpoint scan_down (fuel : nat) (vp : Q) (a : list nat) (pj : nat) : nat :=
  match fuel with
  | O => pred pj
  | S f => if Qltb vp (v_at a (pred pj)) then scan_down f vp a (pred pj)
           else pred pj
  end.

(** The [for (;;)] loop of the partition: both scans, [break] when they
    meet, a swap otherwise. *)
Fixpoint partition_loop (fuel : nat) (vp : Q) (a : list nat) (pi pj : nat)
  : list nat * nat :=
  match fuel with
  | O => (a, pi)
  | S f =>
      let pi := scan_up (length a) vp a pi in
      let pj := scan_down (length a) vp a pj in
      if (pj <=? pi)%nat then (a, pi)
      else partition_loop f vp (INTP_SWAP a pi pj) pi pj
  end.

(** One partition of the range [a] (so [pl] is its first position and [pr]
    its last): median of three, the pivot parked at [pr - 1], the scans, and
    the pivot swapped into its place [pi], which is returned. *)
Definition aquicksort_partition (a : list nat) : list nat * nat :=
  let pl := O in
  let pr := (length a - 1)%nat in
  let pm := (pl + (pr - pl) / 2)%nat in
  let a := swap_if_less a pm pl in
  let a := swap_if_less a pr pm in
  let a := swap_if_less a pm pl in
  let vp := v_at a pm in
  let pi := pl in
  let pj := (pr - 1)%nat in
  let a := INTP_SWAP a pm pj in
  let '(a, pi) := partition_loop (length a) vp a pi pj in
  let pk := (pr - 1)%nat in
  (INTP_SWAP a pi pk, pi).

(** The insertion sort of a short range.  The entry [vi] moves left past
    the entries of greater key and stops after the first one that is not
    greater; [before] is the sorted part, read from right to left. *)
Fixpoint insert_entry (vi : nat) (before : list nat) : list nat :=
  match before with
  | [] => [vi]
  | x :: r => if Qltb (nth vi v 0) (nth x v 0) then x :: insert_entry vi r
              else vi :: before
  end.

Definition insertion_sort (a : list nat) : list nat :=
  rev (fold_left (fun before vi => insert_entry vi before) a []).

(** [aheapsort_], with its one-based array [a = tosort - 1]. *)
Definition aget1 (a : list nat) (i : nat) : nat := aget a (i - 1).
Definition aset1 (a : list nat) (i x : nat) : list nat := aset a (i - 1) x.

(** [for (i = .., j = ..; j <= n;) { ... } a[i] = tmp;] *)
Fixpoint sift_down (fuel : nat) (a : list nat) (n tmp i j : nat) : list nat :=
  match fuel with
  | O => aset1 a i tmp
  | S f =>
      if (j <=? n)%nat then
        let j := if (j <? n)%nat
                    && Qltb (nth (aget1 a j) v 0) (nth (aget1 a (j + 1)) v 0)
                 then (j + 1)%nat else j in
        if Qltb (nth tmp v 0) (nth (aget1 a j) v 0)
        then sift_down f (aset1 a i (aget1 a j)) n tmp j (j + j)
        else aset1 a i tmp
      else aset1 a i tmp
  end.

(** [for (l = n >> 1; l > 0; --l)]. *)
Fixpoint heapify (l : nat) (a : list nat) (n : nat) : list nat :=
  match l with
  | O => a
  | S l' => heapify l' (sift_down n a n (aget1 a l) l (2 * l)) n
  end.

(** [for (; n > 1;)]. *)
Fixpoint heap_drain (n : nat) (a : list nat) : list nat :=
  match n with
  | O => a
  | S n' =>
      match n' with
      | O => a
      | S _ =>
          let tmp := aget1 a n in
          let a := aset1 a n (aget1 a 1) in
          heap_drain n' (sift_down n' a n' tmp 1 2)
      end
  end.

Definition aheapsort_ (a : list nat) : list nat :=
  let n := length a in
  heap_drain n (heapify (n / 2) a n).

(** The main loop on one range.  A range that was popped from the stack
    is first checked against the depth limit; a long range is partitioned,
    its larger part pushed on the stack with the decremented depth and its
    smaller part continued with; a short range is insertion sorted.  The
    parts of a range do not overlap, so the pushed part is written here as a
    second call. *)
Fixpoint aquicksort_range (fuel : nat) (popped : bool) (cdepth : Z)
         (a : list nat) : list nat :=
  match fuel with
  | O => a
  | S f =>
      if popped && (cdepth <? 0)%Z then aheapsort_ a
      else if (SMALL_QUICKSORT <? length a - 1)%nat then
        let pl := O in
        let pr := (length a - 1)%nat in
        let '(a', pi) := aquicksort_partition a in
        let cdepth := (cdepth - 1)%Z in
        let left_is_smaller := (pi - pl <? pr - pi)%nat in
        aquicksort_range f (negb left_is_smaller) cdepth (firstn pi a')
        ++ aget a' pi
        :: aquicksort_range f left_is_smaller cdepth (skipn (S pi) a')
      else insertion_sort a
  end.

End Kernel.

(** [np.argsort(v, kind='quicksort')]: [tosort] starts as 0, 1, 2, ... and
    the depth limit as twice the highest bit of the length. *)
Definition npy_aquicksort (v : list Q) : list nat :=
  let num := length v in
  aquicksort_range v num true (2 * Z.of_nat (npy_get_msb num)) (seq 0 num).

(** *** pandas on top of it *)

(** [nargsort(items, kind='quicksort', ascending=False)] on a column
    without NaN. *)
Definition nargsort (items : list Q) : list nat :=
  let idx := seq 0 (length items) in
  let non_nans := rev items in
  let non_nan_idx := rev idx in
  let indexer := map (fun i => nth i non_nan_idx 0%nat)
                     (npy_aquicksort non_nans) in
  rev indexer.

(** [take(indexer)]: the rows in the order of the indexer. *)
Definition take {A} (rows : list A) (indexer : list nat) : list A :=
  flat_map (fun i => match nth_error rows i with
                     | Some r => [r]
                     | None => []
                     end) indexer.

(** Lines 172 and 175: [results_df.sort_values(by='Sharpe',
    ascending=False)]. *)
Definition sort_values_by_sharpe (results_df : list summary) : list summary :=
  take results_df (nargsort (map Sharpe results_df)).

(** *** The ranking as a contract

    What is asked of the sort by the parts of the script that only read the
    first row of the ranking: the result is a rearrangement of the rows, in
    descending key order. *)

Definition sharpe_desc (a b : summary) : Prop := Sharpe b <= Sharpe a.

Definition sorts_by_sharpe_desc (sort_values : list summary -> list summary) : Prop :=
  forall rows, Permutation rows (sort_values rows) /\
               StronglySorted sharpe_desc (sort_values rows).

(** Line 175: [.iloc[0]] of the sorted frame. *)
Definition best_of (sort_values : list summary -> list summary)
           (results_df : list summary) : option summary :=
  hd_error (sort_values results_df).

(** A sorting function that meets the contract: an insertion sort that
    places a new row before the first row [y] for which [before x y]. *)
Fixpoint insert_by (before : Q -> Q -> bool) (x : summary) (l : list summary)
  : list summary :=
  match l with
  | [] => [x]
  | y :: l' => if before (Sharpe x) (Sharpe y) then x :: l
               else y :: insert_by before x l'
  end.

Definition sort_by (before : Q -> Q -> bool) (l : list summary) : list summary :=
  fold_right (insert_by before) [] l.

(** Stable: among equal keys the row seen first stays first. *)
Definition sort_first_seen : list summary -> list summary :=
  sort_by (fun x y => Qle_bool y x).

(** Ascending order of the keys the entries of [tosort] point to. *)
Definition key_le (v : list Q) (x y : nat) : Prop := nth x v 0 <= nth y v 0.

(** The tie-break the specification asks for: rows of equal Sharpe keep
    their order of appearance in [rows]. *)
Definition same_point (a b : summary) : bool :=
  Z.eqb (Window a) (Window b) && Qeq_bool (Z_Entry a) (Z_Entry b)
  && Qeq_bool (Z_Exit a) (Z_Exit b).

Fixpoint index_of (a : summary) (l : list summary) : nat :=
  match l with
  | [] => O
  | b :: l' => if same_point a b then O else S (index_of a l')
  end.

Definition ties_first_seen (rows ranked : list summary) : Prop :=
  forall i j, (i < j < length ranked)%nat ->
    forall a b, nth_error ranked i = Some a -> nth_error ranked j = Some b ->
    Sharpe a == Sharpe b -> (index_of a rows < index_of b rows)%nat.

(** ** Trade log (lines 212-260) *)

Inductive side : Type := Long | Short.

Record trade : Type := mkTrade {
  Entry_Date : Z; Exit_Date : Z; Days : Z; Type_ : side;
  Entry : Q; Exit : Q; Return_pct : Q
}.

(** The loop variables. *)
Record log_state : Type := mkLog {
  trades : list trade;
  in_position : bool;
  entry_price : option Q;
  entry_date : option Z;
  position_type : option side
}.

Definition log_init : log_state := mkLog [] false None None None.

(** [col.iloc[i]]; a negative [i] counts from the end. *)
Definition iloc {A} (d : A) (col : list A) (i : Z) : A :=
  if (i <? 0)%Z then nth (Z.to_nat (Z.of_nat (length col) + i)) col d
  else nth (Z.to_nat i) col d.

Definition side_of (current_pos : Q) : side :=
  if Qltb 0 current_pos then Long else Short.

(** Lines 236-251: the dictionary appended at an exit. *)
Definition close_trade (entry_date : Z) (entry_price : Q) (position_type : side)
           (exit_date : Z) (exit_price : Q) : trade :=
  let pnl_pct := match position_type with
                 | Long => (exit_price - entry_price) / entry_price * 100
                 | Short => (entry_price - exit_price) / entry_price * 100
                 end in
  mkTrade entry_date exit_date (exit_date - entry_date) position_type
          entry_price exit_price pnl_pct.

(** The body of the loop at row [i]. *)
Definition log_step (index : list Z) (closes positions : list Q)
           (st : log_state) (i : nat) : log_state :=
  let current_pos := iloc 0 positions (Z.of_nat i) in
  let price := iloc 0 closes (Z.of_nat i) in
  let date := iloc 0%Z index (Z.of_nat i) in
  if negb (in_position st) && negb (Qeq_bool current_pos 0) then
    mkLog (trades st) true (Some price) (Some date) (Some (side_of current_pos))
  else if in_position st
          && (Qeq_bool current_pos 0
              || negb (Qeq_bool (np_sign current_pos)
                                (np_sign (iloc 0 positions (Z.of_nat i - 1)))))
  then
    match entry_date st, entry_price st, position_type st with
    | Some ed, Some ep, Some ty =>
      let trades' := trades st ++ [close_trade ed ep ty date price] in
      if negb (Qeq_bool current_pos 0) then
        mkLog trades' true (Some price) (Some date) (Some (side_of current_pos))
      else
        mkLog trades' false (entry_price st) (entry_date st) (position_type st)
    | _, _, _ => st  (* not reached: the three are set whenever in_position *)
    end
  else st.

Definition log_loop (index : list Z) (closes positions : list Q)
           (rows : list nat) (st : log_state) : log_state :=
  fold_left (log_step index closes positions) rows st.

(** [for i in range(len(best_df))]. *)
Definition trade_log (index : list Z) (closes positions : list Q) : list trade :=
  trades (log_loop index closes positions (seq 0 (length positions)) log_init).

(** ** Derived and specification-side definitions *)

(** The equity column of [backtest_mean_reversion] as a function of the
    frame (the composition of its lines 58-99). *)
Definition strategy_equity (np_sqrt : Q -> Q) (df : frame) (window : Z)
           (z_entry z_exit : Q) (dynamic_position filter_vol : bool) : list Q :=
  equity_curve
    (position z_entry z_exit dynamic_position
              (z_score np_sqrt window filter_vol df))
    (map returns df).

(** The benchmark as the specification words it: the simulation pipeline
    (raw return, clip, trade cost, compounding) run with the lagged position
    constantly 1. *)
Definition buy_hold_spec (rets : list Q) : list Q :=
  let ones := repeat 1 (length rets) in
  equity_of (map2 Qminus (strategy_clipped (strategy_raw ones rets))
                  (trade_cost ones)).

(** The benchmark without clip and cost: compounding [1 * return]. *)
Definition buy_hold_unclipped (rets : list Q) : list Q :=
  equity_of (strategy_raw (repeat 1 (length rets)) rets).

(** What one grid point contributes to [results]. *)
Definition grid_row (np_sqrt : Q -> Q) (df : frame) (p : Z * Q * Q)
  : list summary :=
  let '(w, ze, zx) := p in
  match backtest_mean_reversion np_sqrt df w ze zx false true with
  | Returned r => [mkSummary w ze zx (total_return r) (sharpe r)
                             (max_drawdown r) (win_rate r)]
  | Raised _ => []
  end.

Definition returned {A} (o : outcome A) : bool :=
  match o with Returned _ => true | Raised _ => false end.

(** The exit test of the loop at row [i] (line 231, without
    [in_position]). *)
Definition exit_signal (positions : list Q) (i : nat) : bool :=
  let current_pos := iloc 0 positions (Z.of_nat i) in
  Qeq_bool current_pos 0
  || negb (Qeq_bool (np_sign current_pos)
                    (np_sign (iloc 0 positions (Z.of_nat i - 1)))).


(** Each trade of the ledger ends no later than the next one begins. *)
Fixpoint chronological (l : list trade) : Prop :=
  match l with
  | a :: (b :: _) as rest => (Exit_Date a <= Entry_Date b)%Z /\ chronological rest
  | _ => True
  end.

(** ** Invariants of the trade-log loop *)

(** The position of the row before row [k] (0 before the first row). *)
Definition prev_pos (positions : list Q) (k : nat) : Q :=
  match k with O => 0 | S k' => nth k' positions 0 end.

(** The loop variables are consistent with a last seen position [p]. *)
Definition open_ok (p : Q) (st : log_state) : Prop :=
  in_position st = negb (Qeq_bool p 0) /\
  (in_position st = true ->
   exists ed ep, entry_date st = Some ed /\ entry_price st = Some ep
                 /\ position_type st = Some (side_of p)).

(** [d] is earlier than the date of every row from [k] on. *)
Definition dates_after (index : list Z) (n k : nat) (d : Z) : Prop :=
  forall j, (k <= j < n)%nat -> (d < nth j index 0)%Z.

(** The ledger before row [k]: every trade is entered before it is exited
    and exited before row [k]; the ledger is chronological; an open
    position was entered before row [k] and not before any exit. *)
Definition ledger_ok (index : list Z) (n k : nat) (st : log_state) : Prop :=
  (forall tr, In tr (trades st) ->
     (Entry_Date tr < Exit_Date tr)%Z /\ dates_after index n k (Exit_Date tr)) /\
  chronological (trades st) /\
  (in_position st = true -> forall ed, entry_date st = Some ed ->
     dates_after index n k ed /\
     forall tr, In tr (trades st) -> (Exit_Date tr <= ed)%Z).

(** ** Concrete inputs used by the examples *)

(** A frame from its close and return columns, dated 0, 1, 2, ... *)
Definition frame_of (closes rets : list Q) : frame :=
  map2 (fun i cr => mkBar (Z.of_nat i) (fst cr) (snd cr))
       (seq 0 (length closes)) (combine closes rets).

(** Three rows: 100, a fall to 90, a recovery to 98 (downloaded prices
    [P0, 100, 90, 98] with P0 = 100; the first row is lost to [dropna]). *)
Definition dip_frame : frame :=
  frame_of [100; 90; 98] [0; - (1 # 10); 4 # 45].

(** Three rows at a constant price. *)
Definition flat_frame : frame := frame_of [100; 100; 100] [0; 0; 0].

(** Eleven rows: nine flat days at 100, a fall to 90 on row 9, and a last
    row that is either quiet (90 again) or a jump to 120.  The first return
    is measured against the row that [dropna] removed. *)
Definition first_ten_closes : list Q :=
  [100; 100; 100; 100; 100; 100; 100; 100; 100; 90].
Definition first_ten_returns : list Q :=
  [1 # 10; 0; 0; 0; 0; 0; 0; 0; 0; - (1 # 10)].

Definition quiet_frame : frame :=
  frame_of (first_ten_closes ++ [90]) (first_ten_returns ++ [0]).
Definition jump_frame : frame :=
  frame_of (first_ten_closes ++ [120]) (first_ten_returns ++ [1 # 3]).

(** The leaderboard of the script's grid over [dip_frame]. *)
Definition dip_leaderboard : list summary :=
  grid_search sqrt_approx dip_frame param_grid.

(** Position columns for the trade log: long, short, flat; and long,
    short. *)
Definition reversal_then_flat : list Q := [1; - (1); 0].

(** ** Further parts of the script *)

(** Lines 34-36: [Close] is the adjusted close, [returns] its
    [pct_change()], and [dropna()] removes the rows with a NaN, here the
    first one.  (The rational quotient is the float one for non-zero
    prices.) *)
Definition pct_change (col : list Q) : list fnan :=
  map2 (fun x o => match o with Some p => Some (x / p - 1) | None => None end)
       col (shift col).

Definition load_frame (dates : list Z) (adj_close : list Q) : frame :=
  flat_map (fun row : Z * Q * fnan =>
              match snd row with
              | Some r => [mkBar (fst (fst row)) (snd (fst row)) r]
              | None => []
              end)
           (combine (combine dates adj_close) (pct_change adj_close)).

(** Lines 26-44: the frame the script works on.  The first place that
    reads a row of it is [df['Close'].iloc[-1]] on line 44, which raises
    IndexError on an empty frame: the script stops there, before the
    strategy function is defined. *)
Definition load_data (dates : list Z) (adj_close : list Q) : outcome frame :=
  let df := load_frame dates adj_close in
  match rev (map Close df) with
  | [] => Raised IndexError
  | _ :: _ => Returned df
  end.

(** Lines 163-188, for a frame that passed line 44: the best row of the
    ranking and the final run at its parameters, with dynamic sizing.
    [None] stands for the script stopping before the final run: were no
    grid point to return, [results_df] would have no column and line 166
    ([results_df['Return']]) would raise before any sort. *)
Definition final_result (sort_values : list summary -> list summary)
           (np_sqrt : Q -> Q) (df : frame) (grid : list (Z * Q * Q))
  : option (outcome backtest_result) :=
  match grid_search np_sqrt df grid with
  | [] => None
  | (_ :: _) as results =>
      match best_of sort_values results with
      | Some best =>
          Some (backtest_mean_reversion np_sqrt df (Window best) (Z_Entry best)
                                        (Z_Exit best) true true)
      | None => None
      end
  end.

(** Lines 405-406: the drawdown curve, in percent. *)
Definition drawdown_curve (equity : list Q) : list Q :=
  map (fun d => d * 100)
      (map2 (fun e c => (e - c) / c) equity (cummax equity)).

(** Lines 407-422: the drawdown periods. *)
Record dd_period : Type := mkPeriod {
  dd_start : Z; dd_end : Z; dd_days : Z; dd_depth : Q
}.

Record dd_state : Type := mkDD {
  drawdown_periods : list dd_period;
  in_drawdown : bool;
  start_dd : option Z
}.

(** [col[a:b]] on a date index: the rows dated from [a] to [b], both
    included. *)
Definition label_slice (index : list Z) (col : list Q) (a b : Z) : list Q :=
  map snd (filter (fun dv => (a <=? fst dv)%Z && (fst dv <=? b)%Z)
                  (combine index col)).

(** The body of the loop for the pair [(i, dd)] of [enumerate(drawdown)]. *)
Definition dd_step (index : list Z) (drawdown : list Q)
           (st : dd_state) (idd : nat * Q) : dd_state :=
  let '(i, dd) := idd in
  let date := iloc 0%Z index (Z.of_nat i) in
  if Qltb dd (- (1)) && negb (in_drawdown st) then
    mkDD (drawdown_periods st) true (Some date)
  else if Qle_bool (- (1 # 2)) dd && in_drawdown st then
    match start_dd st with
    | Some s =>
        mkDD (drawdown_periods st
              ++ [mkPeriod s date (date - s)
                           (Qlist_min (label_slice index drawdown s date))])
             false (start_dd st)
    | None => st  (* not reached: start_dd is set whenever in_drawdown *)
    end
  else st.

Definition dd_loop (index : list Z) (drawdown : list Q)
           (rows : list (nat * Q)) (st : dd_state) : dd_state :=
  fold_left (dd_step index drawdown) rows st.

Definition drawdown_analysis (index : list Z) (drawdown : list Q)
  : list dd_period :=
  drawdown_periods
    (dd_loop index drawdown (combine (seq 0 (length drawdown)) drawdown)
             (mkDD [] false None)).

(** Lines 378-393: returns by calendar period.  [labels] is the period of
    each row ([index.to_period('M')] or [index.year]); [groupby] lists the
    distinct labels in increasing order, and each group compounds its rows'
    net returns. *)
Definition Qprod (l : list Q) : Q := fold_right Qmult 1 l.

Fixpoint insert_key (k : Z) (ks : list Z) : list Z :=
  match ks with
  | [] => [k]
  | h :: t => if (k <? h)%Z then k :: ks
              else if (k =? h)%Z then ks else h :: insert_key k t
  end.

Definition group_keys (labels : list Z) : list Z :=
  fold_right insert_key [] labels.

(** [(1 + x).prod() - 1] over the rows labelled [k]. *)
Definition group_return (labels : list Z) (net : list Q) (k : Z) : Q :=
  Qprod (map (fun kv => 1 + snd kv)
             (filter (fun kv : Z * Q => (fst kv =? k)%Z) (combine labels net)))
  - 1.

Definition period_returns (labels : list Z) (net : list Q) : list (Z * Q) :=
  map (fun k => (k, group_return labels net k * 100)) (group_keys labels).

(** ** Predicates for the further properties *)

(** Rows [i] to [j - 1] all hold a non-zero position of side [ty]. *)
Definition holds_side (positions : list Q) (ty : side) (i j : nat) : Prop :=
  forall m, (i <= m < j)%nat ->
    ~ nth m positions 0 == 0 /\ side_of (nth m positions 0) = ty.

(** [tr] is the round trip entered on row [i] and exited on a later row
    [j] before row [k]: it carries the dates and closes of the two rows,
    the position held one side from [i] to [j - 1], and row [j] signalled
    the exit. *)
Definition trade_spans (index : list Z) (closes positions : list Q)
           (k : nat) (tr : trade) : Prop :=
  exists i j, (i < j < k)%nat /\
    tr = close_trade (nth i index 0%Z) (nth i closes 0)
                     (side_of (nth i positions 0))
                     (nth j index 0%Z) (nth j closes 0) /\
    holds_side positions (side_of (nth i positions 0)) i j /\
    exit_signal positions j = true.

(** The open position, if any, was entered on a row before [k] and has
    held its side since. *)
Definition open_spans (index : list Z) (closes positions : list Q)
           (k : nat) (st : log_state) : Prop :=
  in_position st = true ->
  exists e, (e < k)%nat /\
    entry_date st = Some (nth e index 0%Z) /\
    entry_price st = Some (nth e closes 0) /\
    position_type st = Some (side_of (nth e positions 0)) /\
    holds_side positions (side_of (nth e positions 0)) e k.

(** Each drawdown period ends strictly before the next one starts. *)
Fixpoint periods_disjoint (l : list dd_period) : Prop :=
  match l with
  | a :: (b :: _) as rest => (dd_end a < dd_start b)%Z /\ periods_disjoint rest
  | _ => True
  end.

(** Loop invariant of the drawdown periods before row [k]. *)
Definition periods_ok (index : list Z) (drawdown : list Q) (n k : nat)
           (st : dd_state) : Prop :=
  (forall p, In p (drawdown_periods st) ->
     (dd_start p < dd_end p)%Z /\ dd_days p = (dd_end p - dd_start p)%Z
     /\ dd_depth p < - (1) /\ dates_after index n k (dd_end p)) /\
  periods_disjoint (drawdown_periods st) /\
  (in_drawdown st = true -> forall s, start_dd st = Some s ->
     (exists e, (e < k)%nat /\ s = nth e index 0%Z /\ nth e drawdown 0 < - (1))
     /\ forall p, In p (drawdown_periods st) -> (dd_end p < s)%Z).

(** * Properties *)

(** ** Comparisons and numpy scalars *)

Lemma Qltb_lt (x y : Q) : Qltb x y = true <-> x < y.
Proof.
  unfold Qltb. rewrite negb_true_iff, <- not_true_iff_false, Qle_bool_iff.
  split; intros H; [now apply Qnot_le_lt | now apply Qlt_not_le].
Qed.

Lemma Qltb_ge (x y : Q) : Qltb x y = false <-> y <= x.
Proof.
  unfold Qltb. rewrite negb_false_iff, Qle_bool_iff. tauto.
Qed.

Ltac case_Qltb :=
  repeat match goal with
  | |- context [Qltb ?a ?b] =>
      let E := fresh "E" in
      destruct (Qltb a b) eqn:E;
      [apply Qltb_lt in E | apply Qltb_ge in E]
  end.

Lemma np_clip_bounds (x lo hi : Q) :
  lo <= hi -> lo <= np_clip x lo hi <= hi.
Proof.
  intros H. unfold np_clip. case_Qltb; lra.
Qed.

Lemma np_clip_id (x lo hi : Q) :
  lo <= x <= hi -> np_clip x lo hi = x.
Proof.
  intros [H1 H2]. unfold np_clip.
  destruct (Qltb x lo) eqn:E1.
  - apply Qltb_lt in E1. lra.
  - destruct (Qltb hi x) eqn:E2; [apply Qltb_lt in E2; lra | reflexivity].
Qed.

Lemma np_sign_cases (x : Q) :
  np_sign x = 1 \/ np_sign x = - (1) \/ np_sign x = 0.
Proof.
  unfold np_sign. destruct (Qltb 0 x); [now left |].
  destruct (Qltb x 0); [right; now left | right; now right].
Qed.

(** ** Columns *)

Lemma length_scan {S A B} (step : S -> A -> S * B) (xs : list A) :
  forall s, length (scan step s xs) = length xs.
Proof.
  induction xs as [|x xs IH]; intros s; simpl; [reflexivity|].
  destruct (step s x) as [s' y]. simpl. now rewrite IH.
Qed.

Lemma length_map2 {A B C} (f : A -> B -> C) (xs : list A) :
  forall ys, length (map2 f xs ys) = Nat.min (length xs) (length ys).
Proof.
  induction xs as [|x xs IH]; intros [|y ys]; simpl; auto.
Qed.

Lemma nth_map2 {A B C} (f : A -> B -> C) (da : A) (db : B) (dc : C) (xs : list A) :
  forall ys t, (t < length xs)%nat -> (t < length ys)%nat ->
    nth t (map2 f xs ys) dc = f (nth t xs da) (nth t ys db).
Proof.
  induction xs as [|x xs IH]; intros [|y ys] [|t] Hx Hy; simpl in *;
    try lia; auto.
  apply IH; lia.
Qed.

(** A state invariant carries a property to every output of a scan. *)
Lemma Forall_scan {S A B} (step : S -> A -> S * B)
      (I : S -> Prop) (P : A -> Prop) (R : B -> Prop) :
  (forall s x, I s -> P x -> I (fst (step s x)) /\ R (snd (step s x))) ->
  forall xs s, I s -> Forall P xs -> Forall R (scan step s xs).
Proof.
  intros Hstep xs. induction xs as [|x xs IH]; intros s Hs Hxs; simpl.
  - constructor.
  - inversion Hxs as [|? ? Hx Hxs']; subst.
    destruct (Hstep s x Hs Hx) as [Hs' Hy].
    destruct (step s x) as [s' y]; simpl in *.
    constructor; auto.
Qed.

Lemma Forall_map2 {A B C} (f : A -> B -> C) (R : C -> Prop) (xs : list A) :
  forall ys, (forall x y, In x xs -> In y ys -> R (f x y)) ->
    Forall R (map2 f xs ys).
Proof.
  induction xs as [|x xs IH]; intros [|y ys] H; simpl; try constructor.
  - apply H; now left.
  - apply IH. intros; apply H; now right.
Qed.

(** A masked assignment leaves each row unchanged or sets it to [v]. *)
Lemma nth_loc_assign {A} (v d : A) (mask : list bool) :
  forall col t, nth t (loc_assign mask v col) d = v
                \/ nth t (loc_assign mask v col) d = nth t col d
                \/ nth t (loc_assign mask v col) d = d.
Proof.
  unfold loc_assign.
  induction mask as [|m mask IH]; intros [|x col] [|t]; simpl; auto.
  destruct m; auto.
Qed.

(** ** Signal and position *)

Lemma signal_rows (z_entry z_exit : Q) (z : list Q) :
  signal z_entry z_exit z = map (signal_row z_entry z_exit) z.
Proof.
  unfold signal, loc_assign.
  induction z as [|x z IH]; simpl; [reflexivity|].
  rewrite IH. unfold signal_row.
  destruct (Qltb (Qabs x) z_exit), (Qltb z_entry x), (Qltb x (- z_entry));
    reflexivity.
Qed.

Lemma signal_row_unit (z_entry z_exit z : Q) :
  unit_signal (signal_row z_entry z_exit z).
Proof.
  unfold signal_row, unit_signal.
  destruct (Qltb (Qabs z) z_exit), (Qltb z_entry z), (Qltb z (- z_entry)); auto.
Qed.

Lemma signal_unit (z_entry z_exit : Q) (z : list Q) :
  Forall unit_signal (signal z_entry z_exit z).
Proof.
  rewrite signal_rows. apply Forall_map, Forall_forall.
  intros x _. apply signal_row_unit.
Qed.

Lemma replace_zero_ffill_unit (col : list Z) :
  Forall unit_signal col -> Forall unit_signal (replace_zero_ffill col).
Proof.
  intros H. unfold replace_zero_ffill.
  apply Forall_scan with (I := unit_signal) (P := unit_signal); auto.
  - intros s x Hs Hx. destruct (Z.eqb x 0); simpl; auto.
  - destruct col as [|x col]; simpl; [right; now left|].
    now inversion H.
Qed.

Lemma signal_row_zero (z_entry z_exit : Q) :
  0 < z_entry -> signal_row z_entry z_exit 0 = 0%Z.
Proof.
  intros H. unfold signal_row.
  destruct (Qltb (Qabs 0) z_exit); [reflexivity|].
  destruct (Qltb z_entry 0) eqn:E1; [apply Qltb_lt in E1; lra|].
  destruct (Qltb 0 (- z_entry)) eqn:E2; [apply Qltb_lt in E2; lra|].
  reflexivity.
Qed.

Lemma nth_signal (z_entry z_exit : Q) (z : list Q) (t : nat) :
  0 < z_entry ->
  nth t (signal z_entry z_exit z) 0%Z = signal_row z_entry z_exit (nth t z 0).
Proof.
  intros H. rewrite signal_rows.
  rewrite <- (signal_row_zero z_entry z_exit H) at 1.
  apply map_nth.
Qed.

(** On a row whose signal is 0 the padded column repeats its previous row
    (0 on the first row). *)
Lemma ffill_scan_hold (xs : list Z) :
  forall v t, (t < length xs)%nat -> nth t xs 0%Z = 0%Z ->
    let out := scan (fun val x => if Z.eqb x 0 then (val, val) else (x, x)) v xs in
    nth t out 0%Z = match t with O => v | S t' => nth t' out 0%Z end.
Proof.
  induction xs as [|x xs IH]; intros v t Ht Hx; simpl in *; [lia|].
  destruct t as [|t].
  - subst x. reflexivity.
  - assert (Hlt : (t < length xs)%nat) by lia.
    destruct (Z.eqb x 0); simpl.
    + rewrite (IH v t Hlt Hx). destruct t; reflexivity.
    + rewrite (IH x t Hlt Hx). destruct t; reflexivity.
Qed.

Lemma replace_zero_ffill_hold (col : list Z) (t : nat) :
  (t < length col)%nat -> nth t col 0%Z = 0%Z ->
  nth t (replace_zero_ffill col) 0%Z =
  match t with O => 0%Z | S t' => nth t' (replace_zero_ffill col) 0%Z end.
Proof.
  intros Ht Hx. unfold replace_zero_ffill.
  rewrite (ffill_scan_hold col (hd 0%Z col) t Ht Hx).
  destruct t; [|reflexivity].
  destruct col; simpl in *; [lia | now subst].
Qed.

Lemma nth_position_discrete (sig : list Z) (t : nat) :
  nth t (position_discrete sig) 0 = inject_Z (nth t (replace_zero_ffill sig) 0%Z).
Proof.
  unfold position_discrete.
  change (0 : Q) with (inject_Z 0). apply map_nth.
Qed.

Lemma length_signal (z_entry z_exit : Q) (z : list Q) :
  length (signal z_entry z_exit z) = length z.
Proof. rewrite signal_rows. apply length_map. Qed.

Lemma length_position_discrete (sig : list Z) :
  length (position_discrete sig) = length sig.
Proof.
  unfold position_discrete, replace_zero_ffill.
  now rewrite length_map, length_scan.
Qed.

Lemma length_ewm_std (np_sqrt : Q -> Q) (span : Z) (col : list Q) :
  length (ewm_std np_sqrt span col) = length col.
Proof.
  unfold ewm_std, ewm_var. now rewrite length_map, length_scan.
Qed.

Lemma length_ewm_mean (span : Z) (col : list Q) :
  length (ewm_mean span col) = length col.
Proof. unfold ewm_mean. apply length_scan. Qed.

Lemma length_z_score_raw (np_sqrt : Q -> Q) (window : Z) (closes : list Q) :
  length (z_score_raw np_sqrt window closes) = length closes.
Proof.
  unfold z_score_raw.
  rewrite length_map2, length_combine, length_ewm_mean, length_ewm_std. lia.
Qed.

(** ** The guarded z-score *)

Lemma z_score_row_zero_std (close mean s : Q) :
  s == 0 -> z_score_row close mean (Some s) = 0.
Proof.
  intros Hs. unfold z_score_row.
  destruct (Qltb 0 s) eqn:E; [apply Qltb_lt in E; lra | reflexivity].
Qed.

Lemma z_score_raw_zero_std (np_sqrt : Q -> Q) (window : Z) (closes : list Q)
      (t : nat) (s : Q) :
  nth t (ewm_std np_sqrt window closes) None = Some s -> s == 0 ->
  nth t (z_score_raw np_sqrt window closes) 0 = 0.
Proof.
  intros Hstd Hs.
  assert (Ht : (t < length closes)%nat).
  { destruct (Nat.lt_ge_cases t (length closes)) as [H|H]; [exact H|].
    rewrite nth_overflow in Hstd; [discriminate|].
    now rewrite length_ewm_std. }
  unfold z_score_raw.
  rewrite (nth_map2 _ (0, 0) (None : fnan)).
  - rewrite Hstd. now apply z_score_row_zero_std.
  - rewrite length_combine, length_ewm_mean. lia.
  - now rewrite length_ewm_std.
Qed.

Lemma vol_filter_keeps_zero (np_sqrt : Q -> Q) (rets z : list Q) (t : nat) :
  nth t z 0 = 0 -> nth t (vol_filter np_sqrt rets z) 0 = 0.
Proof.
  intros Hz. unfold vol_filter.
  destruct (nth_loc_assign 0 0
              (map (fun v => gt_nan v (vol_threshold np_sqrt rets))
                   (volatility np_sqrt rets)) z t) as [H|[H|H]];
    congruence.
Qed.

Lemma position_dynamic_flat_z (z_entry : Q) (z pos : list Q) (t : nat) :
  nth t z 0 = 0 -> nth t (position_dynamic z_entry z pos) 0 == 0.
Proof.
  intros Hz. unfold position_dynamic.
  set (f := fun x : Q => np_clip (- x / z_entry) (- (1)) 1).
  destruct (Nat.lt_ge_cases t (Nat.min (length pos) (length (position_size z_entry z))))
    as [Hlt|Hge].
  - rewrite (nth_map2 _ 0 (f 0)) by lia.
    unfold position_size. fold f. rewrite map_nth, Hz.
    assert (Hc : f 0 == 0).
    { assert (E : - 0 / z_entry == 0) by (unfold Qdiv; ring).
      unfold f. rewrite np_clip_id; [exact E | rewrite E; lra]. }
    rewrite Hc. simpl (Qabs 0). ring.
  - rewrite nth_overflow; [reflexivity|]. now rewrite length_map2.
Qed.

(** ** Bounds (C9) and days of zero deviation (C7) *)

(** C9: with valid parameters every raw signal is -1, 0 or 1, every
    discrete position is -1, 0 or 1, and in either sizing mode every
    position lies in [-1, 1].  (Validity keeps [z_entry] away from 0, where
    the float division of the dynamic size would yield NaN.) *)
Theorem C9_signal_and_position_bounded
        (np_sqrt : Q -> Q) (df : frame) (window : Z) (z_entry z_exit : Q)
        (dynamic_position filter_vol : bool) :
  valid_params window z_entry z_exit ->
  let z := z_score np_sqrt window filter_vol df in
  Forall unit_signal (signal z_entry z_exit z) /\
  Forall (fun p => p == - (1) \/ p == 0 \/ p == 1)
         (position z_entry z_exit false z) /\
  Forall (fun p => - (1) <= p <= 1) (position z_entry z_exit dynamic_position z).
Proof.
  intros _ z.
  assert (Hsig : Forall unit_signal (signal z_entry z_exit z))
    by apply signal_unit.
  assert (Hdis : Forall (fun p => p == - (1) \/ p == 0 \/ p == 1)
                        (position_discrete (signal z_entry z_exit z))).
  { unfold position_discrete. apply Forall_map.
    apply replace_zero_ffill_unit in Hsig.
    eapply Forall_impl; [|exact Hsig].
    intros s [H|[H|H]]; subst s; [left | right; left | right; right];
      reflexivity. }
  split; [exact Hsig|]. split; [exact Hdis|].
  unfold position. destruct dynamic_position.
  - unfold position_dynamic. apply Forall_map2.
    intros p sz _ Hsz.
    unfold position_size in Hsz. apply in_map_iff in Hsz.
    destruct Hsz as [x [Hx _]]. subst sz.
    pose proof (np_clip_bounds (- x / z_entry) (- (1)) 1) as Hb.
    assert (Hle : - (1) <= 1) by lra. specialize (Hb Hle).
    apply Qabs_Qle_condition in Hb.
    pose proof (Qabs_nonneg (np_clip (- x / z_entry) (- (1)) 1)) as Hn.
    destruct (np_sign_cases p) as [E|[E|E]]; rewrite E; lra.
  - eapply Forall_impl; [|exact Hdis].
    intros p [H|[H|H]]; rewrite H; lra.
Qed.

Lemma C9_witness :
  Forall (fun p => - (1) <= p <= 1)
         (position 1 (3 # 10) true (z_score sqrt_approx 10 true dip_frame)).
Proof.
  apply (C9_signal_and_position_bounded sqrt_approx dip_frame 10 1 (3 # 10)
                                        true true).
  unfold valid_params. repeat split; try reflexivity. discriminate.
Defined.

(** C7: on a day whose rolling standard deviation is 0 the z-score is 0
    (no division is attempted), and the position of that day is non-zero
    only if the position of the day before already was. *)
Theorem C7_zero_std_day_opens_nothing
        (np_sqrt : Q -> Q) (df : frame) (window : Z) (z_entry z_exit : Q)
        (dynamic_position filter_vol : bool) (t : nat) (s : Q) :
  valid_params window z_entry z_exit ->
  nth t (ewm_std np_sqrt window (map Close df)) None = Some s -> s == 0 ->
  let z := z_score np_sqrt window filter_vol df in
  let pos := position z_entry z_exit dynamic_position z in
  nth t z 0 = 0 /\
  (~ nth t pos 0 == 0 -> exists t', t = S t' /\ ~ nth t' pos 0 == 0).
Proof.
  intros (_ & Hze & _ & _) Hstd Hs z pos.
  assert (Ht : (t < length (map Close df))%nat).
  { destruct (Nat.lt_ge_cases t (length (map Close df))) as [H|H]; [exact H|].
    rewrite nth_overflow in Hstd; [discriminate|].
    now rewrite length_ewm_std. }
  assert (Hraw : nth t (z_score_raw np_sqrt window (map Close df)) 0 = 0)
    by (eapply z_score_raw_zero_std; eauto).
  assert (Hz : nth t z 0 = 0).
  { unfold z, z_score. destruct filter_vol; [|exact Hraw].
    now apply vol_filter_keeps_zero. }
  split; [exact Hz|].
  intros Hpos. unfold pos, position in *.
  destruct dynamic_position.
  - exfalso. apply Hpos. now apply position_dynamic_flat_z.
  - assert (Hlen : (t < length (signal z_entry z_exit z))%nat).
    { destruct (Nat.lt_ge_cases t (length (signal z_entry z_exit z)))
        as [H|H]; [exact H|].
      exfalso. apply Hpos. rewrite nth_overflow; [reflexivity|].
      now rewrite length_position_discrete. }
    assert (Hsig : nth t (signal z_entry z_exit z) 0%Z = 0%Z).
    { rewrite nth_signal by exact Hze. rewrite Hz.
      now apply signal_row_zero. }
    rewrite nth_position_discrete in Hpos.
    rewrite (replace_zero_ffill_hold _ t Hlen Hsig) in Hpos.
    destruct t as [|t']; [exfalso; apply Hpos; reflexivity|].
    exists t'. split; [reflexivity|].
    now rewrite nth_position_discrete.
Qed.

Lemma C7_witness :
  nth 1 (z_score sqrt_approx 10 true flat_frame) 0 = 0 /\
  (~ nth 1 (position 1 (3 # 10) false (z_score sqrt_approx 10 true flat_frame)) 0 == 0 ->
   exists t', 1%nat = S t' /\
     ~ nth t' (position 1 (3 # 10) false (z_score sqrt_approx 10 true flat_frame)) 0 == 0).
Proof.
  apply (C7_zero_std_day_opens_nothing sqrt_approx flat_frame 10 1 (3 # 10)
           false true 1 (sqrt_approx 0)).
  - unfold valid_params. repeat split; try reflexivity. discriminate.
  - vm_compute. reflexivity.
  - vm_compute. reflexivity.
Defined.

(** ** Costs and net returns (C6) *)

Lemma nth_shift_scan {A} (d : A) (o : option A) (col : list A) :
  forall prev t, (S t < length col)%nat ->
    nth (S t) (scan (fun p y => (Some y, p)) prev col) o = Some (nth t col d).
Proof.
  induction col as [|x col IH]; intros prev t Ht; simpl in *; [lia|].
  destruct t as [|t].
  - destruct col; simpl in *; [lia | reflexivity].
  - apply (IH (Some x) t). lia.
Qed.

Lemma nth_shift {A} (d : A) (o : option A) (col : list A) (t : nat) :
  (S t < length col)%nat -> nth (S t) (shift col) o = Some (nth t col d).
Proof. apply nth_shift_scan. Qed.

Lemma length_shift {A} (col : list A) : length (shift col) = length col.
Proof. apply length_scan. Qed.

Lemma nth_fillna {A} (d : A) (col : list (option A)) (t : nat) :
  nth t (fillna d col) d = match nth t col None with Some x => x | None => d end.
Proof.
  exact (map_nth (fun o => match o with Some x => x | None => d end) col None t).
Qed.

Lemma nth_position_lag (pos : list Q) (t : nat) :
  (S t < length pos)%nat -> nth (S t) (position_lag pos) 0 = nth t pos 0.
Proof.
  intros Ht. unfold position_lag.
  now rewrite nth_fillna, (nth_shift 0 None pos t Ht).
Qed.

Lemma nth_position_change (pos : list Q) (t : nat) :
  (S t < length pos)%nat ->
  nth (S t) (position_change pos) 0 = Qabs (nth (S t) pos 0 - nth t pos 0).
Proof.
  intros Ht. unfold position_change.
  transitivity (Qabs (nth (S t) (fillna 0 (diff pos)) 0));
    [exact (map_nth Qabs (fillna 0 (diff pos)) 0 (S t))|].
  rewrite nth_fillna. unfold diff.
  rewrite (nth_map2 _ 0 (None : option Q)) by (rewrite ?length_shift; lia).
  now rewrite (nth_shift 0 None pos t Ht).
Qed.

Lemma length_strategy_net (pos rets : list Q) :
  length (strategy_net pos rets) = Nat.min (length pos) (length rets).
Proof.
  unfold strategy_net, strategy_clipped, strategy_raw, trade_cost,
    position_change, position_lag, fillna, diff.
  rewrite !length_map2, !length_map, !length_map2, !length_map, !length_shift.
  lia.
Qed.

(** Net return of a row after the first: the lagged position times the
    market return, clipped, less the cost of the day's position change. *)
Lemma nth_strategy_net (pos rets : list Q) (t : nat) :
  (S t < length pos)%nat -> (S t < length rets)%nat ->
  nth (S t) (strategy_net pos rets) 0 =
  np_clip (nth t pos 0 * nth (S t) rets 0) stop_loss take_profit
  - cost_per_trade * Qabs (nth (S t) pos 0 - nth t pos 0).
Proof.
  intros Hp Hr. unfold strategy_net.
  assert (Hlag : length (position_lag pos) = length pos).
  { unfold position_lag, fillna. now rewrite length_map, length_shift. }
  assert (Hchg : length (position_change pos) = length pos).
  { unfold position_change, fillna, diff.
    rewrite !length_map, length_map2, length_shift. lia. }
  rewrite (nth_map2 _ 0 0).
  - unfold strategy_clipped, trade_cost.
    rewrite (nth_indep _ 0 (np_clip 0 stop_loss take_profit))
      by (unfold strategy_raw; rewrite length_map, length_map2; lia).
    rewrite (map_nth (fun r => np_clip r stop_loss take_profit)).
    rewrite (nth_indep (map _ (position_change pos)) 0 (cost_per_trade * 0))
      by (rewrite length_map; lia).
    rewrite (map_nth (fun c => cost_per_trade * c)).
    unfold strategy_raw.
    rewrite (nth_map2 _ 0 0) by lia.
    now rewrite nth_position_lag, nth_position_change.
  - unfold strategy_clipped, strategy_raw.
    rewrite length_map, length_map2. lia.
  - unfold trade_cost. rewrite length_map. lia.
Qed.

(** C6 (as the code computes it): after the first row the net return is
    the clipped product of the previous day's position and the day's market
    return, less cost_per_trade times the absolute position change; so the
    position path 0, 1, 0 against market returns 0.02 and -0.01 yields the
    net returns -0.001 and -0.011 (the entry day earns nothing and pays the
    cost). *)
Theorem C6_net_return_uses_lagged_position :
  (forall (pos rets : list Q) (t : nat),
      (S t < length pos)%nat -> (S t < length rets)%nat ->
      nth (S t) (strategy_net pos rets) 0 =
      np_clip (nth t pos 0 * nth (S t) rets 0) stop_loss take_profit
      - cost_per_trade * Qabs (nth (S t) pos 0 - nth t pos 0)) /\
  (forall r0 : Q,
      Forall2 Qeq (skipn 1 (strategy_net [0; 1; 0] [r0; 2 # 100; - (1 # 100)]))
              [- (1 # 1000); - (11 # 1000)]).
Proof.
  split.
  - intros pos rets t Hp Hr. now apply nth_strategy_net.
  - intros r0. vm_compute. repeat constructor.
Qed.

Lemma C6_witness :
  nth 1 (strategy_net [0; 1; 0] [0; 2 # 100; - (1 # 100)]) 0 =
  np_clip (0 * (2 # 100)) stop_loss take_profit - cost_per_trade * Qabs (1 - 0).
Proof.
  apply (proj1 C6_net_return_uses_lagged_position
               [0; 1; 0] [0; 2 # 100; - (1 # 100)] 0%nat);
    simpl; lia.
Defined.

(** C6, the example as stated, fails: on the entry day of the path
    0, 1, 0 the net return is -0.001, not 0.019; and if the path is read as
    the position column 1, 0 (flat before the first row) the first net
    return is 0, not 0.019. *)
Lemma C6_counterexample :
  nth 1 (strategy_net [0; 1; 0] [0; 2 # 100; - (1 # 100)]) 0 == - (1 # 1000) /\
  ~ nth 1 (strategy_net [0; 1; 0] [0; 2 # 100; - (1 # 100)]) 0 == 19 # 1000 /\
  nth 0 (strategy_net [1; 0] [2 # 100; - (1 # 100)]) 0 == 0 /\
  ~ nth 0 (strategy_net [1; 0] [2 # 100; - (1 # 100)]) 0 == 19 # 1000.
Proof.
  vm_compute. repeat split; try reflexivity; discriminate.
Qed.

(** ** The strategy function returns *)

Lemma length_z_score (np_sqrt : Q -> Q) (window : Z) (filter_vol : bool)
      (df : frame) :
  length (z_score np_sqrt window filter_vol df) = length df.
Proof.
  unfold z_score. destruct filter_vol.
  - unfold vol_filter, loc_assign, volatility, rolling_std.
    rewrite length_map2, length_map, length_scan, length_z_score_raw,
      !length_map. lia.
  - now rewrite length_z_score_raw, length_map.
Qed.

Lemma length_position (z_entry z_exit : Q) (dynamic_position : bool)
      (z : list Q) :
  length (position z_entry z_exit dynamic_position z) = length z.
Proof.
  unfold position. destruct dynamic_position.
  - unfold position_dynamic, position_size.
    rewrite length_map2, length_position_discrete, length_signal, length_map.
    lia.
  - now rewrite length_position_discrete, length_signal.
Qed.

Lemma length_equity_of (net : list Q) : length (equity_of net) = length net.
Proof.
  unfold equity_of, cumprod. now rewrite length_map, length_scan, length_map.
Qed.

Lemma backtest_returns (np_sqrt : Q -> Q) (df : frame) (window : Z)
      (z_entry z_exit : Q) (dynamic_position filter_vol : bool) :
  (0 < window)%Z -> df <> [] ->
  exists r, backtest_mean_reversion np_sqrt df window z_entry z_exit
                                    dynamic_position filter_vol = Returned r.
Proof.
  intros Hw Hdf. unfold backtest_mean_reversion.
  destruct (Z.ltb_spec window 1) as [H|H]; [lia|].
  match goal with |- context [rev ?e] => destruct (rev e) as [|final rest] eqn:E end.
  - exfalso. apply (f_equal (@length Q)) in E.
    rewrite length_rev, length_equity_of, length_strategy_net,
      length_position, length_z_score, length_map in E.
    destruct df; [congruence | simpl in E; lia].
  - eexists. reflexivity.
Qed.

(** ** The exit rule (C1) *)

(** The columns of a returned result are the column functions above. *)
Lemma backtest_columns (np_sqrt : Q -> Q) (df : frame) (window : Z)
      (z_entry z_exit : Q) (dynamic_position filter_vol : bool)
      (r : backtest_result) :
  backtest_mean_reversion np_sqrt df window z_entry z_exit
                          dynamic_position filter_vol = Returned r ->
  let z := z_score np_sqrt window filter_vol df in
  d_z_score (data r) = z /\
  d_signal (data r) = signal z_entry z_exit z /\
  d_position (data r) = position z_entry z_exit dynamic_position z /\
  d_equity_curve (data r)
  = strategy_equity np_sqrt df window z_entry z_exit dynamic_position filter_vol /\
  d_buy_hold_curve (data r) = buy_hold_curve (map returns df).
Proof.
  unfold backtest_mean_reversion.
  destruct (window <? 1)%Z; [discriminate|].
  match goal with |- context [rev ?e] => destruct (rev e) end; [discriminate|].
  intros H. injection H as <-. simpl. repeat split.
Qed.

(** C1: on the third row of [dip_frame] (window 10, z_entry 1, z_exit 0.3)
    the z-score is inside the exit zone and the signal is 0, yet the
    forward-filled position of the returned data stays at 1: the exit does
    not flatten it. *)
Theorem C1_exit_day_keeps_position :
  exists r,
    backtest_mean_reversion sqrt_approx dip_frame 10 1 (3 # 10) false true
    = Returned r /\
    Qabs (nth 2 (d_z_score (data r)) 0) < 3 # 10 /\
    d_signal (data r) = [0; 1; 0]%Z /\
    d_position (data r) = [0; 1; 1].
Proof.
  destruct (backtest_returns sqrt_approx dip_frame 10 1 (3 # 10) false true)
    as [r Hr]; [reflexivity | discriminate |].
  exists r. split; [exact Hr|].
  destruct (backtest_columns _ _ _ _ _ _ _ _ Hr) as (Hz & Hs & Hp & _).
  rewrite Hz, Hs, Hp. vm_compute.
  split; [reflexivity|]. split; reflexivity.
Qed.

(** Once the padded signal is non-zero it is non-zero on the next row too,
    whatever that row's signal is. *)
Lemma ffill_scan_stays_open (xs : list Z) :
  forall v t, (S t < length xs)%nat ->
    let out := scan (fun val x => if Z.eqb x 0 then (val, val) else (x, x)) v xs in
    nth t out 0%Z <> 0%Z -> nth (S t) out 0%Z <> 0%Z.
Proof.
  induction xs as [|x xs IH]; intros v t Ht; simpl in *; [lia|].
  destruct t as [|t].
  - destruct xs as [|x' xs]; simpl in *; [lia|].
    destruct (Z.eqb x 0); simpl;
      destruct (Z.eqb x' 0) eqn:E'; simpl; auto;
      intros _; now apply Z.eqb_neq in E'.
  - destruct (Z.eqb x 0); simpl; apply IH; lia.
Qed.

Lemma position_discrete_stays_open (sig : list Z) (t : nat) :
  (S t < length sig)%nat ->
  ~ nth t (position_discrete sig) 0 == 0 ->
  ~ nth (S t) (position_discrete sig) 0 == 0.
Proof.
  intros Ht. rewrite !nth_position_discrete.
  intros H0 H1. apply H0.
  destruct (Z.eq_dec (nth t (replace_zero_ffill sig) 0%Z) 0) as [E|E];
    [now rewrite E|].
  exfalso.
  apply (ffill_scan_stays_open sig (hd 0%Z sig) t Ht) in E.
  fold (replace_zero_ffill sig) in E. apply E.
  unfold Qeq in H1. simpl in H1. lia.
Qed.

(** ** The benchmark (C4) *)

Lemma cumprod_scan_Qeq (xs ys : list Q) :
  Forall2 Qeq xs ys ->
  forall a b, a == b ->
    Forall2 Qeq (scan (fun acc x => let p := acc * x in (p, p)) a xs)
                (scan (fun acc x => let p := acc * x in (p, p)) b ys).
Proof.
  induction 1 as [|x y xs ys Hxy _ IH]; intros a b Hab; simpl.
  - constructor.
  - assert (E : a * x == b * y) by now rewrite Hab, Hxy.
    constructor; [exact E | now apply IH].
Qed.

Lemma Forall2_map_Qeq (f : Q -> Q) (xs ys : list Q) :
  (forall x y, x == y -> f x == f y) ->
  Forall2 Qeq xs ys -> Forall2 Qeq (map f xs) (map f ys).
Proof.
  intros Hf. induction 1; simpl; constructor; auto.
Qed.

Lemma equity_of_Qeq (xs ys : list Q) :
  Forall2 Qeq xs ys -> Forall2 Qeq (equity_of xs) (equity_of ys).
Proof.
  intros H. unfold equity_of, cumprod.
  apply Forall2_map_Qeq; [intros x y E; now rewrite E|].
  apply cumprod_scan_Qeq; [|reflexivity].
  apply Forall2_map_Qeq; [intros x y E; now rewrite E | exact H].
Qed.

(** Holding one unit throughout costs nothing and earns the raw return,
    clipped or not according to [clip]. *)
Lemma constant_one_net (clip : Q -> Q) (rets : list Q) :
  Forall (fun r => clip (1 * r) == r) rets ->
  forall prev, prev = None \/ prev = Some 1 ->
    Forall2 Qeq rets
      (map2 Qminus
         (map clip (map2 Qmult (repeat 1 (length rets)) rets))
         (map (fun c => cost_per_trade * c)
            (map Qabs
               (fillna 0
                  (map2 (fun x o => match o with
                                    | Some p => Some (x - p)
                                    | None => None
                                    end)
                        (repeat 1 (length rets))
                        (scan (fun prev x => (Some x, prev)) prev
                              (repeat 1 (length rets)))))))).
Proof.
  induction 1 as [|r rets Hr _ IH]; intros prev Hprev; simpl.
  - constructor.
  - constructor.
    + rewrite Hr. destruct Hprev; subst prev; simpl;
        unfold cost_per_trade; ring.
    + apply IH. now right.
Qed.

(** C4 (as the code computes it): the buy-and-hold curve compounds the
    market return itself, position_lag = 1 with neither clip nor trade
    cost; it agrees with the full pipeline at position_lag = 1 when every
    return lies in [stop_loss, take_profit]. *)
Theorem C4_buy_hold_is_unclipped_compounding (rets : list Q) :
  Forall2 Qeq (buy_hold_curve rets) (buy_hold_unclipped rets) /\
  (Forall (fun r => stop_loss <= r <= take_profit) rets ->
   Forall2 Qeq (buy_hold_curve rets) (buy_hold_spec rets)).
Proof.
  split.
  - unfold buy_hold_curve, buy_hold_unclipped. fold (equity_of rets).
    apply equity_of_Qeq. unfold strategy_raw.
    induction rets as [|r rets IH]; simpl; constructor; [ring | exact IH].
  - intros Hin. unfold buy_hold_curve, buy_hold_spec. fold (equity_of rets).
    apply equity_of_Qeq.
    unfold strategy_clipped, strategy_raw, trade_cost, position_change, diff,
      shift.
    apply (constant_one_net (fun r => np_clip r stop_loss take_profit)).
    + eapply Forall_impl; [|exact Hin].
      intros r Hr. cbv beta.
      rewrite np_clip_id; [ring | unfold stop_loss, take_profit in *; lra].
    + now left.
Qed.

Lemma C4_witness :
  Forall2 Qeq (buy_hold_curve [2 # 100; - (1 # 100)])
              (buy_hold_spec [2 # 100; - (1 # 100)]).
Proof.
  apply (proj2 (C4_buy_hold_is_unclipped_compounding [2 # 100; - (1 # 100)])).
  repeat constructor; discriminate.
Defined.

(** C4, as stated, fails: a market return of +10% is above take_profit, so
    the pipeline with position_lag = 1 compounds the clipped 5% while the
    buy-and-hold curve compounds the full 10%. *)
Lemma C4_counterexample :
  Forall2 Qeq (buy_hold_curve [1 # 10]) [11000] /\
  Forall2 Qeq (buy_hold_spec [1 # 10]) [10500] /\
  ~ Forall2 Qeq (buy_hold_curve [1 # 10]) (buy_hold_spec [1 # 10]).
Proof.
  split; [|split].
  - vm_compute. repeat constructor.
  - vm_compute. repeat constructor.
  - intros H. inversion H as [|? ? ? ? E _]; subst.
    vm_compute in E. discriminate.
Qed.

(** ** Causality of the columns (C2) *)

Lemma firstn_scan {S A B} (step : S -> A -> S * B) (xs : list A) :
  forall n s, firstn n (scan step s xs) = scan step s (firstn n xs).
Proof.
  induction xs as [|x xs IH]; intros [|n] s; simpl; try reflexivity.
  destruct (step s x) as [s' y]. simpl. now rewrite IH.
Qed.

Lemma firstn_map2 {A B C} (f : A -> B -> C) (xs : list A) :
  forall ys n, firstn n (map2 f xs ys) = map2 f (firstn n xs) (firstn n ys).
Proof.
  induction xs as [|x xs IH]; intros [|y ys] [|n]; simpl; try reflexivity.
  now rewrite IH.
Qed.

Lemma nth_firstn_succ {A} (l : list A) (t : nat) (d : A) :
  nth t (firstn (S t) l) d = nth t l d.
Proof.
  revert l. induction t as [|t IH]; intros [|x l]; simpl; try reflexivity.
  apply IH.
Qed.

Lemma firstn_signal (z_entry z_exit : Q) (z : list Q) (n : nat) :
  firstn n (signal z_entry z_exit z) = signal z_entry z_exit (firstn n z).
Proof. rewrite !signal_rows. apply firstn_map. Qed.

Lemma firstn_replace_zero_ffill (col : list Z) (n : nat) :
  firstn n (replace_zero_ffill col) = replace_zero_ffill (firstn n col).
Proof.
  unfold replace_zero_ffill. rewrite firstn_scan.
  destruct n as [|n]; [reflexivity|].
  destruct col; reflexivity.
Qed.

Lemma firstn_position (z_entry z_exit : Q) (dynamic_position : bool)
      (z : list Q) (n : nat) :
  firstn n (position z_entry z_exit dynamic_position z)
  = position z_entry z_exit dynamic_position (firstn n z).
Proof.
  assert (Hd : firstn n (position_discrete (signal z_entry z_exit z))
               = position_discrete (signal z_entry z_exit (firstn n z))).
  { unfold position_discrete.
    now rewrite firstn_map, firstn_replace_zero_ffill, firstn_signal. }
  unfold position. destruct dynamic_position; [|exact Hd].
  unfold position_dynamic, position_size.
  now rewrite firstn_map2, Hd, firstn_map.
Qed.

Lemma firstn_z_score_raw (np_sqrt : Q -> Q) (window : Z) (closes : list Q)
      (n : nat) :
  firstn n (z_score_raw np_sqrt window closes)
  = z_score_raw np_sqrt window (firstn n closes).
Proof.
  unfold z_score_raw, ewm_std, ewm_var, ewm_mean.
  now rewrite firstn_map2, firstn_map, combine_firstn, !firstn_scan.
Qed.

Lemma firstn_strategy_net (pos rets : list Q) (n : nat) :
  firstn n (strategy_net pos rets)
  = strategy_net (firstn n pos) (firstn n rets).
Proof.
  unfold strategy_net, strategy_clipped, strategy_raw, trade_cost,
    position_change, position_lag, fillna, diff, shift.
  now rewrite firstn_map2, !firstn_map, !firstn_map2, !firstn_map,
    !firstn_scan.
Qed.

Lemma firstn_equity_of (net : list Q) (n : nat) :
  firstn n (equity_of net) = equity_of (firstn n net).
Proof.
  unfold equity_of, cumprod. now rewrite firstn_map, firstn_scan, firstn_map.
Qed.

Lemma firstn_equity_curve (pos rets : list Q) (n : nat) :
  firstn n (equity_curve pos rets)
  = equity_curve (firstn n pos) (firstn n rets).
Proof.
  unfold equity_curve. now rewrite firstn_equity_of, firstn_strategy_net.
Qed.

Lemma firstn_strategy_equity_unfiltered
      (np_sqrt : Q -> Q) (df : frame) (window : Z) (z_entry z_exit : Q)
      (dynamic_position : bool) (n : nat) :
  firstn n (strategy_equity np_sqrt df window z_entry z_exit dynamic_position false)
  = strategy_equity np_sqrt (firstn n df) window z_entry z_exit
                    dynamic_position false.
Proof.
  unfold strategy_equity, z_score.
  now rewrite firstn_equity_curve, firstn_position, firstn_z_score_raw,
    !firstn_map.
Qed.

Lemma nth_strategy_net_columns (pos rets : list Q) (t : nat) :
  (t < length pos)%nat -> (t < length rets)%nat ->
  nth t (strategy_net pos rets) 0 =
  np_clip (nth t (position_lag pos) 0 * nth t rets 0) stop_loss take_profit
  - cost_per_trade * nth t (position_change pos) 0.
Proof.
  intros Hp Hr. unfold strategy_net.
  assert (Hlag : length (position_lag pos) = length pos).
  { unfold position_lag, fillna. now rewrite length_map, length_shift. }
  assert (Hchg : length (position_change pos) = length pos).
  { unfold position_change, fillna, diff.
    rewrite !length_map, length_map2, length_shift. lia. }
  rewrite (nth_map2 _ 0 0).
  - unfold strategy_clipped, trade_cost.
    rewrite (nth_indep _ 0 (np_clip 0 stop_loss take_profit))
      by (unfold strategy_raw; rewrite length_map, length_map2; lia).
    rewrite (map_nth (fun r => np_clip r stop_loss take_profit)).
    rewrite (nth_indep (map _ (position_change pos)) 0 (cost_per_trade * 0))
      by (rewrite length_map; lia).
    rewrite (map_nth (fun c => cost_per_trade * c)).
    unfold strategy_raw.
    now rewrite (nth_map2 _ 0 0) by lia.
  - unfold strategy_clipped, strategy_raw.
    rewrite length_map, length_map2. lia.
  - unfold trade_cost. rewrite length_map. lia.
Qed.

Lemma nth_firstn_lt {A} (l : list A) (d : A) :
  forall n i, (i < n)%nat -> nth i (firstn n l) d = nth i l d.
Proof.
  induction l as [|x l IH]; intros [|n] [|i] H; simpl; try reflexivity; try lia.
  apply IH. lia.
Qed.

(** The lagged position of day t is read off the positions before t. *)
Lemma position_lag_of_prefix (pos pos' : list Q) (t : nat) :
  (t < length pos)%nat -> (t < length pos')%nat ->
  firstn t pos = firstn t pos' ->
  nth t (position_lag pos) 0 = nth t (position_lag pos') 0.
Proof.
  intros Hp Hp' E. destruct t as [|t].
  - destruct pos, pos'; simpl in *; try lia; reflexivity.
  - rewrite !nth_position_lag by assumption.
    rewrite <- (nth_firstn_lt pos 0 (S t) t),
            <- (nth_firstn_lt pos' 0 (S t) t) by lia.
    now rewrite E.
Qed.

Lemma firstn_succ_snoc {A} (l : list A) (d : A) :
  forall t, (t < length l)%nat -> firstn (S t) l = firstn t l ++ [nth t l d].
Proof.
  induction l as [|x l IH]; intros [|t] H; simpl in *; try lia; try reflexivity.
  f_equal. apply IH. lia.
Qed.

Lemma Forall2_Qeq_refl (l : list Q) : Forall2 Qeq l l.
Proof. induction l; constructor; [reflexivity | assumption]. Qed.

Lemma Forall2_Qeq_nth (xs ys : list Q) :
  Forall2 Qeq xs ys -> forall t, nth t xs 0 == nth t ys 0.
Proof.
  induction 1 as [|x y xs ys Hxy _ IH]; intros [|t]; simpl;
    try reflexivity; [exact Hxy | apply IH].
Qed.

(** What equity[t] is made of: the returns up to day t, the positions
    before day t, and the size of the position change of day t. *)
Lemma equity_of_day (pos pos' rets rets' : list Q) (t : nat) :
  (t < length pos)%nat -> (t < length pos')%nat ->
  firstn t pos = firstn t pos' ->
  firstn (S t) rets = firstn (S t) rets' ->
  nth t (position_change pos) 0 == nth t (position_change pos') 0 ->
  nth t (equity_curve pos rets) 0 == nth t (equity_curve pos' rets') 0.
Proof.
  intros Hp Hp' Epos Erets Ecost.
  assert (Elen : Nat.min (S t) (length rets) = Nat.min (S t) (length rets'))
    by (rewrite <- !length_firstn; now rewrite Erets).
  destruct (Nat.lt_ge_cases t (length rets)) as [Hr|Hr].
  - assert (Hr' : (t < length rets')%nat) by lia.
    assert (Eret : nth t rets 0 = nth t rets' 0).
    { rewrite <- (nth_firstn_succ rets), <- (nth_firstn_succ rets').
      now rewrite Erets. }
    assert (Enet : nth t (strategy_net pos rets) 0
                   == nth t (strategy_net pos' rets') 0).
    { rewrite !nth_strategy_net_columns by assumption.
      rewrite (position_lag_of_prefix pos pos' t Hp Hp' Epos), Eret, Ecost.
      reflexivity. }
    assert (Epre : firstn t (strategy_net pos rets)
                   = firstn t (strategy_net pos' rets')).
    { rewrite !firstn_strategy_net, Epos. f_equal.
      assert (H : forall l : list Q, firstn t l = firstn t (firstn (S t) l))
        by (intros l; rewrite firstn_firstn, Nat.min_l by lia; reflexivity).
      rewrite (H rets), (H rets'). now rewrite Erets. }
    unfold equity_curve.
    rewrite <- (nth_firstn_succ (equity_of (strategy_net pos rets))),
            <- (nth_firstn_succ (equity_of (strategy_net pos' rets'))).
    rewrite !firstn_equity_of.
    apply Forall2_Qeq_nth, equity_of_Qeq.
    rewrite (firstn_succ_snoc (strategy_net pos rets) 0),
            (firstn_succ_snoc (strategy_net pos' rets') 0)
      by (rewrite length_strategy_net; lia).
    rewrite Epre. apply Forall2_app; [apply Forall2_Qeq_refl|].
    constructor; [exact Enet | constructor].
  - assert (Hr' : (length rets' <= t)%nat) by lia.
    unfold equity_curve.
    rewrite !nth_overflow;
      [reflexivity | |]; rewrite length_equity_of, length_strategy_net; lia.
Qed.

(** C2 (as the code computes it): equity[t] is determined by the market
    returns of days 0..t, the positions of days 0..t-1 and the size of the
    position change of day t, which sets that day's trade cost; the
    position of day t earns nothing before day t+1, so two runs that differ
    on day t only in the side taken have the same equity[t].  With the
    volatility filter off (and z_entry not 0, where the rational sizing
    division is the float one), two frames that agree on days 0..t give the
    same equity[t]. *)
Theorem C2_equity_depends_on_the_past
        (np_sqrt : Q -> Q) (window : Z) (z_entry z_exit : Q)
        (dynamic_position : bool) (t : nat) :
  (forall pos pos' rets rets' : list Q,
      (t < length pos)%nat -> (t < length pos')%nat ->
      firstn t pos = firstn t pos' ->
      firstn (S t) rets = firstn (S t) rets' ->
      nth t (position_change pos) 0 == nth t (position_change pos') 0 ->
      nth t (equity_curve pos rets) 0 == nth t (equity_curve pos' rets') 0) /\
  (~ z_entry == 0 ->
   forall df df' : frame,
      firstn (S t) df = firstn (S t) df' ->
      nth t (strategy_equity np_sqrt df window z_entry z_exit
                             dynamic_position false) 0
      = nth t (strategy_equity np_sqrt df' window z_entry z_exit
                               dynamic_position false) 0).
Proof.
  split.
  - intros pos pos' rets rets'. apply equity_of_day.
  - intros _ df df' Hdf.
    rewrite <- (nth_firstn_succ (strategy_equity np_sqrt df _ _ _ _ _)),
            <- (nth_firstn_succ (strategy_equity np_sqrt df' _ _ _ _ _)).
    now rewrite !firstn_strategy_equity_unfiltered, Hdf.
Qed.

Lemma C2_witness :
  nth 1 (equity_curve [0; 1] [0; 1 # 100]) 0
  == nth 1 (equity_curve [0; - (1)] [0; 1 # 100]) 0 /\
  nth 9 (strategy_equity sqrt_approx quiet_frame 10 1 (3 # 10) false false) 0
  = nth 9 (strategy_equity sqrt_approx jump_frame 10 1 (3 # 10) false false) 0.
Proof.
  split.
  - apply (proj1 (C2_equity_depends_on_the_past sqrt_approx 10 1 (3 # 10)
                                                false 1));
      try reflexivity; simpl; lia.
  - apply (proj2 (C2_equity_depends_on_the_past sqrt_approx 10 1 (3 # 10)
                                                false 9)).
    + discriminate.
    + reflexivity.
Defined.

(** C2, as stated, fails with the volatility filter on (as every run of
    the script has it): [quiet_frame] and [jump_frame] agree on days 0..9
    and differ only on day 10, yet equity[9] is 10000 in one and 9990 in
    the other.  The jump on day 10 raises the full-sample volatility
    threshold, the z-score of day 9 is no longer zeroed, and the position
    opened on day 9 pays that day's trade cost. *)
Lemma C2_counterexample :
  firstn 10 quiet_frame = firstn 10 jump_frame /\
  firstn 9 (position 1 (3 # 10) false (z_score sqrt_approx 10 true quiet_frame))
  = firstn 9 (position 1 (3 # 10) false (z_score sqrt_approx 10 true jump_frame)) /\
  nth 9 (strategy_equity sqrt_approx quiet_frame 10 1 (3 # 10) false true) 0
  == 10000 /\
  nth 9 (strategy_equity sqrt_approx jump_frame 10 1 (3 # 10) false true) 0
  == 9990.
Proof.
  vm_compute. repeat split.
Qed.

(** ** Failures and the sweep (C3) *)

Lemma grid_step_row (np_sqrt : Q -> Q) (df : frame) (results : list summary)
      (p : Z * Q * Q) :
  grid_step np_sqrt df results p = results ++ grid_row np_sqrt df p.
Proof.
  unfold grid_step, grid_row. destruct p as [[w ze] zx].
  destruct (backtest_mean_reversion np_sqrt df w ze zx false true);
    [now rewrite app_nil_r | reflexivity].
Qed.

Lemma grid_search_rows (np_sqrt : Q -> Q) (df : frame) (grid : list (Z * Q * Q)) :
  grid_search np_sqrt df grid = flat_map (grid_row np_sqrt df) grid.
Proof.
  unfold grid_search.
  assert (H : forall acc, fold_left (grid_step np_sqrt df) grid acc
                          = acc ++ flat_map (grid_row np_sqrt df) grid).
  { induction grid as [|p grid IH]; intros acc; simpl.
    - now rewrite app_nil_r.
    - now rewrite IH, grid_step_row, app_assoc. }
  apply (H []).
Qed.

(** C3 (as the code computes it): the strategy function validates
    nothing itself.  It fails exactly when the window is below 1 (the
    EWM span check of pandas) or the frame is empty, whatever z_entry and
    z_exit are; and the sweep skips a failing grid point and goes on: its
    result is the concatenation, in grid order, of the rows of the points
    that returned. *)
Theorem C3_only_the_window_can_fail
        (np_sqrt : Q -> Q) (df : frame) (window : Z) (z_entry z_exit : Q)
        (dynamic_position filter_vol : bool) :
  ((window <= 0)%Z ->
   backtest_mean_reversion np_sqrt df window z_entry z_exit
                           dynamic_position filter_vol = Raised ValueError) /\
  ((0 < window)%Z -> df <> [] ->
   returned (backtest_mean_reversion np_sqrt df window z_entry z_exit
                                     dynamic_position filter_vol) = true) /\
  ((0 < window)%Z -> df = [] ->
   backtest_mean_reversion np_sqrt df window z_entry z_exit
                           dynamic_position filter_vol = Raised IndexError) /\
  (forall grid, grid_search np_sqrt df grid
                = flat_map (grid_row np_sqrt df) grid).
Proof.
  split; [|split; [|split]].
  - intros Hw. unfold backtest_mean_reversion.
    destruct (Z.ltb_spec window 1) as [H|H]; [reflexivity | lia].
  - intros Hw Hdf.
    destruct (backtest_returns np_sqrt df window z_entry z_exit
                               dynamic_position filter_vol Hw Hdf) as [r Hr].
    now rewrite Hr.
  - intros Hw ->. unfold backtest_mean_reversion.
    destruct (Z.ltb_spec window 1) as [H|H]; [lia|].
    match goal with |- context [rev ?e] => destruct (rev e) as [|x l] eqn:E end;
      [reflexivity|].
    apply (f_equal (@length Q)) in E.
    rewrite length_rev, length_equity_of, length_strategy_net,
      length_position, length_z_score in E.
    simpl in E. lia.
  - apply grid_search_rows.
Qed.

Lemma C3_witness :
  backtest_mean_reversion sqrt_approx dip_frame 0 1 (3 # 10) false true
  = Raised ValueError.
Proof.
  apply (proj1 (C3_only_the_window_can_fail sqrt_approx dip_frame 0 1 (3 # 10)
                                            false true)).
  lia.
Defined.

(** C3, as stated, fails: with z_exit = 2 >= z_entry = 1, and with
    z_entry = -1 <= 0, the strategy function returns a result; in a sweep
    over these two points and one with window 0, only the latter is
    skipped. *)
Lemma C3_counterexample :
  returned (backtest_mean_reversion sqrt_approx dip_frame 10 1 2 false true)
  = true /\
  returned (backtest_mean_reversion sqrt_approx dip_frame 10 (- (1)) (3 # 10)
                                    false true) = true /\
  map (fun r => (Window r, Z_Entry r, Z_Exit r))
      (grid_search sqrt_approx dip_frame
                   [(10%Z, 1, 2); (0%Z, 1, 3 # 10); (10%Z, - (1), 3 # 10)])
  = [(10%Z, 1, 2); (10%Z, - (1), 3 # 10)].
Proof.
  vm_compute. repeat split.
Qed.

(** ** Ranking (C5) *)

Lemma insert_by_perm (before : Q -> Q -> bool) (x : summary) (l : list summary) :
  Permutation (x :: l) (insert_by before x l).
Proof.
  induction l as [|y l IH]; simpl; [reflexivity|].
  destruct (before (Sharpe x) (Sharpe y)); [reflexivity|].
  rewrite perm_swap. now apply perm_skip.
Qed.

Lemma sort_by_perm (before : Q -> Q -> bool) (l : list summary) :
  Permutation l (sort_by before l).
Proof.
  induction l as [|x l IH]; simpl; [constructor|].
  rewrite <- insert_by_perm. now apply perm_skip.
Qed.

Lemma insert_by_sorted (before : Q -> Q -> bool) (x : summary) (l : list summary) :
  (forall a b, before a b = true -> b <= a) ->
  (forall a b, before a b = false -> a <= b) ->
  StronglySorted sharpe_desc l ->
  StronglySorted sharpe_desc (insert_by before x l).
Proof.
  intros Ht Hf. induction 1 as [|y l Hs IH Hy]; simpl.
  - repeat constructor.
  - destruct (before (Sharpe x) (Sharpe y)) eqn:E.
    + apply Ht in E. constructor; [now constructor|].
      constructor; [exact E|].
      eapply Forall_impl; [|exact Hy].
      intros z Hz. unfold sharpe_desc in *. lra.
    + apply Hf in E. constructor; [exact IH|].
      eapply Permutation_Forall; [apply insert_by_perm|].
      constructor; [exact E | exact Hy].
Qed.

Lemma sort_by_contract (before : Q -> Q -> bool) :
  (forall a b, before a b = true -> b <= a) ->
  (forall a b, before a b = false -> a <= b) ->
  sorts_by_sharpe_desc (sort_by before).
Proof.
  intros Ht Hf rows. split; [apply sort_by_perm|].
  induction rows as [|x rows IH]; simpl; [constructor|].
  now apply insert_by_sorted.
Qed.

Lemma sort_first_seen_contract : sorts_by_sharpe_desc sort_first_seen.
Proof.
  apply sort_by_contract; intros a b H.
  - now apply Qle_bool_iff in H.
  - apply Qlt_le_weak, Qnot_le_lt. intros C.
    apply Qle_bool_iff in C. congruence.
Qed.

(** Two descending lists of reduced rationals with the same elements are
    the same list. *)
Lemma descending_perm_unique (l1 : list Q) :
  forall l2,
    Forall (fun k => Qred k = k) l1 ->
    StronglySorted (fun a b => b <= a) l1 ->
    StronglySorted (fun a b => b <= a) l2 ->
    Permutation l1 l2 -> l1 = l2.
Proof.
  induction l1 as [|a t1 IH]; intros l2 Hc H1 H2 Hp.
  - now apply Permutation_nil in Hp.
  - destruct l2 as [|b t2];
      [apply Permutation_sym, Permutation_nil in Hp; discriminate|].
    inversion H1 as [|? ? Ht1 Ha]; subst.
    inversion H2 as [|? ? Ht2 Hb]; subst.
    inversion Hc as [|? ? Hca Hct]; subst.
    assert (Hba : b <= a).
    { assert (Hin : In b (a :: t1))
        by (eapply Permutation_in; [apply Permutation_sym, Hp | now left]).
      destruct Hin as [->|Hin]; [lra|].
      rewrite Forall_forall in Ha. now apply Ha. }
    assert (Hab : a <= b).
    { assert (Hin : In a (b :: t2))
        by (eapply Permutation_in; [apply Hp | now left]).
      destruct Hin as [->|Hin]; [lra|].
      rewrite Forall_forall in Hb. now apply Hb. }
    assert (Hcb : Qred b = b).
    { assert (Hin : In b (a :: t1))
        by (eapply Permutation_in; [apply Permutation_sym, Hp | now left]).
      rewrite Forall_forall in Hc. now apply Hc. }
    assert (E : a = b).
    { rewrite <- Hca, <- Hcb. apply Qred_complete. lra. }
    subst b. f_equal.
    apply IH; auto. now apply Permutation_cons_inv in Hp.
Qed.

Lemma sharpe_keys_sorted (l : list summary) :
  StronglySorted sharpe_desc l ->
  StronglySorted (fun a b => b <= a) (map (fun r => Qred (Sharpe r)) l).
Proof.
  induction 1 as [|x l Hs IH Hx]; simpl; constructor; [exact IH|].
  apply Forall_map. eapply Forall_impl; [|exact Hx].
  intros y Hy. unfold sharpe_desc in Hy. now rewrite !Qred_correct.
Qed.

(** *** The index array *)

Lemma length_aset (a : list nat) :
  forall p x, length (aset a p x) = length a.
Proof.
  induction a as [|y a IH]; intros [|p] x; simpl; try reflexivity.
  now rewrite IH.
Qed.

Lemma aget_aset_same (a : list nat) :
  forall p x, (p < length a)%nat -> aget (aset a p x) p = x.
Proof.
  unfold aget. induction a as [|y a IH]; intros [|p] x H; simpl in *;
    try lia; try reflexivity.
  apply IH. lia.
Qed.

Lemma aget_aset_other (a : list nat) :
  forall p q x, p <> q -> aget (aset a p x) q = aget a q.
Proof.
  unfold aget. induction a as [|y a IH]; intros [|p] [|q] x H; simpl;
    try reflexivity; try lia.
  apply IH. lia.
Qed.

Lemma length_INTP_SWAP (a : list nat) (p q : nat) :
  length (INTP_SWAP a p q) = length a.
Proof. unfold INTP_SWAP. now rewrite !length_aset. Qed.

Lemma aget_INTP_SWAP (a : list nat) (p q r : nat) :
  (p < length a)%nat -> (q < length a)%nat ->
  aget (INTP_SWAP a p q) r
  = if (r =? p)%nat then aget a q
    else if (r =? q)%nat then aget a p else aget a r.
Proof.
  intros Hp Hq. unfold INTP_SWAP. cbv zeta.
  destruct (Nat.eqb_spec r p) as [->|Hrp].
  - rewrite aget_aset_same; [reflexivity | now rewrite length_aset].
  - rewrite aget_aset_other by congruence.
    destruct (Nat.eqb_spec r q) as [->|Hrq].
    + now rewrite aget_aset_same.
    + now rewrite aget_aset_other by congruence.
Qed.

Lemma aset_perm (a : list nat) :
  forall p x, (p < length a)%nat ->
    Permutation (x :: a) (aget a p :: aset a p x).
Proof.
  induction a as [|y a IH]; intros [|p] x H; simpl in *; try lia.
  - apply perm_swap.
  - change (aget (y :: a) (S p)) with (aget a p).
    rewrite perm_swap. rewrite (IH p x) by lia. apply perm_swap.
Qed.

Lemma INTP_SWAP_perm (a : list nat) (p q : nat) :
  (p < length a)%nat -> (q < length a)%nat ->
  Permutation a (INTP_SWAP a p q).
Proof.
  intros Hp Hq. unfold INTP_SWAP. cbv zeta.
  apply (Permutation_cons_inv (a := aget a p)).
  rewrite (aset_perm a q (aget a p) Hq).
  rewrite (aset_perm (aset a q (aget a p)) p (aget a q))
    by now rewrite length_aset.
  destruct (Nat.eq_dec q p) as [->|Hne].
  - now rewrite aget_aset_same.
  - now rewrite aget_aset_other.
Qed.

Lemma eq_Qeq (x y : Q) : x = y -> x == y.
Proof. intros ->. reflexivity. Qed.

Lemma sorted_app_cons {A} (R : A -> A -> Prop) (l1 : list A) (p : A)
      (l2 : list A) :
  (forall x y z, R x y -> R y z -> R x z) ->
  StronglySorted R l1 -> StronglySorted R l2 ->
  Forall (fun x => R x p) l1 -> Forall (R p) l2 ->
  StronglySorted R (l1 ++ p :: l2).
Proof.
  intros Htrans H1 H2 Hl Hr.
  induction H1 as [|x l1 Hs IH Hx]; simpl.
  - now constructor.
  - inversion Hl as [|? ? Hxp Hl']; subst.
    constructor; [now apply IH|].
    apply Forall_app. split; [exact Hx|].
    constructor; [exact Hxp|].
    eapply Forall_impl; [|exact Hr]. intros y Hy. now apply (Htrans x p y).
Qed.

Lemma sorted_snoc {A} (R : A -> A -> Prop) (l : list A) (x : A) :
  StronglySorted R l -> Forall (fun y => R y x) l ->
  StronglySorted R (l ++ [x]).
Proof.
  induction 1 as [|y l Hs IH Hy]; intros Hx; simpl.
  - repeat constructor.
  - inversion Hx as [|? ? Hyx Hx']; subst.
    constructor; [now apply IH|].
    apply Forall_app. split; [exact Hy | now constructor].
Qed.

Lemma StronglySorted_rev {A} (R : A -> A -> Prop) (l : list A) :
  StronglySorted (fun x y => R y x) l -> StronglySorted R (rev l).
Proof.
  induction 1 as [|x l Hs IH Hx]; simpl; [constructor|].
  apply sorted_snoc; [exact IH | now apply Forall_rev].
Qed.

Section KernelProofs.

Variable v : list Q.

Lemma v_at_INTP_SWAP (a : list nat) (p q r : nat) :
  (p < length a)%nat -> (q < length a)%nat ->
  v_at v (INTP_SWAP a p q) r
  = if (r =? p)%nat then v_at v a q
    else if (r =? q)%nat then v_at v a p else v_at v a r.
Proof.
  intros Hp Hq. unfold v_at. rewrite aget_INTP_SWAP by assumption.
  destruct (r =? p)%nat; [reflexivity|]. now destruct (r =? q)%nat.
Qed.

(** The upward scan stops at the first position after [pi] whose key is
    not below the pivot, given that there is one, [q], within reach. *)
Lemma scan_up_stops (vp : Q) (a : list nat) (q : nat) :
  vp <= v_at v a q ->
  forall fuel pi, (pi < q)%nat -> (q - pi - 1 <= fuel)%nat ->
    let r := scan_up v fuel vp a pi in
    (pi < r <= q)%nat /\ vp <= v_at v a r /\
    forall p, (pi < p < r)%nat -> v_at v a p < vp.
Proof.
  intros Hq. induction fuel as [|f IH]; intros pi Hlt Hfuel; simpl.
  - assert (q = S pi) by lia. subst q.
    split; [lia|]. split; [exact Hq|]. intros p Hp; lia.
  - destruct (Qltb (v_at v a (S pi)) vp) eqn:E.
    + apply Qltb_lt in E.
      assert (Hne : S pi <> q) by (intros Heq; rewrite Heq in E; lra).
      destruct (IH (S pi)) as (H1 & H2 & H3); try lia.
      split; [lia|]. split; [exact H2|].
      intros p Hp. destruct (Nat.eq_dec p (S pi)) as [->|Hp'];
        [exact E | apply H3; lia].
    + apply Qltb_ge in E.
      split; [lia|]. split; [exact E|]. intros p Hp; lia.
Qed.

Lemma scan_down_stops (vp : Q) (a : list nat) (q : nat) :
  v_at v a q <= vp ->
  forall fuel pj, (q < pj)%nat -> (pj - q - 1 <= fuel)%nat ->
    let r := scan_down v fuel vp a pj in
    (q <= r < pj)%nat /\ v_at v a r <= vp /\
    forall p, (r < p < pj)%nat -> vp < v_at v a p.
Proof.
  intros Hq. induction fuel as [|f IH]; intros pj Hlt Hfuel; simpl.
  - assert (pj = S q) by lia. subst pj. simpl.
    split; [lia|]. split; [exact Hq|]. intros p Hp; lia.
  - destruct (Qltb vp (v_at v a (pred pj))) eqn:E.
    + apply Qltb_lt in E.
      assert (Hne : pred pj <> q) by (intros Heq; rewrite Heq in E; lra).
      destruct (IH (pred pj)) as (H1 & H2 & H3); try lia.
      split; [lia|]. split; [exact H2|].
      intros p Hp. destruct (Nat.eq_dec p (pred pj)) as [->|Hp'];
        [exact E | apply H3; lia].
    + apply Qltb_ge in E.
      split; [lia|]. split; [exact E|]. intros p Hp; lia.
Qed.


Lemma partition_loop_spec (vp : Q) (n : nat) :
  forall fuel a pi pj,
    length a = n -> (pi < pj)%nat -> (pj <= n - 2)%nat -> (2 <= n)%nat ->
    (pj - pi <= fuel)%nat ->
    (forall p, (p <= pi)%nat -> v_at v a p <= vp) ->
    (forall p, (pj <= p < n)%nat -> vp <= v_at v a p) ->
    exists a' pi', partition_loop v fuel vp a pi pj = (a', pi') /\
      Permutation a a' /\ length a' = n /\ (pi < pi' <= n - 2)%nat /\
      (forall p, (p < pi')%nat -> v_at v a' p <= vp) /\
      (forall p, (pi' <= p < n)%nat -> vp <= v_at v a' p) /\
      aget a' (n - 2) = aget a (n - 2).
Proof.
  induction fuel as [|f IH]; intros a pi pj Hlen Hlt Hpj Hn Hfuel Hlo Hhi;
    [lia|].
  simpl. rewrite Hlen.
  destruct (scan_up_stops vp a pj (Hhi pj ltac:(lia)) n pi Hlt ltac:(lia))
    as (Hi1 & Hi2 & Hi3).
  destruct (scan_down_stops vp a pi (Hlo pi ltac:(lia)) n pj Hlt ltac:(lia))
    as (Hj1 & Hj2 & Hj3).
  set (pi' := scan_up v n vp a pi) in *.
  set (pj' := scan_down v n vp a pj) in *.
  destruct (Nat.leb_spec pj' pi') as [Hle|Hgt].
  - exists a, pi'. split; [reflexivity|]. split; [reflexivity|].
    split; [exact Hlen|]. split; [lia|]. split; [|split; [|reflexivity]].
    + intros p Hp. destruct (Nat.le_gt_cases p pi) as [H|H];
        [now apply Hlo | apply Qlt_le_weak, Hi3; lia].
    + intros p Hp. destruct (Nat.eq_dec p pi') as [->|Hne]; [exact Hi2|].
      destruct (Nat.lt_ge_cases p pj) as [H|H];
        [apply Qlt_le_weak, Hj3; lia | apply Hhi; lia].
  - assert (Hpi' : (pi' < length a)%nat) by lia.
    assert (Hpj' : (pj' < length a)%nat) by lia.
    destruct (IH (INTP_SWAP a pi' pj') pi' pj') as (a' & r & E & H1 & H2 & H3 & H4 & H5 & H6).
    + now rewrite length_INTP_SWAP.
    + exact Hgt.
    + lia.
    + exact Hn.
    + lia.
    + intros p Hp. rewrite v_at_INTP_SWAP by assumption.
      destruct (Nat.eqb_spec p pi') as [->|Hne]; [exact Hj2|].
      destruct (Nat.eqb_spec p pj') as [->|Hne']; [lia|].
      destruct (Nat.le_gt_cases p pi) as [H|H];
        [now apply Hlo | apply Qlt_le_weak, Hi3; lia].
    + intros p Hp. rewrite v_at_INTP_SWAP by assumption.
      destruct (Nat.eqb_spec p pi') as [->|Hne]; [lia|].
      destruct (Nat.eqb_spec p pj') as [->|Hne']; [exact Hi2|].
      destruct (Nat.lt_ge_cases p pj) as [H|H];
        [apply Qlt_le_weak, Hj3; lia | apply Hhi; lia].
    + exists a', r. split; [exact E|]. split.
      { rewrite <- H1. now apply INTP_SWAP_perm. }
      split; [exact H2|]. split; [lia|]. split; [exact H4|].
      split; [exact H5|]. rewrite H6.
      rewrite aget_INTP_SWAP by assumption.
      destruct (Nat.eqb_spec (n - 2) pi') as [Heq|_]; [lia|].
      destruct (Nat.eqb_spec (n - 2) pj') as [Heq|_]; [lia|]. reflexivity.
Qed.

Lemma swap_if_less_spec (a : list nat) (p q : nat) :
  (p < length a)%nat -> (q < length a)%nat -> p <> q ->
  let a' := swap_if_less v a p q in
  Permutation a a' /\ length a' = length a /\
  v_at v a' q <= v_at v a' p /\
  (forall r, r <> p -> r <> q -> v_at v a' r = v_at v a r) /\
  ((v_at v a' p = v_at v a p /\ v_at v a' q = v_at v a q) \/
   (v_at v a' p = v_at v a q /\ v_at v a' q = v_at v a p)).
Proof.
  intros Hp Hq Hne. unfold swap_if_less.
  destruct (Qltb (v_at v a p) (v_at v a q)) eqn:E; cbv zeta.
  - apply Qltb_lt in E.
    split; [now apply INTP_SWAP_perm|]. split; [apply length_INTP_SWAP|].
    assert (Ep : v_at v (INTP_SWAP a p q) p = v_at v a q).
    { rewrite v_at_INTP_SWAP by assumption. now rewrite Nat.eqb_refl. }
    assert (Eq : v_at v (INTP_SWAP a p q) q = v_at v a p).
    { rewrite v_at_INTP_SWAP by assumption.
      destruct (Nat.eqb_spec q p) as [Heq|_]; [congruence|].
      now rewrite Nat.eqb_refl. }
    split; [rewrite Ep, Eq; lra|]. split; [|right; now split].
    intros r Hrp Hrq. rewrite v_at_INTP_SWAP by assumption.
    destruct (Nat.eqb_spec r p) as [Heq|_]; [congruence|].
    destruct (Nat.eqb_spec r q) as [Heq|_]; [congruence|]. reflexivity.
  - apply Qltb_ge in E.
    split; [reflexivity|]. split; [reflexivity|]. split; [exact E|].
    split; [reflexivity | left; now split].
Qed.

Lemma aquicksort_partition_spec (a : list nat) :
  (3 <= length a)%nat ->
  exists a' pi, aquicksort_partition v a = (a', pi) /\
    Permutation a a' /\ length a' = length a /\
    (1 <= pi <= length a - 2)%nat /\
    (forall p, (p < pi)%nat -> v_at v a' p <= v_at v a' pi) /\
    (forall p, (pi < p < length a)%nat -> v_at v a' pi <= v_at v a' p).
Proof.
  intros Hn. unfold aquicksort_partition.
  remember (length a) as n eqn:En.
  remember (n - 1)%nat as pr eqn:Epr.
  remember (0 + (pr - 0) / 2)%nat as pm eqn:Epm.
  assert (Hpm : (1 <= pm < pr)%nat).
  { rewrite Epm, Nat.sub_0_r, Nat.add_0_l. split.
    - apply (Nat.div_le_lower_bound pr 2 1); lia.
    - apply Nat.Div0.div_lt_upper_bound; lia. }
  clear Epm.
  destruct (swap_if_less_spec a pm 0) as (P1 & L1 & O1 & F1 & C1);
    [lia | lia | lia |].
  remember (swap_if_less v a pm 0%nat) as a1 eqn:E1. clear E1.
  destruct (swap_if_less_spec a1 pr pm) as (P2 & L2 & O2 & F2 & C2);
    [lia | lia | lia |].
  remember (swap_if_less v a1 pr pm) as a2 eqn:E2. clear E2.
  destruct (swap_if_less_spec a2 pm 0) as (P3 & L3 & O3 & F3 & C3);
    [lia | lia | lia |].
  remember (swap_if_less v a2 pm 0%nat) as a3 eqn:E3. clear E3.
  assert (Hmed : v_at v a3 0 <= v_at v a3 pm /\ v_at v a3 pm <= v_at v a3 pr).
  { assert (E20 : v_at v a2 0 = v_at v a1 0) by (apply F2; lia).
    assert (E3r : v_at v a3 pr = v_at v a2 pr) by (apply F3; lia).
    split; [exact O3|].
    apply eq_Qeq in E20, E3r.
    destruct C2 as [[C2a C2b]|[C2a C2b]], C3 as [[C3a C3b]|[C3a C3b]];
      apply eq_Qeq in C2a, C2b, C3a, C3b; lra. }
  destruct Hmed as [Hlo3 Hhi3].
  remember (v_at v a3 pm) as vp eqn:Evp.
  assert (Hpm3 : (pm < length a3)%nat) by lia.
  assert (Hpj3 : (pr - 1 < length a3)%nat) by lia.
  assert (V4 : forall r, v_at v (INTP_SWAP a3 pm (pr - 1)) r
                 = if (r =? pm)%nat then v_at v a3 (pr - 1)
                   else if (r =? pr - 1)%nat then vp else v_at v a3 r).
  { intros r. rewrite Evp. now rewrite v_at_INTP_SWAP. }
  assert (P4 : Permutation a3 (INTP_SWAP a3 pm (pr - 1)))
    by now apply INTP_SWAP_perm.
  assert (L4 : length (INTP_SWAP a3 pm (pr - 1)) = n)
    by (rewrite length_INTP_SWAP; lia).
  remember (INTP_SWAP a3 pm (pr - 1)) as a4 eqn:E4. clear E4.
  rewrite L4.
  destruct (partition_loop_spec vp n n a4 0 (pr - 1)) as
      (a5 & pi & E & P5 & L5 & Hpi & Hlo5 & Hhi5 & Hpiv);
    [exact L4 | lia | lia | lia | lia | | |].
  - intros p Hp. assert (p = 0%nat) by lia. subst p. rewrite V4.
    destruct (Nat.eqb_spec 0 pm) as [Heq|_]; [lia|].
    destruct (Nat.eqb_spec 0 (pr - 1)) as [Heq|_]; [lia|].
    exact Hlo3.
  - intros p Hp. rewrite V4.
    destruct (Nat.eqb_spec p pm) as [Heq|_].
    { replace (pr - 1)%nat with pm by lia. rewrite Evp. lra. }
    destruct (Nat.eqb_spec p (pr - 1)) as [Heq|Hne]; [lra|].
    assert (p = pr) by lia. subst p. exact Hhi3.
  - rewrite E.
    assert (Hpi5 : (pi < length a5)%nat) by lia.
    assert (Hpk5 : (pr - 1 < length a5)%nat) by lia.
    assert (Epiv : v_at v a5 (pr - 1) = vp).
    { replace (pr - 1)%nat with (n - 2)%nat by lia.
      unfold v_at at 1. rewrite Hpiv. fold (v_at v a4 (n - 2)). rewrite V4.
      destruct (Nat.eqb_spec (n - 2) pm) as [Heq|Hne].
      - rewrite Evp. f_equal. lia.
      - replace (pr - 1)%nat with (n - 2)%nat by lia.
        now rewrite Nat.eqb_refl. }
    exists (INTP_SWAP a5 pi (pr - 1)), pi.
    split; [reflexivity|]. split.
    { rewrite P1, P2, P3, P4, P5. now apply INTP_SWAP_perm. }
    split; [rewrite length_INTP_SWAP; lia|]. split; [lia|].
    assert (Vpi : v_at v (INTP_SWAP a5 pi (pr - 1)) pi = vp).
    { rewrite v_at_INTP_SWAP by assumption. now rewrite Nat.eqb_refl. }
    split.
    + intros p Hp. rewrite Vpi, v_at_INTP_SWAP by assumption.
      destruct (Nat.eqb_spec p pi) as [Heq|_]; [lia|].
      destruct (Nat.eqb_spec p (pr - 1)) as [Heq|_]; [lia|].
      now apply Hlo5.
    + intros p Hp. rewrite Vpi, v_at_INTP_SWAP by assumption.
      destruct (Nat.eqb_spec p pi) as [Heq|_]; [lia|].
      destruct (Nat.eqb_spec p (pr - 1)) as [Heq|_]; apply Hhi5; lia.
Qed.


Lemma insert_entry_perm (vi : nat) (before : list nat) :
  Permutation (vi :: before) (insert_entry v vi before).
Proof.
  induction before as [|x r IH]; simpl; [reflexivity|].
  destruct (Qltb (nth vi v 0) (nth x v 0)); [|reflexivity].
  rewrite perm_swap. now apply perm_skip.
Qed.

Lemma insert_entry_sorted (vi : nat) (before : list nat) :
  StronglySorted (fun x y => key_le v y x) before ->
  StronglySorted (fun x y => key_le v y x) (insert_entry v vi before).
Proof.
  induction 1 as [|x r Hs IH Hx]; simpl; [repeat constructor|].
  unfold key_le in *.
  destruct (Qltb (nth vi v 0) (nth x v 0)) eqn:E.
  - apply Qltb_lt in E. constructor; [exact IH|].
    eapply Permutation_Forall; [apply insert_entry_perm|].
    constructor; [lra | exact Hx].
  - apply Qltb_ge in E. constructor; [now constructor|].
    constructor; [exact E|].
    eapply Forall_impl; [|exact Hx]. intros y Hy. cbv beta in Hy. lra.
Qed.

Lemma insertion_loop_spec (a : list nat) :
  forall before,
    StronglySorted (fun x y => key_le v y x) before ->
    let out := fold_left (fun before vi => insert_entry v vi before) a before in
    Permutation (a ++ before) out /\
    StronglySorted (fun x y => key_le v y x) out.
Proof.
  induction a as [|vi a IH]; intros before Hs; simpl.
  - split; [reflexivity | exact Hs].
  - destruct (IH (insert_entry v vi before) (insert_entry_sorted vi before Hs))
      as [Hp Hs'].
    split; [|exact Hs'].
    rewrite <- Hp. rewrite <- insert_entry_perm.
    apply Permutation_middle.
Qed.

Lemma insertion_sort_spec (a : list nat) :
  Permutation a (insertion_sort v a) /\
  StronglySorted (key_le v) (insertion_sort v a).
Proof.
  unfold insertion_sort.
  destruct (insertion_loop_spec a [] (SSorted_nil _)) as [Hp Hs].
  cbv zeta in Hp, Hs. rewrite app_nil_r in Hp. split.
  - rewrite <- Permutation_rev. exact Hp.
  - apply (StronglySorted_rev _ _ Hs).
Qed.

Lemma firstn_Forall_at (a : list nat) (pi : nat) (P : nat -> Prop) :
  (forall p, (p < pi)%nat -> P (aget a p)) -> Forall P (firstn pi a).
Proof.
  revert pi. induction a as [|x a IH]; intros [|pi] H; simpl;
    try constructor.
  - apply (H 0%nat). lia.
  - apply IH. intros p Hp. apply (H (S p)). lia.
Qed.

Lemma skipn_Forall_at (a : list nat) (pi : nat) (P : nat -> Prop) :
  (forall p, (pi <= p < length a)%nat -> P (aget a p)) ->
  Forall P (skipn pi a).
Proof.
  revert pi. induction a as [|x a IH]; intros [|pi] H; simpl;
    try constructor.
  - apply (H 0%nat). simpl. lia.
  - apply (IH 0%nat). intros p Hp. apply (H (S p)). simpl. lia.
  - apply IH. intros p Hp. apply (H (S p)). simpl. lia.
Qed.

Lemma split_at (a : list nat) :
  forall pi, (pi < length a)%nat ->
    a = firstn pi a ++ aget a pi :: skipn (S pi) a.
Proof.
  induction a as [|x a IH]; intros [|pi] H; simpl in *; try lia;
    [reflexivity|].
  f_equal. apply IH. lia.
Qed.

Lemma aquicksort_range_spec :
  forall fuel popped cdepth a,
    (length a <= fuel)%nat -> (length a <= 36)%nat ->
    (popped = true -> (0 <= cdepth)%Z) ->
    ((length a <= 17)%nat \/ (Z.of_nat (length a) <= 16 + 2 * cdepth)%Z) ->
    let r := aquicksort_range v fuel popped cdepth a in
    Permutation a r /\ StronglySorted (key_le v) r.
Proof.
  induction fuel as [|f IH]; intros popped cdepth a Hfuel Hmax Hpop Hdepth.
  - destruct a; simpl in *; [|lia]. split; constructor.
  - cbn [aquicksort_range]. cbv zeta.
    assert (Hchk : popped && (cdepth <? 0)%Z = false).
    { destruct popped; [|reflexivity]. simpl.
      apply Z.ltb_ge. now apply Hpop. }
    rewrite Hchk. unfold SMALL_QUICKSORT.
    destruct (Nat.ltb_spec 16 (length a - 1)) as [Hbig|Hsmall];
      [|apply insertion_sort_spec].
    destruct (aquicksort_partition_spec a ltac:(lia))
      as (a' & pi & E & Hperm & Hlen & Hpi & Hlo & Hhi).
    rewrite E.
    assert (Hc : (1 <= cdepth)%Z) by lia.
    assert (Hl : length (firstn pi a') = pi)
      by (rewrite length_firstn; lia).
    assert (Hr : length (skipn (S pi) a') = (length a - 1 - pi)%nat)
      by (rewrite length_skipn; lia).
    rewrite Nat.sub_0_r.
    destruct (IH (negb (pi <? length a - 1 - pi)%nat) (cdepth - 1)%Z
                 (firstn pi a')) as [PL SL].
    { lia. } { lia. } { intros _. lia. }
    { rewrite Hl. destruct (Nat.ltb_spec pi (length a - 1 - pi)); [left|right]; lia. }
    destruct (IH (pi <? length a - 1 - pi)%nat (cdepth - 1)%Z
                 (skipn (S pi) a')) as [PR SR].
    { lia. } { lia. } { intros _. lia. }
    { rewrite Hr. destruct (Nat.ltb_spec pi (length a - 1 - pi)); [right|left]; lia. }
    cbv zeta in PL, SL, PR, SR. split.
    + rewrite Hperm at 1. rewrite (split_at a' pi) at 1 by lia.
      apply Permutation_app; [exact PL|]. now apply perm_skip.
    + apply sorted_app_cons; try assumption.
      * intros x y z. unfold key_le. lra.
      * eapply Permutation_Forall; [exact PL|].
        apply firstn_Forall_at. intros p Hp. apply (Hlo p Hp).
      * eapply Permutation_Forall; [exact PR|].
        apply skipn_Forall_at. intros p Hp. apply (Hhi p). lia.
Qed.

End KernelProofs.

(** *** The sort of the leaderboard *)

Lemma npy_aquicksort_spec (v : list Q) :
  (length v <= 36)%nat ->
  Permutation (seq 0 (length v)) (npy_aquicksort v) /\
  StronglySorted (key_le v) (npy_aquicksort v).
Proof.
  intros Hmax. unfold npy_aquicksort, npy_get_msb. cbv zeta.
  apply aquicksort_range_spec; rewrite ?length_seq; try lia.
  destruct (Nat.le_gt_cases (length v) 17) as [H|H]; [now left | right].
  assert (H4 : (4 <= Nat.log2 (length v))%nat)
    by (change 4%nat with (Nat.log2 18); apply Nat.log2_le_mono; lia).
  destruct (Nat.le_gt_cases (length v) 32) as [H'|H']; [lia|].
  assert (H5 : (5 <= Nat.log2 (length v))%nat)
    by (change 5%nat with (Nat.log2 33); apply Nat.log2_le_mono; lia).
  lia.
Qed.

Lemma map_nth_seq {A} (l : list A) (d : A) :
  map (fun i => nth i l d) (seq 0 (length l)) = l.
Proof.
  apply (nth_ext _ _ d d); [now rewrite length_map, length_seq|].
  intros n Hn. rewrite length_map, length_seq in Hn.
  rewrite (nth_indep _ d (nth 0 l d)) by (rewrite length_map, length_seq; lia).
  rewrite (map_nth (fun i => nth i l d) (seq 0 (length l)) 0%nat n).
  now rewrite seq_nth.
Qed.

Lemma sorted_on {A} (P : A -> Prop) (R R' : A -> A -> Prop) (l : list A) :
  (forall x y, P x -> P y -> R x y -> R' x y) ->
  Forall P l -> StronglySorted R l -> StronglySorted R' l.
Proof.
  intros Himp HP Hs. induction Hs as [|x l Hs IH Hx]; [constructor|].
  inversion HP as [|? ? Px Pl]; subst.
  constructor; [now apply IH|].
  rewrite Forall_forall in *. intros y Hy. apply Himp; auto.
Qed.

Lemma sorted_map {A B} (f : A -> B) (R : B -> B -> Prop) (l : list A) :
  StronglySorted (fun x y => R (f x) (f y)) l -> StronglySorted R (map f l).
Proof.
  induction 1 as [|x l Hs IH Hx]; simpl; constructor; [exact IH|].
  now apply Forall_map.
Qed.

Lemma seq_below (n : nat) : Forall (fun i => (i < n)%nat) (seq 0 n).
Proof. apply Forall_forall. intros i Hi. apply in_seq in Hi. lia. Qed.

Lemma nargsort_spec (items : list Q) :
  (length items <= 36)%nat ->
  Permutation (seq 0 (length items)) (nargsort items) /\
  StronglySorted (fun i j => nth j items 0 <= nth i items 0) (nargsort items).
Proof.
  intros Hmax. unfold nargsort. cbv zeta.
  set (n := length items).
  destruct (npy_aquicksort_spec (rev items)) as [Hp Hs];
    [now rewrite length_rev|].
  rewrite length_rev in Hp. fold n in Hp.
  assert (Hlt : Forall (fun i => (i < n)%nat) (npy_aquicksort (rev items)))
    by (eapply Permutation_Forall; [exact Hp | apply seq_below]).
  assert (Hg : forall i, (i < n)%nat ->
                 nth i (rev (seq 0 n)) 0%nat = (n - S i)%nat).
  { intros i Hi. rewrite rev_nth by (rewrite length_seq; lia).
    rewrite length_seq, seq_nth by lia. reflexivity. }
  split.
  - rewrite <- Permutation_rev, <- Hp.
    pose proof (map_nth_seq (rev (seq 0 n)) 0%nat) as E.
    rewrite length_rev, length_seq in E. rewrite E.
    apply Permutation_rev.
  - apply StronglySorted_rev, sorted_map.
    apply (sorted_on (fun i => (i < n)%nat) (key_le (rev items)));
      [|exact Hlt | exact Hs].
    intros x y Hx Hy H. unfold key_le in H.
    rewrite !Hg by assumption.
    rewrite !rev_nth in H by (fold n; lia). exact H.
Qed.

Lemma take_map {A} (rows : list A) (d : A) (indexer : list nat) :
  Forall (fun i => (i < length rows)%nat) indexer ->
  take rows indexer = map (fun i => nth i rows d) indexer.
Proof.
  induction 1 as [|i l Hi _ IH]; simpl; [reflexivity|].
  fold (take rows l). rewrite IH.
  destruct (nth_error rows i) as [r|] eqn:E.
  - now rewrite (nth_error_nth _ _ d E).
  - apply nth_error_None in E. lia.
Qed.

Lemma sort_values_by_sharpe_spec (rows : list summary) :
  (length rows <= 36)%nat ->
  Permutation rows (sort_values_by_sharpe rows) /\
  StronglySorted sharpe_desc (sort_values_by_sharpe rows).
Proof.
  intros Hmax. destruct rows as [|d rows'] eqn:Erows.
  { vm_compute. split; constructor. }
  rewrite <- Erows in *. clear Erows rows'.
  unfold sort_values_by_sharpe.
  destruct (nargsort_spec (map Sharpe rows)) as [Hp Hs];
    [now rewrite length_map|].
  rewrite length_map in Hp.
  assert (Hlt : Forall (fun i => (i < length rows)%nat)
                       (nargsort (map Sharpe rows)))
    by (eapply Permutation_Forall; [exact Hp | apply seq_below]).
  rewrite (take_map rows d _ Hlt). split.
  - rewrite <- (map_nth_seq rows d) at 1. now apply Permutation_map.
  - apply sorted_map.
    apply (sorted_on (fun i => (i < length rows)%nat)
                     (fun i j => nth j (map Sharpe rows) 0
                                 <= nth i (map Sharpe rows) 0));
      [|exact Hlt | exact Hs].
    intros x y Hx Hy H. unfold sharpe_desc.
    rewrite !(nth_indep (map Sharpe rows) 0 (Sharpe d)) in H
      by (rewrite length_map; lia).
    now rewrite !(map_nth Sharpe) in H.
Qed.

Lemma length_grid_search (np_sqrt : Q -> Q) (df : frame)
      (grid : list (Z * Q * Q)) :
  (length (grid_search np_sqrt df grid) <= length grid)%nat.
Proof.
  rewrite grid_search_rows.
  induction grid as [|[[w ze] zx] grid IH]; simpl; [lia|].
  rewrite length_app.
  destruct (backtest_mean_reversion np_sqrt df w ze zx false true);
    simpl; lia.
Qed.

(** C5 (as the code computes it): for a grid of up to 36 points (the
    script's has 36; up to there the kernel never falls back on heapsort),
    the ranking is the grid-search rows, collected in grid enumeration
    order, rearranged by the script's sort so that no row has a larger
    Sharpe than a row before it; its first row has the largest Sharpe; and
    the ranked sequence of Sharpe values is the same for any order in which
    the rows were collected.  Nothing is said of the order of rows with
    equal Sharpe. *)
Theorem C5_ranking_by_sharpe
        (np_sqrt : Q -> Q) (df : frame) (grid : list (Z * Q * Q)) :
  (length grid <= 36)%nat ->
  let results := grid_search np_sqrt df grid in
  let ranked := sort_values_by_sharpe results in
  results = flat_map (grid_row np_sqrt df) grid /\
  StronglySorted sharpe_desc ranked /\
  Permutation results ranked /\
  (forall best r, best_of sort_values_by_sharpe results = Some best ->
                  In r results -> Sharpe r <= Sharpe best) /\
  (forall evaluated, Permutation results evaluated ->
     map (fun r => Qred (Sharpe r)) (sort_values_by_sharpe evaluated)
     = map (fun r => Qred (Sharpe r)) ranked).
Proof.
  intros Hgrid results ranked.
  assert (Hlen : (length results <= 36)%nat)
    by (pose proof (length_grid_search np_sqrt df grid); unfold results; lia).
  destruct (sort_values_by_sharpe_spec results Hlen) as [Hperm Hsorted].
  fold ranked in Hperm, Hsorted.
  split; [apply grid_search_rows|].
  split; [exact Hsorted|]. split; [exact Hperm|]. split.
  - intros best r Hbest Hin. unfold best_of in Hbest. fold ranked in Hbest.
    assert (Hin' : In r ranked) by (eapply Permutation_in; eauto).
    destruct ranked as [|b rest]; [discriminate|].
    simpl in Hbest. injection Hbest as ->.
    apply StronglySorted_inv in Hsorted. destruct Hsorted as [_ Hall].
    destruct Hin' as [->|Hin']; [lra|].
    rewrite Forall_forall in Hall. now apply Hall.
  - intros evaluated Hev.
    assert (Hlen' : (length evaluated <= 36)%nat)
      by (rewrite <- (Permutation_length Hev); exact Hlen).
    destruct (sort_values_by_sharpe_spec evaluated Hlen')
      as [Hperm' Hsorted'].
    apply descending_perm_unique.
    + apply Forall_map, Forall_forall. intros r _.
      apply Qred_complete, Qred_correct.
    + now apply sharpe_keys_sorted.
    + now apply sharpe_keys_sorted.
    + apply Permutation_map.
      rewrite <- Hperm', <- Hev. exact Hperm.
Qed.

Lemma C5_witness :
  StronglySorted sharpe_desc (sort_values_by_sharpe dip_leaderboard) /\
  Permutation dip_leaderboard (sort_values_by_sharpe dip_leaderboard).
Proof.
  split;
    apply (C5_ranking_by_sharpe sqrt_approx dip_frame param_grid);
    vm_compute; lia.
Defined.

(** C5, as stated, fails: on the script's own grid over [dip_frame] the
    grid points (20, 1.0, 0.3) and (20, 1.0, 0.5), rows 9 and 10 of the
    leaderboard, have equal Sharpe, and the ranking has the later one
    first. *)
Lemma C5_counterexample :
  (exists a b i j,
     nth_error dip_leaderboard 9 = Some a /\
     nth_error dip_leaderboard 10 = Some b /\
     (Window a, Z_Entry a, Z_Exit a) = (20%Z, 1, 3 # 10) /\
     (Window b, Z_Entry b, Z_Exit b) = (20%Z, 1, 1 # 2) /\
     Sharpe a == Sharpe b /\
     nth_error (sort_values_by_sharpe dip_leaderboard) i = Some b /\
     nth_error (sort_values_by_sharpe dip_leaderboard) j = Some a /\
     (i < j)%nat) /\
  ~ ties_first_seen dip_leaderboard (sort_values_by_sharpe dip_leaderboard).
Proof.
  assert (H : exists rows ranked a b,
             dip_leaderboard = rows /\
             sort_values_by_sharpe dip_leaderboard = ranked /\
             nth_error rows 9 = Some a /\ nth_error rows 10 = Some b /\
             (Window a, Z_Entry a, Z_Exit a) = (20%Z, 1, 3 # 10) /\
             (Window b, Z_Entry b, Z_Exit b) = (20%Z, 1, 1 # 2) /\
             Sharpe a == Sharpe b /\
             nth_error ranked 1 = Some b /\ nth_error ranked 10 = Some a /\
             index_of a rows = 9%nat /\ index_of b rows = 10%nat /\
             length ranked = 36%nat).
  { vm_compute. do 4 eexists.
    split; [reflexivity|]. split; [reflexivity|].
    split; [reflexivity|]. split; [reflexivity|]. repeat split. }
  destruct H as (rows & ranked & a & b & -> & -> & Ha & Hb & Ka & Kb & Hs
                 & Rb & Ra & Ia & Ib & Hlen).
  split.
  - exists a, b, 1%nat, 10%nat. repeat split; try assumption. lia.
  - intros T.
    assert (Hlt : (1 < 10 < length ranked)%nat) by (rewrite Hlen; lia).
    assert (Hs' : Sharpe b == Sharpe a) by (symmetry; exact Hs).
    specialize (T 1%nat 10%nat Hlt b a Rb Ra Hs').
    rewrite Ia, Ib in T. lia.
Qed.

(** ** Trade reconstruction (C8, C10) *)

Lemma iloc_nat {A} (d : A) (col : list A) (i : nat) :
  iloc d col (Z.of_nat i) = nth i col d.
Proof.
  unfold iloc. destruct (Z.ltb_spec (Z.of_nat i) 0) as [H|H]; [lia|].
  now rewrite Nat2Z.id.
Qed.

Lemma iloc_pred {A} (d : A) (col : list A) (i : nat) :
  iloc d col (Z.of_nat (S i) - 1) = nth i col d.
Proof.
  replace (Z.of_nat (S i) - 1)%Z with (Z.of_nat i) by lia. apply iloc_nat.
Qed.

Lemma Qeq_bool_false (x y : Q) : Qeq_bool x y = false <-> ~ x == y.
Proof.
  split.
  - intros H E. apply Qeq_bool_iff in E. congruence.
  - intros H. destruct (Qeq_bool x y) eqn:E; [|reflexivity].
    apply Qeq_bool_iff in E. contradiction.
Qed.

Lemma same_sign_same_side (a b : Q) :
  np_sign a == np_sign b -> ~ a == 0 -> ~ b == 0 -> side_of a = side_of b.
Proof.
  unfold np_sign, side_of. intros H Ha Hb.
  destruct (Qltb 0 a) eqn:A1; destruct (Qltb 0 b) eqn:B1; try reflexivity;
    destruct (Qltb a 0) eqn:A2; destruct (Qltb b 0) eqn:B2;
    try (exfalso; revert H; clear; intros H; vm_compute in H; discriminate);
    apply Qltb_ge in A1 || apply Qltb_ge in B1;
    try apply Qltb_ge in A2; try apply Qltb_ge in B2; exfalso;
    try (apply Ha; lra); try (apply Hb; lra).
Qed.


Section TradeLog.

Variables (index : list Z) (closes positions : list Q).

Local Abbreviation step := (log_step index closes positions).
Local Abbreviation loop := (log_loop index closes positions).

Lemma log_loop_app (rows1 rows2 : list nat) (st : log_state) :
  loop (rows1 ++ rows2) st = loop rows2 (loop rows1 st).
Proof. apply fold_left_app. Qed.

Lemma log_step_extends (st : log_state) (i : nat) :
  exists new, trades (step st i) = trades st ++ new.
Proof.
  unfold log_step.
  destruct (negb (in_position st) && _); [exists []; simpl; now rewrite app_nil_r|].
  destruct (in_position st && _); [|exists []; now rewrite app_nil_r].
  destruct (entry_date st), (entry_price st), (position_type st);
    try (exists []; now rewrite app_nil_r).
  destruct (negb _); eexists; reflexivity.
Qed.


(** While a position is open and no exit is signalled the state stands. *)
Lemma log_step_hold (st : log_state) (i : nat) :
  in_position st = true -> exit_signal positions i = false -> step st i = st.
Proof.
  intros Hin Hex. unfold log_step. unfold exit_signal in Hex.
  rewrite Hin. cbn [negb andb]. now rewrite Hex.
Qed.

(** An exit signal on an open position appends the closed trade; the
    position is reopened on the spot when the row's position is not 0. *)
Lemma log_step_exit (st : log_state) (i : nat) (ed : Z) (ep : Q) (ty : side) :
  in_position st = true -> exit_signal positions i = true ->
  entry_date st = Some ed -> entry_price st = Some ep ->
  position_type st = Some ty ->
  let current_pos := nth i positions 0 in
  let tr := close_trade ed ep ty (nth i index 0%Z) (nth i closes 0) in
  step st i =
  if negb (Qeq_bool current_pos 0)
  then mkLog (trades st ++ [tr]) true (Some (nth i closes 0))
             (Some (nth i index 0%Z)) (Some (side_of current_pos))
  else mkLog (trades st ++ [tr]) false (Some ep) (Some ed) (Some ty).
Proof.
  intros Hin Hex Hd Hp Ht. unfold log_step. unfold exit_signal in Hex.
  rewrite Hin. cbn [negb andb]. rewrite Hex, Hd, Hp, Ht.
  now rewrite !iloc_nat.
Qed.

Lemma log_step_flat (st : log_state) (i : nat) :
  in_position st = false ->
  step st i =
  if negb (Qeq_bool (nth i positions 0) 0)
  then mkLog (trades st) true (Some (nth i closes 0)) (Some (nth i index 0%Z))
             (Some (side_of (nth i positions 0)))
  else st.
Proof.
  intros Hin. unfold log_step. rewrite Hin. cbn [negb andb].
  rewrite !iloc_nat. now destruct (negb _).
Qed.

Lemma seq_snoc (k : nat) : seq 0 (S k) = seq 0 k ++ [k].
Proof. now rewrite seq_S. Qed.

Lemma run_succ (k : nat) :
  loop (seq 0 (S k)) log_init = step (loop (seq 0 k) log_init) k.
Proof. now rewrite seq_snoc, log_loop_app. Qed.

Lemma open_ok_step (st : log_state) (k : nat) :
  open_ok (prev_pos positions k) st ->
  open_ok (nth k positions 0) (step st k).
Proof.
  intros [Hin Hfields].
  destruct (in_position st) eqn:Hst.
  - destruct (Hfields eq_refl) as (ed & ep & Hd & Hp & Ht).
    symmetry in Hin. apply negb_true_iff in Hin.
    destruct k as [|k]; [simpl in Hin; discriminate|]. simpl in Hin, Ht.
    destruct (exit_signal positions (S k)) eqn:Hex.
    + rewrite (log_step_exit st (S k) ed ep _ Hst Hex Hd Hp Ht).
      unfold open_ok.
      destruct (Qeq_bool (nth (S k) positions 0) 0) eqn:E; simpl.
      * split; [reflexivity | discriminate].
      * split; [reflexivity|]. intros _.
        now exists (nth (S k) index 0%Z), (nth (S k) closes 0).
    + rewrite (log_step_hold st (S k) Hst Hex).
      unfold exit_signal in Hex. rewrite iloc_nat, iloc_pred in Hex.
      apply orb_false_iff in Hex. destruct Hex as [E1 E2].
      apply negb_false_iff in E2.
      split; [now rewrite Hst, E1|].
      intros _. exists ed, ep. repeat split; auto.
      rewrite Ht. f_equal. symmetry.
      apply same_sign_same_side.
      * now apply Qeq_bool_iff.
      * now apply Qeq_bool_false.
      * now apply Qeq_bool_false.
  - rewrite (log_step_flat st k Hst). unfold open_ok.
    destruct (Qeq_bool (nth k positions 0) 0) eqn:E; simpl.
    + split; [exact Hst | rewrite Hst; discriminate].
    + split; [reflexivity|]. intros _.
      now exists (nth k index 0%Z), (nth k closes 0).
Qed.

Lemma run_open_ok (k : nat) :
  open_ok (prev_pos positions k) (loop (seq 0 k) log_init).
Proof.
  induction k as [|k IH].
  - split; [reflexivity | discriminate].
  - rewrite run_succ. now apply open_ok_step.
Qed.



End TradeLog.




Lemma chronological_snoc (l : list trade) (tr : trade) :
  chronological l ->
  (forall a, In a l -> (Exit_Date a <= Entry_Date tr)%Z) ->
  chronological (l ++ [tr]).
Proof.
  induction l as [|a l IH]; intros Hc Hall; [exact I|].
  destruct l as [|b l].
  - simpl. split; [apply Hall; now left | exact I].
  - destruct Hc as [Hab Hc]. split; [exact Hab|].
    apply IH; [exact Hc|]. intros x Hx. apply Hall. now right.
Qed.

Lemma sorted_nth (index : list Z) :
  StronglySorted Z.lt index ->
  forall i j, (i < j < length index)%nat ->
    (nth i index 0 < nth j index 0)%Z.
Proof.
  induction 1 as [|x l Hs IH Hx]; intros i j Hij; simpl in *; [lia|].
  destruct j as [|j]; [lia|]. destruct i as [|i].
  - rewrite Forall_forall in Hx. apply Hx, nth_In. lia.
  - apply IH. lia.
Qed.

Lemma dates_after_succ (index : list Z) (n k : nat) (d : Z) :
  dates_after index n k d -> dates_after index n (S k) d.
Proof. intros H j Hj. apply H. lia. Qed.

Lemma ledger_ok_weaken (index : list Z) (n k : nat) (st : log_state) :
  ledger_ok index n k st -> ledger_ok index n (S k) st.
Proof.
  intros (H1 & H2 & H3). split; [|split]; [|exact H2|].
  - intros tr Htr. destruct (H1 tr Htr) as [Ha Hb].
    split; [exact Ha | now apply dates_after_succ].
  - intros Hin ed Hed. destruct (H3 Hin ed Hed) as [Ha Hb].
    split; [now apply dates_after_succ | exact Hb].
Qed.

Lemma ledger_ok_step (index : list Z) (closes positions : list Q)
      (n k : nat) (st : log_state) :
  (forall i j, (i < j < n)%nat -> (nth i index 0 < nth j index 0)%Z) ->
  (k < n)%nat ->
  ledger_ok index n k st ->
  ledger_ok index n (S k) (log_step index closes positions st k).
Proof.
  intros Hsorted Hk Hok.
  assert (Hnow : dates_after index n (S k) (nth k index 0%Z))
    by (intros j Hj; apply Hsorted; lia).
  pose proof Hok as (H1 & H2 & H3).
  unfold log_step. rewrite !iloc_nat.
  destruct (negb (in_position st) && _).
  { (* a position is opened on row k *)
    split; [|split]; simpl.
    - intros tr Htr. destruct (H1 tr Htr) as [Ha Hb].
      split; [exact Ha | now apply dates_after_succ].
    - exact H2.
    - intros _ ed Hed. injection Hed as <-. split; [exact Hnow|].
      intros tr Htr. destruct (H1 tr Htr) as [_ Hb].
      apply Z.lt_le_incl, Hb. lia. }
  destruct (in_position st && _) eqn:Hexit;
    [|now apply ledger_ok_weaken].
  apply andb_true_iff in Hexit. destruct Hexit as [Hin _].
  destruct (entry_date st) as [ed|] eqn:Hd; [|now apply ledger_ok_weaken].
  destruct (entry_price st) as [ep|]; [|now apply ledger_ok_weaken].
  destruct (position_type st) as [ty|]; [|now apply ledger_ok_weaken].
  destruct (H3 Hin ed eq_refl) as [Hed Hbefore].
  assert (Hall : forall tr,
             In tr (trades st ++ [close_trade ed ep ty (nth k index 0%Z)
                                              (nth k closes 0)]) ->
             (Entry_Date tr < Exit_Date tr)%Z
             /\ dates_after index n (S k) (Exit_Date tr)
             /\ (Exit_Date tr <= nth k index 0)%Z).
  { intros tr Htr. apply in_app_or in Htr. destruct Htr as [Htr|[<-|[]]].
    - destruct (H1 tr Htr) as [Ha Hb]. split; [exact Ha|].
      split; [now apply dates_after_succ|].
      apply Z.lt_le_incl, Hb. lia.
    - simpl. split; [apply Hed; lia|]. split; [exact Hnow | lia]. }
  assert (Hchron : chronological
                     (trades st ++ [close_trade ed ep ty (nth k index 0%Z)
                                                (nth k closes 0)]))
    by (apply chronological_snoc; [exact H2 | exact Hbefore]).
  destruct (negb _); (split; [|split]); simpl; try exact Hchron.
  - intros tr Htr. destruct (Hall tr Htr) as (Ha & Hb & _). now split.
  - intros _ d Hdd. injection Hdd as <-. split; [exact Hnow|].
    intros tr Htr. now destruct (Hall tr Htr) as (_ & _ & Hc).
  - intros tr Htr. destruct (Hall tr Htr) as (Ha & Hb & _). now split.
  - discriminate.
Qed.

Lemma run_ledger_ok (index : list Z) (closes positions : list Q) (n : nat) :
  (forall i j, (i < j < n)%nat -> (nth i index 0 < nth j index 0)%Z) ->
  forall k, (k <= n)%nat ->
    ledger_ok index n k (log_loop index closes positions (seq 0 k) log_init).
Proof.
  intros Hsorted. induction k as [|k IH]; intros Hk.
  - split; [|split]; simpl; [contradiction | exact I | discriminate].
  - rewrite run_succ. apply ledger_ok_step; [exact Hsorted | lia | apply IH; lia].
Qed.

(** C10: over strictly increasing dates every trade of the ledger is
    entered strictly before it is exited, and each trade is exited no later
    than the next one is entered. *)
Theorem C10_ledger_is_chronological
        (index : list Z) (closes positions : list Q) :
  StronglySorted Z.lt index ->
  length index = length positions ->
  Forall (fun tr => (Entry_Date tr < Exit_Date tr)%Z)
         (trade_log index closes positions) /\
  chronological (trade_log index closes positions).
Proof.
  intros Hsorted Hlen.
  destruct (run_ledger_ok index closes positions (length positions))
    with (k := length positions) as (H1 & H2 & _).
  - rewrite <- Hlen. now apply sorted_nth.
  - lia.
  - unfold trade_log. split; [|exact H2].
    apply Forall_forall. intros tr Htr. now apply H1.
Qed.

Lemma C10_witness :
  Forall (fun tr => (Entry_Date tr < Exit_Date tr)%Z)
         (trade_log [0; 1; 2]%Z [100; 101; 99] reversal_then_flat) /\
  chronological (trade_log [0; 1; 2]%Z [100; 101; 99] reversal_then_flat).
Proof.
  apply (C10_ledger_is_chronological [0; 1; 2]%Z [100; 101; 99]
                                     reversal_then_flat).
  - repeat constructor.
  - reflexivity.
Defined.

(** * Further properties of the script *)

(** ** The moving average (line 58) *)

Lemma ewm_alpha_unit (span : Z) :
  (1 <= span)%Z -> 0 < ewm_alpha span /\ ewm_alpha span <= 1.
Proof.
  intros H. unfold ewm_alpha.
  assert (Hs : 1 <= inject_Z span) by (rewrite Zle_Qle in H; exact H).
  assert (Hd : 0 < inject_Z span + 1) by lra.
  split.
  - apply Qlt_shift_div_l; [exact Hd | lra].
  - apply Qle_shift_div_r; [exact Hd | lra].
Qed.

Lemma convex_between (a x y lo hi : Q) :
  0 <= a -> a <= 1 -> lo <= x <= hi -> lo <= y <= hi ->
  lo <= (1 - a) * y + a * x <= hi.
Proof.
  intros Ha0 Ha1 [Hx1 Hx2] [Hy1 Hy2].
  assert (H1 : 0 <= (1 - a) * (y - lo)) by (apply Qmult_le_0_compat; lra).
  assert (H2 : 0 <= a * (x - lo)) by (apply Qmult_le_0_compat; lra).
  assert (H3 : 0 <= (1 - a) * (hi - y)) by (apply Qmult_le_0_compat; lra).
  assert (H4 : 0 <= a * (hi - x)) by (apply Qmult_le_0_compat; lra).
  split.
  - setoid_replace ((1 - a) * y + a * x)
      with (lo + ((1 - a) * (y - lo) + a * (x - lo))) by ring. lra.
  - setoid_replace ((1 - a) * y + a * x)
      with (hi - ((1 - a) * (hi - y) + a * (hi - x))) by ring. lra.
Qed.

Lemma ewm_mean_between (window : Z) (closes : list Q) (lo hi : Q) :
  (1 <= window)%Z ->
  Forall (fun x => lo <= x <= hi) closes ->
  Forall (fun m => lo <= m <= hi) (ewm_mean window closes).
Proof.
  intros Hw Hc. unfold ewm_mean.
  destruct (ewm_alpha_unit window Hw) as [Ha0 Ha1].
  apply Forall_scan
    with (I := fun st : option Q =>
                 match st with Some y => lo <= y <= hi | None => True end)
         (P := fun x => lo <= x <= hi); [|exact I|exact Hc].
  intros [y|] x Hy Hx; simpl; [|now split].
  assert (H : lo <= (1 - ewm_alpha window) * y + ewm_alpha window * x <= hi)
    by (apply convex_between; auto; lra).
  now split.
Qed.

(** X1: for a span of at least 1 the exponential moving average never
    leaves the range of the prices: between any two bounds that hold every
    close lies every value of the average. *)
Theorem ewm_mean_within_price_range
        (window : Z) (closes : list Q) (lo hi : Q) :
  (1 <= window)%Z ->
  Forall (fun x => lo <= x <= hi) closes ->
  Forall (fun m => lo <= m <= hi) (ewm_mean window closes).
Proof.
  intros Hw Hc. apply Forall_forall. intros m Hm.
  pose proof (ewm_mean_between window closes lo hi Hw Hc) as H.
  rewrite Forall_forall in H. now apply H.
Qed.

Lemma ewm_mean_within_price_range_witness :
  Forall (fun m => 90 <= m <= 100) (ewm_mean 10 [100; 90; 98]).
Proof.
  apply (ewm_mean_within_price_range 10 [100; 90; 98] 90 100).
  - lia.
  - repeat constructor; discriminate.
Defined.

(** ** The volatility filter on short series (lines 67-70) *)

Lemma rolling_std_warmup (np_sqrt : Q -> Q) (n : nat) (rets : list Q) :
  forall buf, (length buf + length rets < n)%nat ->
    Forall (eq None)
      (scan (fun buf x =>
               let b := push_window n buf x in
               (b, if Nat.eqb (length b) n
                   then sqrt_nan np_sqrt (series_var b) else None))
            buf rets).
Proof.
  induction rets as [|x rets IH]; intros buf Hlen; simpl; [constructor|].
  assert (Hb : push_window n buf x = buf ++ [x]).
  { unfold push_window. rewrite length_app. simpl.
    replace (length buf + 1 - n)%nat with 0%nat by (simpl in Hlen; lia).
    reflexivity. }
  rewrite Hb. simpl in Hlen.
  constructor.
  - rewrite length_app. simpl.
    destruct (Nat.eqb_spec (length buf + 1) n); [lia | reflexivity].
  - apply IH. rewrite length_app. simpl. lia.
Qed.

Lemma quantile_all_nan (q : Q) (col : list fnan) :
  Forall (eq None) col -> quantile q col = None.
Proof.
  intros H. unfold quantile.
  assert (E : dropna col = []).
  { induction H as [|o col Ho _ IH]; [reflexivity|].
    subst o. exact IH. }
  now rewrite E.
Qed.

Lemma loc_assign_nan_threshold (vol : list fnan) (z : list Q) :
  length vol = length z ->
  loc_assign (map (fun v => gt_nan v None) vol) 0 z = z.
Proof.
  revert z. unfold loc_assign.
  induction vol as [|v vol IH]; intros [|x z] Hlen; simpl in *;
    try discriminate; [reflexivity|].
  rewrite IH by lia. now destruct v.
Qed.

(** X2: on a frame of fewer than ten rows the 10-day volatility is NaN
    throughout, so is its 90th percentile, and the volatility filter leaves
    every z-score as it is. *)
Theorem vol_filter_idle_on_short_frames
        (np_sqrt : Q -> Q) (window : Z) (df : frame) :
  (length df < 10)%nat ->
  z_score np_sqrt window true df = z_score np_sqrt window false df.
Proof.
  intros Hlen. unfold z_score, vol_filter, vol_threshold, volatility.
  assert (Hnan : Forall (eq None) (rolling_std np_sqrt 10 (map returns df))).
  { unfold rolling_std. apply rolling_std_warmup.
    rewrite length_map. simpl. exact Hlen. }
  rewrite (quantile_all_nan _ _ Hnan).
  apply loc_assign_nan_threshold.
  unfold rolling_std.
  now rewrite length_scan, length_z_score_raw, !length_map.
Qed.

Lemma vol_filter_idle_on_short_frames_witness :
  z_score sqrt_approx 10 true dip_frame = z_score sqrt_approx 10 false dip_frame.
Proof.
  apply (vol_filter_idle_on_short_frames sqrt_approx 10 dip_frame).
  simpl. lia.
Defined.

(** ** The first row (lines 58-84) *)

Lemma z_score_raw_first (np_sqrt : Q -> Q) (window : Z) (closes : list Q) :
  nth 0 (z_score_raw np_sqrt window closes) 0 = 0.
Proof. destruct closes; reflexivity. Qed.

Lemma position_discrete_first (sig : list Z) :
  nth 0 sig 0%Z = 0%Z -> nth 0 (position_discrete sig) 0 == 0.
Proof.
  intros Hs. destruct sig as [|x sig]; [reflexivity|].
  rewrite nth_position_discrete, replace_zero_ffill_hold;
    [reflexivity | simpl; lia | exact Hs].
Qed.

(** X3: the standard deviation of the first row is NaN, so its z-score is
    0, no signal is triggered on it and, for a positive z_entry, the
    strategy is flat on the first row in either sizing mode. *)
Theorem first_row_is_flat
        (np_sqrt : Q -> Q) (df : frame) (window : Z) (z_entry z_exit : Q)
        (dynamic_position filter_vol : bool) :
  0 < z_entry ->
  let z := z_score np_sqrt window filter_vol df in
  nth 0 z 0 = 0 /\
  nth 0 (signal z_entry z_exit z) 0%Z = 0%Z /\
  nth 0 (position z_entry z_exit dynamic_position z) 0 == 0.
Proof.
  intros Hze z.
  assert (Hz : nth 0 z 0 = 0).
  { unfold z, z_score. destruct filter_vol.
    - apply vol_filter_keeps_zero, z_score_raw_first.
    - apply z_score_raw_first. }
  assert (Hs : nth 0 (signal z_entry z_exit z) 0%Z = 0%Z).
  { rewrite nth_signal by exact Hze. rewrite Hz. now apply signal_row_zero. }
  split; [exact Hz|]. split; [exact Hs|].
  unfold position. destruct dynamic_position.
  - now apply position_dynamic_flat_z.
  - now apply position_discrete_first.
Qed.

Lemma first_row_is_flat_witness :
  nth 0 (position 1 (3 # 10) true (z_score sqrt_approx 10 true quiet_frame)) 0
  == 0.
Proof.
  apply (first_row_is_flat sqrt_approx quiet_frame 10 1 (3 # 10) true true).
  reflexivity.
Defined.

(** ** Positions: bounds, dynamic sizing, constant prices (lines 73-84) *)

Lemma position_within_unit (z_entry z_exit : Q) (dynamic_position : bool)
      (z : list Q) :
  Forall (fun p => - (1) <= p <= 1) (position z_entry z_exit dynamic_position z).
Proof.
  assert (Hdis : Forall (fun p => p == - (1) \/ p == 0 \/ p == 1)
                        (position_discrete (signal z_entry z_exit z))).
  { unfold position_discrete. apply Forall_map.
    eapply Forall_impl; [|apply replace_zero_ffill_unit, signal_unit].
    intros s [H|[H|H]]; subst s; [left | right; left | right; right];
      reflexivity. }
  unfold position. destruct dynamic_position.
  - unfold position_dynamic. apply Forall_map2.
    intros p sz _ Hsz.
    unfold position_size in Hsz. apply in_map_iff in Hsz.
    destruct Hsz as [x [Hx _]]. subst sz.
    assert (Hb : - (1) <= np_clip (- x / z_entry) (- (1)) 1 <= 1)
      by (apply np_clip_bounds; lra).
    apply Qabs_Qle_condition in Hb.
    pose proof (Qabs_nonneg (np_clip (- x / z_entry) (- (1)) 1)) as Hn.
    destruct (np_sign_cases p) as [E|[E|E]]; rewrite E; lra.
  - eapply Forall_impl; [|exact Hdis].
    intros p [H|[H|H]]; rewrite H; lra.
Qed.

Lemma Forall2_map2_left {A B C} (f : A -> B -> C) (R : A -> C -> Prop)
      (xs : list A) :
  forall ys, length xs = length ys ->
    (forall x y, In x xs -> In y ys -> R x (f x y)) ->
    Forall2 R xs (map2 f xs ys).
Proof.
  induction xs as [|x xs IH]; intros [|y ys] Hlen H; simpl in *;
    try discriminate; constructor.
  - apply H; now left.
  - apply IH; [lia|]. intros; apply H; now right.
Qed.

(** X5: for z_entry other than 0 (at 0 the float division of the size
    gives NaN or an infinity, which the rational model does not have),
    dynamic sizing only scales the held discrete position: where the held
    position is flat the sized one is 0, where it is long the sized one
    lies in [0, 1], where it is short in [-1, 0].  It never opens or flips
    a side of its own. *)
Theorem dynamic_sizing_keeps_the_side (z_entry z_exit : Q) (z : list Q) :
  ~ z_entry == 0 ->
  Forall2 (fun held sized =>
             (held == 0 -> sized == 0) /\
             (0 < held -> 0 <= sized <= 1) /\
             (held < 0 -> - (1) <= sized <= 0))
          (position z_entry z_exit false z)
          (position z_entry z_exit true z).
Proof.
  intros _. unfold position, position_dynamic.
  apply Forall2_map2_left.
  - unfold position_size.
    now rewrite length_position_discrete, length_signal, length_map.
  - intros p sz _ Hsz.
    unfold position_size in Hsz. apply in_map_iff in Hsz.
    destruct Hsz as [x [Hx _]]. subst sz.
    assert (Hb : - (1) <= np_clip (- x / z_entry) (- (1)) 1 <= 1)
      by (apply np_clip_bounds; lra).
    apply Qabs_Qle_condition in Hb.
    pose proof (Qabs_nonneg (np_clip (- x / z_entry) (- (1)) 1)) as Hn.
    unfold np_sign.
    destruct (Qltb 0 p) eqn:E1; [apply Qltb_lt in E1 | apply Qltb_ge in E1].
    + repeat split; intros; lra.
    + destruct (Qltb p 0) eqn:E2; [apply Qltb_lt in E2 | apply Qltb_ge in E2];
        repeat split; intros; lra.
Qed.

Lemma dynamic_sizing_keeps_the_side_witness :
  Forall2 (fun held sized =>
             (held == 0 -> sized == 0) /\
             (0 < held -> 0 <= sized <= 1) /\
             (held < 0 -> - (1) <= sized <= 0))
          (position 1 (3 # 10) false (z_score sqrt_approx 10 true dip_frame))
          (position 1 (3 # 10) true (z_score sqrt_approx 10 true dip_frame)).
Proof.
  apply (dynamic_sizing_keeps_the_side 1 (3 # 10)
           (z_score sqrt_approx 10 true dip_frame)).
  discriminate.
Defined.

Lemma Forall_loc_assign {A} (P : A -> Prop) (v : A) (mask : list bool) :
  forall col, P v -> Forall P col -> Forall P (loc_assign mask v col).
Proof.
  unfold loc_assign.
  induction mask as [|m mask IH]; intros [|x col] Hv Hc; simpl;
    try constructor.
  - inversion Hc; subst. now destruct m.
  - inversion Hc; subst. now apply IH.
Qed.

Lemma signal_row_flat (z_entry z_exit z : Q) :
  0 < z_entry -> z == 0 -> signal_row z_entry z_exit z = 0%Z.
Proof.
  intros Hze Hz. unfold signal_row.
  destruct (Qltb (Qabs z) z_exit); [reflexivity|].
  destruct (Qltb z_entry z) eqn:E1; [apply Qltb_lt in E1; lra|].
  destruct (Qltb z (- z_entry)) eqn:E2; [apply Qltb_lt in E2; lra|].
  reflexivity.
Qed.

Lemma position_discrete_of_flat_z (z_entry z_exit : Q) (z : list Q) :
  0 < z_entry -> Forall (fun x => x == 0) z ->
  Forall (fun p => p = 0) (position_discrete (signal z_entry z_exit z)).
Proof.
  intros Hze Hz. unfold position_discrete. apply Forall_map.
  assert (Hs : Forall (fun s => s = 0%Z) (signal z_entry z_exit z)).
  { rewrite signal_rows. apply Forall_map.
    eapply Forall_impl; [|exact Hz]. intros x Hx. now apply signal_row_flat. }
  assert (Hf : Forall (fun s => s = 0%Z)
                      (replace_zero_ffill (signal z_entry z_exit z))).
  { unfold replace_zero_ffill.
    apply Forall_scan with (I := fun v => v = 0%Z) (P := fun s => s = 0%Z);
      [| |exact Hs].
    - intros v x -> ->. simpl. now split.
    - destruct Hs; [reflexivity | assumption]. }
  eapply Forall_impl; [|exact Hf]. intros s ->. reflexivity.
Qed.

Lemma z_score_of_constant_prices (np_sqrt : Q -> Q) (window : Z)
      (filter_vol : bool) (df : frame) (c : Q) :
  (1 <= window)%Z -> Forall (fun b => Close b == c) df ->
  Forall (fun x => x == 0) (z_score np_sqrt window filter_vol df).
Proof.
  intros Hw Hc.
  assert (Hcl : Forall (fun x => c <= x <= c) (map Close df)).
  { apply Forall_map. eapply Forall_impl; [|exact Hc].
    intros b Hb. cbv beta in Hb. lra. }
  pose proof (ewm_mean_between window _ c c Hw Hcl) as Hm.
  assert (Hraw : Forall (fun x => x == 0)
                        (z_score_raw np_sqrt window (map Close df))).
  { unfold z_score_raw. apply Forall_map2. intros [cl m] s Hin _.
    pose proof (in_combine_l _ _ _ _ Hin) as H1.
    pose proof (in_combine_r _ _ _ _ Hin) as H2.
    rewrite Forall_forall in Hcl, Hm.
    specialize (Hcl cl H1). specialize (Hm m H2). simpl.
    unfold z_score_row. destruct s as [s|]; [|reflexivity].
    destruct (Qltb 0 s); [|reflexivity].
    assert (E : cl - m == 0) by lra. rewrite E. unfold Qdiv. ring. }
  unfold z_score. destruct filter_vol; [|exact Hraw].
  unfold vol_filter. apply Forall_loc_assign; [reflexivity | exact Hraw].
Qed.

(** ** The lag and the costs (lines 87-96) *)

Lemma fillna_shift_scan (col : list Q) :
  forall prev,
    fillna 0 (scan (fun p x => (Some x, p)) prev col)
    = firstn (length col)
             (match prev with Some p => p | None => 0 end :: col).
Proof.
  induction col as [|x col IH]; intros prev; simpl; [reflexivity|].
  f_equal. apply (IH (Some x)).
Qed.

Lemma position_lag_shifted (pos : list Q) :
  position_lag pos = firstn (length pos) (0 :: pos).
Proof. unfold position_lag, shift. apply fillna_shift_scan. Qed.

(** X6: the lagged position is the position column moved down one row:
    0 on the first row, then every position but the last, at the same
    length.  A row's return is therefore earned by the position of the row
    before it. *)
Theorem position_lag_is_previous_row (pos : list Q) :
  position_lag pos = firstn (length pos) (0 :: pos) /\
  length (position_lag pos) = length pos /\
  (forall t, (S t < length pos)%nat ->
             nth (S t) (position_lag pos) 0 = nth t pos 0).
Proof.
  split; [apply position_lag_shifted|]. split.
  - unfold position_lag, fillna. now rewrite length_map, length_shift.
  - intros t Ht. now apply nth_position_lag.
Qed.

Lemma position_lag_is_previous_row_witness :
  nth 1 (position_lag [0; 1; 0]) 0 = nth 0 [0; 1; 0] 0.
Proof.
  apply (proj2 (proj2 (position_lag_is_previous_row [0; 1; 0])) 0%nat).
  simpl. lia.
Defined.

Lemma diff_scan_shifted (col : list Q) :
  forall p,
    fillna 0
      (map2 (fun x o => match o with Some q => Some (x - q) | None => None end)
            col (scan (fun q x => (Some x, q)) (Some p) col))
    = map2 Qminus col (p :: col).
Proof.
  induction col as [|x col IH]; intros p; simpl; [reflexivity|].
  f_equal. apply IH.
Qed.

Lemma position_change_cons (x : Q) (pos : list Q) :
  position_change (x :: pos) = Qabs 0 :: map Qabs (map2 Qminus pos (x :: pos)).
Proof.
  unfold position_change, diff, shift. simpl. f_equal. f_equal.
  apply diff_scan_shifted.
Qed.

Lemma position_change_within (pos : list Q) (lo hi : Q) :
  Forall (fun p => lo <= p <= hi) pos ->
  Forall (fun d => 0 <= d <= hi - lo) (position_change pos).
Proof.
  intros H. destruct pos as [|x pos]; [constructor|].
  rewrite position_change_cons.
  assert (Hx : lo <= x <= hi) by now inversion H.
  constructor; [simpl; lra|].
  apply Forall_map, Forall_map2. intros a b Ha Hb.
  rewrite Forall_forall in H.
  assert (Ha' : lo <= a <= hi) by (apply H; now right).
  assert (Hb' : lo <= b <= hi) by (apply H; exact Hb).
  split; [apply Qabs_nonneg|].
  apply Qabs_Qle_condition. lra.
Qed.

Lemma strategy_net_within (pos rets : list Q) :
  Forall (fun p => - (1) <= p <= 1) pos ->
  Forall (fun r => stop_loss - 2 * cost_per_trade <= r <= take_profit)
         (strategy_net pos rets).
Proof.
  intros Hp. unfold strategy_net. apply Forall_map2. intros x c Hx Hc.
  unfold strategy_clipped in Hx. apply in_map_iff in Hx.
  destruct Hx as [raw [<- _]].
  unfold trade_cost in Hc. apply in_map_iff in Hc.
  destruct Hc as [d [<- Hd]].
  pose proof (position_change_within pos _ _ Hp) as Hch.
  rewrite Forall_forall in Hch. specialize (Hch d Hd).
  assert (Hb : stop_loss <= np_clip raw stop_loss take_profit <= take_profit)
    by (apply np_clip_bounds; unfold stop_loss, take_profit; lra).
  unfold cost_per_trade in *. unfold Qminus. lra.
Qed.

(** X7: whatever the returns, a position column inside [-1, 1] gives net
    returns between stop_loss - 2 cost_per_trade and take_profit: a day
    loses at most the stop plus the cost of a full reversal, and gains at
    most the target. *)
Theorem net_return_within_stop_and_target (pos rets : list Q) (t : nat) :
  Forall (fun p => - (1) <= p <= 1) pos ->
  (t < length (strategy_net pos rets))%nat ->
  stop_loss - 2 * cost_per_trade <= nth t (strategy_net pos rets) 0
  /\ nth t (strategy_net pos rets) 0 <= take_profit.
Proof.
  intros Hp Ht.
  pose proof (strategy_net_within pos rets Hp) as H.
  rewrite Forall_forall in H. apply H, nth_In, Ht.
Qed.

Lemma net_return_within_stop_and_target_witness :
  stop_loss - 2 * cost_per_trade
  <= nth 2 (strategy_net [0; 1; - (1)] [0; 1 # 10; 1 # 10]) 0
  /\ nth 2 (strategy_net [0; 1; - (1)] [0; 1 # 10; 1 # 10]) 0 <= take_profit.
Proof.
  apply (net_return_within_stop_and_target [0; 1; - (1)] [0; 1 # 10; 1 # 10] 2).
  - repeat constructor; discriminate.
  - rewrite length_strategy_net. simpl. lia.
Defined.

Lemma Forall_firstn_of {A} (P : A -> Prop) (l : list A) :
  forall n, Forall P l -> Forall P (firstn n l).
Proof.
  induction l as [|x l IH]; intros [|n] H; simpl; try constructor;
    inversion H; subst; auto.
Qed.

Lemma strategy_net_first (p r : Q) (pos rets : list Q) :
  nth 0 (strategy_net (p :: pos) (r :: rets)) 0 == 0.
Proof.
  unfold strategy_net, strategy_clipped, strategy_raw, trade_cost.
  rewrite position_lag_shifted, position_change_cons. simpl.
  rewrite np_clip_id by (unfold stop_loss, take_profit; lra).
  unfold cost_per_trade. ring.
Qed.

Lemma strategy_net_of_flat (pos rets : list Q) :
  Forall (fun p => p == 0) pos -> Forall (fun r => r == 0) (strategy_net pos rets).
Proof.
  intros Hp. unfold strategy_net. apply Forall_map2. intros x c Hx Hc.
  unfold strategy_clipped, strategy_raw in Hx. apply in_map_iff in Hx.
  destruct Hx as [raw [<- Hraw]].
  assert (Hr0 : raw == 0).
  { assert (Hl : Forall (fun l => l == 0) (position_lag pos)).
    { rewrite position_lag_shifted. apply Forall_firstn_of.
      constructor; [reflexivity | exact Hp]. }
    assert (Hall : Forall (fun x => x == 0) (map2 Qmult (position_lag pos) rets)).
    { apply Forall_map2. intros l r Hl' _.
      rewrite Forall_forall in Hl. rewrite (Hl l Hl'). ring. }
    rewrite Forall_forall in Hall. now apply Hall. }
  rewrite np_clip_id by (unfold stop_loss, take_profit; lra).
  unfold trade_cost in Hc. apply in_map_iff in Hc.
  destruct Hc as [d [<- Hd]].
  assert (Hp' : Forall (fun p => 0 <= p <= 0) pos).
  { eapply Forall_impl; [|exact Hp]. intros p E. cbv beta in E. lra. }
  pose proof (position_change_within pos _ _ Hp') as Hch.
  rewrite Forall_forall in Hch. specialize (Hch d Hd).
  assert (Hd0 : d == 0) by lra.
  rewrite Hr0, Hd0. ring.
Qed.

(** ** The equity curve (line 99) *)

Lemma cumprod_scan_succ (xs : list Q) :
  forall a t, (S t < length xs)%nat ->
    let out := scan (fun acc x => let p := acc * x in (p, p)) a xs in
    nth (S t) out 0 = nth t out 0 * nth (S t) xs 0.
Proof.
  induction xs as [|x xs IH]; intros a t Ht; simpl in *; [lia|].
  destruct t as [|t].
  - destruct xs as [|x' xs]; simpl in *; [lia | reflexivity].
  - apply (IH (a * x) t). lia.
Qed.

Lemma nth_equity_of (net : list Q) (t : nat) :
  (t < length net)%nat ->
  nth t (equity_of net) 0
  = initial_capital * nth t (cumprod (map (fun r => 1 + r) net)) 0.
Proof.
  intros Ht. unfold equity_of.
  rewrite (nth_indep _ 0 (initial_capital * 0))
    by (unfold cumprod; rewrite length_map, length_scan, length_map; lia).
  apply (map_nth (fun c => initial_capital * c)).
Qed.

Lemma equity_of_succ (net : list Q) (t : nat) :
  (S t < length net)%nat ->
  nth (S t) (equity_of net) 0
  == nth t (equity_of net) 0 * (1 + nth (S t) net 0).
Proof.
  intros Ht. rewrite !nth_equity_of by lia. unfold cumprod.
  rewrite cumprod_scan_succ by (rewrite length_map; lia).
  rewrite (nth_indep (map _ net) 0 (1 + 0)) by (rewrite length_map; lia).
  rewrite (map_nth (fun r => 1 + r)). cbv zeta. ring.
Qed.

(** X8: the equity curve starts at the initial capital (the first row
    earns and costs nothing) and compounds: each row's equity is the
    previous row's times one plus the row's net return. *)
Theorem equity_curve_compounds (pos rets : list Q) :
  (pos <> [] -> rets <> [] ->
   nth 0 (equity_curve pos rets) 0 == initial_capital) /\
  (forall t, (S t < length (strategy_net pos rets))%nat ->
     nth (S t) (equity_curve pos rets) 0
     == nth t (equity_curve pos rets) 0
        * (1 + nth (S t) (strategy_net pos rets) 0)).
Proof.
  split.
  - intros Hp Hr. destruct pos as [|p pos]; [congruence|].
    destruct rets as [|r rets]; [congruence|].
    unfold equity_curve.
    rewrite nth_equity_of by (rewrite length_strategy_net; simpl; lia).
    pose proof (strategy_net_first p r pos rets) as H0.
    destruct (strategy_net (p :: pos) (r :: rets)) as [|n0 net] eqn:E;
      [apply (f_equal (@length Q)) in E; rewrite length_strategy_net in E;
       simpl in E; lia|].
    simpl in *. rewrite H0. ring.
  - intros t Ht. unfold equity_curve. now apply equity_of_succ.
Qed.

Lemma equity_curve_compounds_witness :
  nth 1 (equity_curve [0; 1; 0] [0; 2 # 100; - (1 # 100)]) 0
  == nth 0 (equity_curve [0; 1; 0] [0; 2 # 100; - (1 # 100)]) 0
     * (1 + nth 1 (strategy_net [0; 1; 0] [0; 2 # 100; - (1 # 100)]) 0).
Proof.
  apply (proj2 (equity_curve_compounds [0; 1; 0] [0; 2 # 100; - (1 # 100)]) 0%nat).
  rewrite length_strategy_net. simpl. lia.
Defined.

Lemma equity_of_positive (net : list Q) :
  Forall (fun r => - (1) < r) net -> Forall (fun e => 0 < e) (equity_of net).
Proof.
  intros H. unfold equity_of, cumprod. apply Forall_map.
  eapply Forall_impl
    with (P := fun c => 0 < c);
    [intros c Hc; unfold initial_capital;
     apply Qmult_lt_0_compat; [reflexivity | exact Hc]|].
  apply Forall_scan with (I := fun acc => 0 < acc) (P := fun x => 0 < x).
  - intros acc x Ha Hx. simpl. split; now apply Qmult_lt_0_compat.
  - reflexivity.
  - apply Forall_map. eapply Forall_impl; [|exact H].
    intros r Hr. cbv beta in *. lra.
Qed.

Lemma equity_of_flat (net : list Q) :
  Forall (fun r => r == 0) net ->
  Forall (fun e => e == initial_capital) (equity_of net).
Proof.
  intros H. unfold equity_of, cumprod. apply Forall_map.
  eapply Forall_impl with (P := fun c => c == 1);
    [intros c Hc; rewrite Hc; ring|].
  apply Forall_scan with (I := fun acc => acc == 1) (P := fun x => x == 1).
  - intros acc x Ha Hx. simpl. split; rewrite Ha, Hx; ring.
  - reflexivity.
  - apply Forall_map. eapply Forall_impl; [|exact H].
    intros r Hr. cbv beta in *. rewrite Hr. ring.
Qed.

(** ** Performance metrics (lines 104-126) *)

Lemma backtest_metrics (np_sqrt : Q -> Q) (df : frame) (window : Z)
      (z_entry z_exit : Q) (dynamic_position filter_vol : bool)
      (r : backtest_result) :
  backtest_mean_reversion np_sqrt df window z_entry z_exit
                          dynamic_position filter_vol = Returned r ->
  let net := strategy_net
               (position z_entry z_exit dynamic_position
                         (z_score np_sqrt window filter_vol df))
               (map returns df) in
  d_strategy_net (data r) = net /\
  d_equity_curve (data r) = equity_of net /\
  In (final_value r) (equity_of net) /\
  total_return r = (final_value r / initial_capital - 1) * 100 /\
  sharpe r = sharpe_of np_sqrt net /\
  max_drawdown r = max_drawdown_of (equity_of net) /\
  win_rate r = win_rate_of net.
Proof.
  unfold backtest_mean_reversion.
  destruct (window <? 1)%Z; [discriminate|].
  match goal with
  | |- context [rev ?e] => destruct (rev e) as [|final rest] eqn:E
  end; [discriminate|].
  intros H. injection H as <-. simpl.
  repeat split.
  apply in_rev. rewrite E. now left.
Qed.

Lemma strategy_net_above_minus_one (z_entry z_exit : Q)
      (dynamic_position : bool) (z rets : list Q) :
  Forall (fun r => - (1) < r)
         (strategy_net (position z_entry z_exit dynamic_position z) rets).
Proof.
  eapply Forall_impl;
    [|apply strategy_net_within, position_within_unit].
  intros r [Hr _]. cbv beta in *.
  unfold stop_loss, cost_per_trade in Hr. lra.
Qed.

(** X9: the strategy can never be wiped out: for valid parameters every
    value of the equity curve of a returned result is positive, and so are
    the final value and 100 + total_return. *)
Theorem equity_stays_positive
        (np_sqrt : Q -> Q) (df : frame) (window : Z) (z_entry z_exit : Q)
        (dynamic_position filter_vol : bool) (r : backtest_result) :
  valid_params window z_entry z_exit ->
  backtest_mean_reversion np_sqrt df window z_entry z_exit
                          dynamic_position filter_vol = Returned r ->
  Forall (fun e => 0 < e) (d_equity_curve (data r)) /\
  0 < final_value r /\
  - (100) < total_return r.
Proof.
  intros _ Hr.
  destruct (backtest_metrics _ _ _ _ _ _ _ _ Hr)
    as (_ & Heq & Hfin & Htot & _).
  assert (Hpos : Forall (fun e => 0 < e) (d_equity_curve (data r))).
  { rewrite Heq. apply equity_of_positive, strategy_net_above_minus_one. }
  assert (Hf : 0 < final_value r).
  { rewrite Heq in Hpos. rewrite Forall_forall in Hpos. now apply Hpos. }
  split; [exact Hpos|]. split; [exact Hf|].
  rewrite Htot. unfold initial_capital.
  assert (E : final_value r / 10000 == final_value r * (1 # 10000))
    by (unfold Qdiv; reflexivity).
  rewrite E. lra.
Qed.

Lemma equity_stays_positive_witness :
  exists r,
    backtest_mean_reversion sqrt_approx dip_frame 10 1 (3 # 10) true true
    = Returned r /\
    Forall (fun e => 0 < e) (d_equity_curve (data r)) /\
    0 < final_value r /\ - (100) < total_return r.
Proof.
  destruct (backtest_returns sqrt_approx dip_frame 10 1 (3 # 10) true true)
    as [r Hr]; [reflexivity | discriminate |].
  exists r. split; [exact Hr|].
  apply (equity_stays_positive sqrt_approx dip_frame 10 1 (3 # 10) true true r);
    [|exact Hr].
  unfold valid_params. repeat split; try reflexivity. discriminate.
Defined.

Lemma cummax_scan_dominates (xs : list Q) :
  forall acc,
    match acc with Some a => 0 < a | None => True end ->
    Forall (fun x => 0 < x) xs ->
    Forall2 (fun e c => 0 < e /\ e <= c) xs
      (scan (fun (acc : option Q) x =>
               let m := match acc with
                        | Some a => if Qltb a x then x else a
                        | None => x
                        end in (Some m, m)) acc xs).
Proof.
  induction xs as [|x xs IH]; intros acc Hacc Hxs; simpl; [constructor|].
  inversion Hxs as [|? ? Hx Hxs']; subst.
  constructor.
  - split; [exact Hx|]. destruct acc as [a|]; [|lra].
    destruct (Qltb a x) eqn:E; [lra | now apply Qltb_ge in E].
  - apply IH; [|exact Hxs'].
    destruct acc as [a|]; [|exact Hx]. now destruct (Qltb a x).
Qed.

Lemma Qlist_min_In (x : Q) (l : list Q) : In (Qlist_min (x :: l)) (x :: l).
Proof.
  simpl. revert x. induction l as [|y l IH]; intros x; simpl; [now left|].
  destruct (Qltb y x).
  - destruct (IH y) as [H|H]; [right; left; exact H | right; right; exact H].
  - destruct (IH x) as [H|H]; [left; exact H | right; right; exact H].
Qed.

Lemma max_drawdown_of_within (equity : list Q) :
  equity <> [] -> Forall (fun e => 0 < e) equity ->
  - (100) < max_drawdown_of equity /\ max_drawdown_of equity <= 0.
Proof.
  intros Hne Hpos. unfold max_drawdown_of, cummax.
  pose proof (cummax_scan_dominates equity None I Hpos) as Hdom.
  set (cm := scan _ None equity) in *.
  assert (Hall : Forall (fun d => - (1) < d /\ d <= 0)
                        (map2 (fun e c => (e - c) / c) equity cm)).
  { clearbody cm. clear Hne Hpos.
    induction Hdom as [|e c es cs [He Hec] _ IH]; simpl; [constructor|].
    constructor; [|exact IH].
    assert (Hc : 0 < c) by lra. split.
    - apply Qlt_shift_div_l; [exact Hc | lra].
    - apply Qle_shift_div_r; [exact Hc | lra]. }
  destruct (map2 (fun e c => (e - c) / c) equity cm) as [|d ds] eqn:E.
  - exfalso. apply (f_equal (@length Q)) in E.
    rewrite length_map2 in E. unfold cm in E. rewrite length_scan in E.
    destruct equity; [congruence | simpl in E; lia].
  - pose proof (Qlist_min_In d ds) as Hin.
    rewrite Forall_forall in Hall. specialize (Hall _ Hin). lra.
Qed.

(** X10: for valid parameters the maximum drawdown of a returned result
    is a percentage in (-100, 0]: never positive, and never a total
    loss. *)
Theorem max_drawdown_is_a_loss_percentage
        (np_sqrt : Q -> Q) (df : frame) (window : Z) (z_entry z_exit : Q)
        (dynamic_position filter_vol : bool) (r : backtest_result) :
  valid_params window z_entry z_exit ->
  backtest_mean_reversion np_sqrt df window z_entry z_exit
                          dynamic_position filter_vol = Returned r ->
  - (100) < max_drawdown r /\ max_drawdown r <= 0.
Proof.
  intros _ Hr.
  destruct (backtest_metrics _ _ _ _ _ _ _ _ Hr)
    as (_ & _ & Hfin & _ & _ & Hdd & _).
  rewrite Hdd. apply max_drawdown_of_within.
  - intros E. rewrite E in Hfin. contradiction.
  - apply equity_of_positive, strategy_net_above_minus_one.
Qed.

Lemma max_drawdown_is_a_loss_percentage_witness :
  exists r,
    backtest_mean_reversion sqrt_approx jump_frame 10 1 (3 # 10) false true
    = Returned r /\
    - (100) < max_drawdown r /\ max_drawdown r <= 0.
Proof.
  destruct (backtest_returns sqrt_approx jump_frame 10 1 (3 # 10) false true)
    as [r Hr]; [reflexivity | discriminate |].
  exists r. split; [exact Hr|].
  apply (max_drawdown_is_a_loss_percentage sqrt_approx jump_frame 10 1 (3 # 10)
                                           false true r); [|exact Hr].
  unfold valid_params. repeat split; try reflexivity. discriminate.
Defined.

Lemma count_if_nonneg (p : Q -> bool) (l : list Q) : (0 <= count_if p l)%Z.
Proof. unfold count_if. lia. Qed.

Lemma count_if_skip (p : Q -> bool) (l1 l2 : list Q) (z : Q) :
  p z = false -> count_if p (l1 ++ z :: l2) = count_if p (l1 ++ l2).
Proof.
  intros Hz. unfold count_if. rewrite !filter_app. simpl. now rewrite Hz.
Qed.

(** X11: the win rate is a percentage in [0, 100], and a day whose net
    return is exactly 0 does not count: adding or removing such a day
    leaves the win rate unchanged. *)
Theorem win_rate_ignores_zero_days :
  (forall net, 0 <= win_rate_of net /\ win_rate_of net <= 100) /\
  (forall l1 l2 z, z == 0 ->
     win_rate_of (l1 ++ z :: l2) = win_rate_of (l1 ++ l2)).
Proof.
  split.
  - intros net. unfold win_rate_of.
    pose proof (count_if_nonneg (fun r => Qltb 0 r) net) as Hw.
    pose proof (count_if_nonneg (fun r => Qltb r 0) net) as Hl.
    set (w := count_if (fun r => Qltb 0 r) net) in *.
    set (l := count_if (fun r => Qltb r 0) net) in *.
    destruct (Z.ltb_spec 0 (w + l)) as [H|H]; [|split; [lra | discriminate]].
    assert (Hb : 0 < inject_Z (w + l))
      by (change 0 with (inject_Z 0); rewrite <- Zlt_Qlt; exact H).
    assert (Ha : 0 <= inject_Z w)
      by (change 0 with (inject_Z 0); rewrite <- Zle_Qle; exact Hw).
    assert (Hab : inject_Z w <= inject_Z (w + l))
      by (rewrite <- Zle_Qle; lia).
    assert (H0 : 0 <= inject_Z w / inject_Z (w + l))
      by (apply Qle_shift_div_l; [exact Hb | lra]).
    assert (H1 : inject_Z w / inject_Z (w + l) <= 1)
      by (apply Qle_shift_div_r; [exact Hb | lra]).
    lra.
  - intros l1 l2 z Hz. unfold win_rate_of.
    rewrite !(count_if_skip _ l1 l2 z); [reflexivity | |].
    + apply Qltb_ge. lra.
    + apply Qltb_ge. lra.
Qed.

Lemma win_rate_ignores_zero_days_witness :
  win_rate_of ([1 # 100] ++ 0 :: [- (1 # 100)])
  = win_rate_of ([1 # 100] ++ [- (1 # 100)]).
Proof.
  apply (proj2 win_rate_ignores_zero_days [1 # 100] [- (1 # 100)] 0).
  reflexivity.
Defined.

Lemma Qsum_const (c : Q) (l : list Q) :
  Forall (fun x => x == c) l ->
  Qsum l == inject_Z (Z.of_nat (length l)) * c.
Proof.
  induction 1 as [|x l Hx _ IH]; [simpl; ring|].
  change (Qsum (x :: l)) with (x + Qsum l). simpl length.
  assert (Hx' : x == c) by exact Hx.
  rewrite IH, Hx'. rewrite Nat2Z.inj_succ.
  unfold Z.succ. rewrite inject_Z_plus. ring.
Qed.

Lemma series_var_of_constant (c : Q) (l : list Q) :
  Forall (fun x => x == c) l ->
  match series_var l with Some v => v == 0 | None => True end.
Proof.
  intros H. unfold series_var.
  destruct l as [|x [|y l]]; [exact I | exact I |].
  set (l' := x :: y :: l) in *.
  assert (Hn : 2 <= inject_Z (Z.of_nat (length l'))).
  { change 2 with (inject_Z 2). rewrite <- Zle_Qle. simpl. lia. }
  assert (Hm : series_mean l' == c).
  { unfold series_mean. rewrite (Qsum_const c l' H). field. lra. }
  assert (Hsq : Forall (fun d => d == 0)
                       (map (fun x => (x - series_mean l') * (x - series_mean l')) l')).
  { apply Forall_map. eapply Forall_impl; [|exact H].
    intros a Ha. cbv beta in *. rewrite Ha, Hm. ring. }
  rewrite (Qsum_const 0 _ Hsq). unfold Qdiv. ring.
Qed.

Lemma sqrt_approx_zero (q : Q) : q == 0 -> sqrt_approx q <= 0.
Proof.
  intros H. unfold Qeq in H. simpl in H.
  assert (E : Qnum q = 0%Z) by lia.
  unfold sqrt_approx. rewrite E. simpl.
  unfold Qle. simpl. lia.
Qed.

(** X12: the Sharpe ratio is 0, not a division by zero, when the net
    returns show no dispersion: with fewer than two rows (the standard
    deviation is NaN) and, the square root of 0 not being positive, when
    all net returns are equal. *)
Theorem sharpe_is_zero_without_dispersion (np_sqrt : Q -> Q) (net : list Q) :
  ((length net < 2)%nat -> sharpe_of np_sqrt net = 0) /\
  ((forall q, q == 0 -> np_sqrt q <= 0) ->
   forall c, Forall (fun r => r == c) net -> sharpe_of np_sqrt net = 0).
Proof.
  split.
  - intros Hlen. unfold sharpe_of, series_std.
    destruct net as [|x [|y net]]; simpl in *; try reflexivity. lia.
  - intros Hsqrt c Hc. unfold sharpe_of, series_std.
    pose proof (series_var_of_constant c net Hc) as Hv.
    destruct (series_var net) as [v|]; simpl; [|reflexivity].
    destruct (Qltb 0 (np_sqrt v)) eqn:E; [|reflexivity].
    apply Qltb_lt in E. specialize (Hsqrt v Hv). lra.
Qed.

Lemma sharpe_is_zero_without_dispersion_witness :
  sharpe_of sqrt_approx [0; 0; 0] = 0.
Proof.
  apply (proj2 (sharpe_is_zero_without_dispersion sqrt_approx [0; 0; 0])
               sqrt_approx_zero 0).
  repeat constructor.
Defined.

(** ** Flat positions and constant prices *)

Lemma nth_of_flat (l : list Q) (i : nat) :
  Forall (fun p => p == 0) l -> nth i l 0 == 0.
Proof.
  intros H. destruct (Nat.lt_ge_cases i (length l)) as [Hlt|Hge].
  - rewrite Forall_forall in H. apply H, nth_In, Hlt.
  - now rewrite nth_overflow.
Qed.

Lemma trade_log_of_flat (index : list Z) (closes positions : list Q) :
  Forall (fun p => p == 0) positions ->
  trade_log index closes positions = [].
Proof.
  intros H. unfold trade_log.
  assert (Hloop : forall rows,
             log_loop index closes positions rows log_init = log_init).
  { induction rows as [|i rows IH]; [reflexivity|].
    simpl. rewrite (log_step_flat index closes positions log_init i eq_refl).
    assert (E : Qeq_bool (nth i positions 0) 0 = true)
      by (apply Qeq_bool_iff, nth_of_flat, H).
    rewrite E. simpl. exact IH. }
  now rewrite Hloop.
Qed.

(** X15: a position column that is 0 on every row yields an empty trade
    ledger, whatever the dates and prices. *)
Theorem flat_positions_yield_no_trade
        (index : list Z) (closes positions : list Q) :
  Forall (fun p => p == 0) positions ->
  trade_log index closes positions = [].
Proof.
  intros H. now apply trade_log_of_flat.
Qed.

Lemma flat_positions_yield_no_trade_witness :
  trade_log [0; 1; 2]%Z [100; 101; 99] [0; 0; 0] = [].
Proof.
  apply (flat_positions_yield_no_trade [0; 1; 2]%Z [100; 101; 99] [0; 0; 0]).
  repeat constructor.
Defined.

Lemma position_of_constant_prices
      (np_sqrt : Q -> Q) (df : frame) (window : Z) (z_entry z_exit : Q)
      (dynamic_position filter_vol : bool) (c : Q) :
  (1 <= window)%Z -> 0 < z_entry ->
  Forall (fun b => Close b == c) df ->
  Forall (fun p => p == 0)
         (position z_entry z_exit dynamic_position
                   (z_score np_sqrt window filter_vol df)).
Proof.
  intros Hw Hze Hc.
  pose proof (z_score_of_constant_prices np_sqrt window filter_vol df c Hw Hc)
    as Hz.
  pose proof (position_discrete_of_flat_z z_entry z_exit _ Hze Hz) as Hd.
  unfold position. destruct dynamic_position.
  - unfold position_dynamic. apply Forall_map2. intros p sz Hp _.
    rewrite Forall_forall in Hd. rewrite (Hd p Hp).
    change (np_sign 0) with 0. ring.
  - eapply Forall_impl; [|exact Hd]. intros p ->. reflexivity.
Qed.

(** X4: on a price series that never moves, valid parameters give a
    strategy that never trades: every position is 0, the equity curve stays
    at the initial capital and the trade ledger is empty. *)
Theorem constant_prices_never_trade
        (np_sqrt : Q -> Q) (df : frame) (window : Z) (z_entry z_exit : Q)
        (dynamic_position filter_vol : bool) (c : Q) :
  valid_params window z_entry z_exit ->
  Forall (fun b => Close b == c) df ->
  let pos := position z_entry z_exit dynamic_position
                      (z_score np_sqrt window filter_vol df) in
  Forall (fun p => p == 0) pos /\
  Forall (fun e => e == initial_capital)
         (strategy_equity np_sqrt df window z_entry z_exit
                          dynamic_position filter_vol) /\
  trade_log (map date df) (map Close df) pos = [].
Proof.
  intros (Hw & Hze & _) Hc pos.
  assert (Hp : Forall (fun p => p == 0) pos)
    by (apply (position_of_constant_prices np_sqrt df window z_entry z_exit
                 dynamic_position filter_vol c); [lia | exact Hze | exact Hc]).
  split; [exact Hp|]. split.
  - unfold strategy_equity, equity_curve. fold pos.
    now apply equity_of_flat, strategy_net_of_flat.
  - now apply trade_log_of_flat.
Qed.

Lemma constant_prices_never_trade_witness :
  Forall (fun p => p == 0)
         (position 1 (3 # 10) true (z_score sqrt_approx 10 true flat_frame)) /\
  Forall (fun e => e == initial_capital)
         (strategy_equity sqrt_approx flat_frame 10 1 (3 # 10) true true) /\
  trade_log (map date flat_frame) (map Close flat_frame)
            (position 1 (3 # 10) true (z_score sqrt_approx 10 true flat_frame))
  = [].
Proof.
  apply (constant_prices_never_trade sqrt_approx flat_frame 10 1 (3 # 10)
                                     true true 100).
  - unfold valid_params. repeat split; try reflexivity. discriminate.
  - repeat constructor.
Defined.

(** ** The sweep over the script's grid (lines 139-161) *)

Lemma grid_search_all_returned (np_sqrt : Q -> Q) (df : frame)
      (grid : list (Z * Q * Q)) :
  df <> [] ->
  Forall (fun p => (0 < fst (fst p))%Z) grid ->
  map (fun r => (Window r, Z_Entry r, Z_Exit r)) (grid_search np_sqrt df grid)
  = grid.
Proof.
  intros Hdf Hgrid. rewrite grid_search_rows.
  induction Hgrid as [|[[w ze] zx] grid Hw _ IH]; [reflexivity|].
  simpl in *. rewrite map_app, IH.
  destruct (backtest_returns np_sqrt df w ze zx false true Hw Hdf) as [r Hr].
  now rewrite Hr.
Qed.

(** X13: on any non-empty frame none of the 36 points of the script's grid
    is skipped: the leaderboard has one row per grid point, in the order of
    [itertools.product] (windows outermost, z_exits innermost). *)
Theorem grid_search_covers_the_grid (np_sqrt : Q -> Q) (df : frame) :
  df <> [] ->
  map (fun r => (Window r, Z_Entry r, Z_Exit r))
      (grid_search np_sqrt df param_grid) = param_grid /\
  length (grid_search np_sqrt df param_grid) = 36%nat.
Proof.
  intros Hdf.
  assert (H : map (fun r => (Window r, Z_Entry r, Z_Exit r))
                  (grid_search np_sqrt df param_grid) = param_grid).
  { apply grid_search_all_returned; [exact Hdf|].
    unfold param_grid, windows, z_entries, z_exits, product3. simpl.
    repeat constructor. }
  split; [exact H|].
  apply (f_equal (@length _)) in H. rewrite length_map in H.
  rewrite H. reflexivity.
Qed.

Lemma grid_search_covers_the_grid_witness :
  map (fun r => (Window r, Z_Entry r, Z_Exit r))
      (grid_search sqrt_approx dip_frame param_grid) = param_grid /\
  length (grid_search sqrt_approx dip_frame param_grid) = 36%nat.
Proof.
  apply (grid_search_covers_the_grid sqrt_approx dip_frame). discriminate.
Defined.

(** ** The final run (lines 175-188) *)

Lemma param_grid_windows_positive :
  Forall (fun p : Z * Q * Q => (0 < fst (fst p))%Z) param_grid.
Proof.
  unfold param_grid, windows, z_entries, z_exits, product3. simpl.
  repeat constructor.
Qed.

(** X14: with a sort that ranks by Sharpe descending, on any non-empty
    frame the script finds a best row, its parameters are a point of the
    grid and no row has a larger Sharpe; the final run at these parameters
    with dynamic sizing returns a result, whose positions, one per row of
    the frame, lie in [-1, 1]. *)
Theorem final_run_returns
        (sort_values : list summary -> list summary)
        (np_sqrt : Q -> Q) (df : frame) :
  sorts_by_sharpe_desc sort_values ->
  df <> [] ->
  exists best r,
    best_of sort_values (grid_search np_sqrt df param_grid) = Some best /\
    In (Window best, Z_Entry best, Z_Exit best) param_grid /\
    (forall row, In row (grid_search np_sqrt df param_grid) ->
                 Sharpe row <= Sharpe best) /\
    final_result sort_values np_sqrt df param_grid = Some (Returned r) /\
    length (d_position (data r)) = length df /\
    Forall (fun p => - (1) <= p <= 1) (d_position (data r)).
Proof.
  intros Hsort Hdf.
  set (results := grid_search np_sqrt df param_grid).
  destruct (Hsort results) as [Hperm Hsorted].
  pose proof (grid_search_all_returned np_sqrt df param_grid Hdf
                param_grid_windows_positive) as Hpts.
  fold results in Hpts.
  unfold final_result, best_of. fold results.
  destruct (sort_values results) as [|best rest] eqn:E.
  { apply Permutation_length in Hperm. apply (f_equal (@length _)) in Hpts.
    rewrite length_map in Hpts. rewrite Hpts in Hperm. discriminate. }
  destruct results as [|row0 rows0] eqn:Eres; [discriminate Hpts|].
  rewrite <- Eres in *. rewrite E.
  assert (Hin : In best results)
    by (eapply Permutation_in; [apply Permutation_sym, Hperm | now left]).
  assert (Hpt : In (Window best, Z_Entry best, Z_Exit best) param_grid).
  { rewrite <- Hpts.
    apply (in_map (fun r => (Window r, Z_Entry r, Z_Exit r))), Hin. }
  assert (Hw : (0 < Window best)%Z).
  { pose proof param_grid_windows_positive as H.
    rewrite Forall_forall in H. apply (H _ Hpt). }
  destruct (backtest_returns np_sqrt df (Window best) (Z_Entry best)
                             (Z_Exit best) true true Hw Hdf) as [r Hr].
  exists best, r. simpl.
  split; [reflexivity|]. split; [exact Hpt|]. split.
  - intros row Hrow.
    assert (Hrow' : In row (best :: rest))
      by (eapply Permutation_in; [exact Hperm | exact Hrow]).
    apply StronglySorted_inv in Hsorted. destruct Hsorted as [_ Hall].
    destruct Hrow' as [->|Hrow']; [lra|].
    rewrite Forall_forall in Hall. now apply Hall.
  - split; [now rewrite Hr|].
    destruct (backtest_columns _ _ _ _ _ _ _ _ Hr) as (_ & _ & Hp & _).
    rewrite Hp. split.
    + now rewrite length_position, length_z_score.
    + apply position_within_unit.
Qed.

Lemma final_run_returns_witness :
  exists best r,
    best_of sort_first_seen (grid_search sqrt_approx dip_frame param_grid)
    = Some best /\
    In (Window best, Z_Entry best, Z_Exit best) param_grid /\
    (forall row, In row (grid_search sqrt_approx dip_frame param_grid) ->
                 Sharpe row <= Sharpe best) /\
    final_result sort_first_seen sqrt_approx dip_frame param_grid
    = Some (Returned r) /\
    length (d_position (data r)) = length dip_frame /\
    Forall (fun p => - (1) <= p <= 1) (d_position (data r)).
Proof.
  apply (final_run_returns sort_first_seen sqrt_approx dip_frame
                           sort_first_seen_contract).
  discriminate.
Defined.

(** ** What a trade of the ledger is (lines 218-260) *)

Lemma trade_spans_later (index : list Z) (closes positions : list Q)
      (k : nat) (tr : trade) :
  trade_spans index closes positions k tr ->
  trade_spans index closes positions (S k) tr.
Proof.
  intros (i & j & Hij & H). exists i, j. split; [lia | exact H].
Qed.

Lemma holds_side_one (positions : list Q) (k : nat) :
  Qeq_bool (nth k positions 0) 0 = false ->
  holds_side positions (side_of (nth k positions 0)) k (S k).
Proof.
  intros H m Hm. assert (m = k) by lia. subst m.
  split; [now apply Qeq_bool_false | reflexivity].
Qed.

Lemma spans_step (index : list Z) (closes positions : list Q)
      (k : nat) (st : log_state) :
  Forall (trade_spans index closes positions k) (trades st) ->
  open_spans index closes positions k st ->
  Forall (trade_spans index closes positions (S k))
         (trades (log_step index closes positions st k))
  /\ open_spans index closes positions (S k)
                (log_step index closes positions st k).
Proof.
  intros Htr Hopen.
  assert (Htr' : Forall (trade_spans index closes positions (S k)) (trades st)).
  { eapply Forall_impl; [|exact Htr]. intros tr. apply trade_spans_later. }
  destruct (in_position st) eqn:Hin.
  - destruct (Hopen Hin) as (e & He & Hd & Hp & Ht & Hheld).
    destruct (exit_signal positions k) eqn:Hex.
    + rewrite (log_step_exit index closes positions st k _ _ _ Hin Hex Hd Hp Ht).
      assert (Hnew : Forall (trade_spans index closes positions (S k))
                       (trades st
                        ++ [close_trade (nth e index 0%Z) (nth e closes 0)
                                        (side_of (nth e positions 0))
                                        (nth k index 0%Z) (nth k closes 0)])).
      { apply Forall_app. split; [exact Htr'|]. constructor; [|constructor].
        exists e, k. split; [lia|]. split; [reflexivity|]. now split. }
      destruct (Qeq_bool (nth k positions 0) 0) eqn:E; simpl.
      * split; [exact Hnew | discriminate].
      * split; [exact Hnew|]. intros _. exists k. simpl.
        split; [lia|]. do 3 (split; [reflexivity|]). now apply holds_side_one.
    + rewrite (log_step_hold index closes positions st k Hin Hex).
      split; [exact Htr'|]. intros _. exists e.
      split; [lia|]. do 3 (split; [assumption|]).
      intros m Hm. destruct (Nat.eq_dec m k) as [->|Hne]; [|apply Hheld; lia].
      destruct k as [|k]; [lia|].
      unfold exit_signal in Hex. rewrite iloc_nat, iloc_pred in Hex.
      apply orb_false_iff in Hex. destruct Hex as [E1 E2].
      apply negb_false_iff in E2.
      destruct (Hheld k) as [Hk0 Hks]; [lia|].
      split; [now apply Qeq_bool_false|].
      rewrite <- Hks. apply same_sign_same_side.
      * now apply Qeq_bool_iff.
      * now apply Qeq_bool_false.
      * exact Hk0.
  - rewrite (log_step_flat index closes positions st k Hin).
    destruct (Qeq_bool (nth k positions 0) 0) eqn:E; simpl.
    + split; [exact Htr'|]. unfold open_spans. rewrite Hin. discriminate.
    + split; [exact Htr'|]. intros _. exists k. simpl.
      split; [lia|]. do 3 (split; [reflexivity|]). now apply holds_side_one.
Qed.

Lemma run_spans (index : list Z) (closes positions : list Q) (k : nat) :
  Forall (trade_spans index closes positions k)
         (trades (log_loop index closes positions (seq 0 k) log_init))
  /\ open_spans index closes positions k
                (log_loop index closes positions (seq 0 k) log_init).
Proof.
  induction k as [|k [IH1 IH2]].
  - split; [constructor | discriminate].
  - rewrite run_succ. now apply spans_step.
Qed.

(** X16: every trade of the ledger is a round trip over two rows i < j of
    the frame: it carries the date and close of row i as entry and of row j
    as exit, its side is the side of the position on row i, the position
    was non-zero and kept that side on every row from i to j - 1, and on
    row j it was 0 or had changed sign.  Days and Return % are those
    [close_trade] computes from the two rows. *)
Theorem every_trade_is_a_round_trip
        (index : list Z) (closes positions : list Q) :
  Forall (trade_spans index closes positions (length positions))
         (trade_log index closes positions).
Proof. unfold trade_log. apply run_spans. Qed.

Lemma trade_log_no_longer_than_rows_aux
      (index : list Z) (closes positions : list Q) (k : nat) :
  let st := log_loop index closes positions (seq 0 k) log_init in
  (length (trades st) + (if in_position st then 1 else 0) <= k)%nat.
Proof.
  induction k as [|k IH]; [simpl; lia|].
  cbv zeta in *. rewrite run_succ.
  set (st := log_loop index closes positions (seq 0 k) log_init) in *.
  destruct (in_position st) eqn:Hin.
  - destruct (exit_signal positions k) eqn:Hex.
    + destruct (run_open_ok index closes positions k) as [_ Hf].
      fold st in Hf. destruct (Hf Hin) as (ed & ep & Hd & Hp & Ht).
      rewrite (log_step_exit index closes positions st k _ _ _ Hin Hex Hd Hp Ht).
      destruct (negb _); simpl; rewrite length_app; simpl; lia.
    + rewrite (log_step_hold index closes positions st k Hin Hex).
      rewrite Hin. lia.
  - rewrite (log_step_flat index closes positions st k Hin).
    destruct (negb _); simpl; [lia | rewrite Hin; lia].
Qed.

(** X17: the ledger holds fewer trades than the frame has rows: each
    trade needs an exit row of its own, after the first row. *)
Theorem trade_log_shorter_than_frame
        (index : list Z) (closes positions : list Q) :
  positions <> [] ->
  (length (trade_log index closes positions) < length positions)%nat.
Proof.
  intros Hne. unfold trade_log.
  destruct positions as [|p positions]; [congruence|].
  set (ps := p :: positions).
  change (length ps) with (S (length positions)).
  rewrite run_succ.
  pose proof (trade_log_no_longer_than_rows_aux index closes ps
                (length positions)) as H.
  cbv zeta in H.
  set (st := log_loop index closes ps (seq 0 (length positions)) log_init) in *.
  destruct (log_step_extends index closes ps st (length positions)) as [new Hn].
  destruct (in_position st) eqn:Hin.
  - destruct (exit_signal ps (length positions)) eqn:Hex.
    + destruct (run_open_ok index closes ps (length positions)) as [_ Hf].
      fold st in Hf. destruct (Hf Hin) as (ed & ep & Hd & Hp & Ht).
      rewrite (log_step_exit index closes ps st _ _ _ _ Hin Hex Hd Hp Ht).
      destruct (negb _); simpl; rewrite length_app; simpl; lia.
    + rewrite (log_step_hold index closes ps st _ Hin Hex). lia.
  - rewrite (log_step_flat index closes ps st _ Hin).
    destruct (negb _); simpl; lia.
Qed.

Lemma trade_log_shorter_than_frame_witness :
  (length (trade_log [0; 1; 2]%Z [100; 101; 99]%Q reversal_then_flat)
   < length reversal_then_flat)%nat.
Proof.
  apply (trade_log_shorter_than_frame [0; 1; 2]%Z [100; 101; 99]
                                      reversal_then_flat).
  discriminate.
Defined.

Lemma scaled_quotient_sign (d e : Q) :
  0 < e -> (0 < d / e * 100 <-> 0 < d).
Proof.
  intros He. assert (Hi : 0 < / e) by now apply Qinv_lt_0_compat.
  unfold Qdiv. split.
  - intros H. destruct (Qlt_le_dec 0 d) as [Hd|Hd]; [exact Hd|].
    exfalso.
    assert (H0 : 0 <= (- d) * / e) by (apply Qmult_le_0_compat; lra).
    assert (E : (- d) * / e == - (d * / e)) by ring.
    rewrite E in H0. lra.
  - intros Hd.
    assert (H0 : 0 < d * / e) by now apply Qmult_lt_0_compat.
    lra.
Qed.

(** X18: over positive prices a long trade of the ledger shows a positive
    Return % exactly when it exits above its entry price, a short trade
    exactly when it exits below; and Days is the exit date minus the entry
    date. *)
Theorem trade_return_has_the_sign_of_the_move
        (index : list Z) (closes positions : list Q) :
  length closes = length positions ->
  Forall (fun c => 0 < c) closes ->
  Forall (fun tr =>
            (Type_ tr = Long -> (0 < Return_pct tr <-> Entry tr < Exit tr)) /\
            (Type_ tr = Short -> (0 < Return_pct tr <-> Exit tr < Entry tr)) /\
            Days tr = (Exit_Date tr - Entry_Date tr)%Z)
         (trade_log index closes positions).
Proof.
  intros Hlen Hpos.
  eapply Forall_impl; [|apply (run_spans index closes positions)].
  intros tr (i & j & Hij & -> & _ & _).
  assert (He : 0 < nth i closes 0).
  { rewrite Forall_forall in Hpos. apply Hpos, nth_In. lia. }
  unfold close_trade.
  destruct (side_of (nth i positions 0)); simpl.
  - split; [intros _ | split; [discriminate | reflexivity]].
    rewrite (scaled_quotient_sign _ _ He). split; intros; lra.
  - split; [discriminate | split; [intros _ | reflexivity]].
    rewrite (scaled_quotient_sign _ _ He). split; intros; lra.
Qed.

Lemma trade_return_has_the_sign_of_the_move_witness :
  Forall (fun tr =>
            (Type_ tr = Long -> (0 < Return_pct tr <-> Entry tr < Exit tr)) /\
            (Type_ tr = Short -> (0 < Return_pct tr <-> Exit tr < Entry tr)) /\
            Days tr = (Exit_Date tr - Entry_Date tr)%Z)
         (trade_log [0; 1; 2]%Z [100; 101; 99] reversal_then_flat).
Proof.
  apply (trade_return_has_the_sign_of_the_move [0; 1; 2]%Z [100; 101; 99]
                                               reversal_then_flat).
  - reflexivity.
  - repeat constructor.
Defined.

(** ** The drawdown periods (lines 404-422) *)

Lemma fold_min_le (r : list Q) :
  forall m,
    fold_left (fun m y => if Qltb y m then y else m) r m <= m /\
    forall y, In y r ->
      fold_left (fun m y => if Qltb y m then y else m) r m <= y.
Proof.
  induction r as [|x r IH]; intros m; simpl.
  - split; [lra | contradiction].
  - destruct (Qltb x m) eqn:E;
      [apply Qltb_lt in E | apply Qltb_ge in E].
    + destruct (IH x) as [H1 H2]. split; [lra|].
      intros y [<-|Hy]; [exact H1 | now apply H2].
    + destruct (IH m) as [H1 H2]. split; [exact H1|].
      intros y [<-|Hy]; [lra | now apply H2].
Qed.

Lemma Qlist_min_le (l : list Q) (x : Q) : In x l -> Qlist_min l <= x.
Proof.
  destruct l as [|a r]; [contradiction|]. simpl.
  destruct (fold_min_le r a) as [H1 H2].
  intros [<-|Hx]; [exact H1 | now apply H2].
Qed.

Lemma In_combine_nth {A B} (da : A) (db : B) (l1 : list A) :
  forall (l2 : list B) e, (e < length l1)%nat -> (e < length l2)%nat ->
    In (nth e l1 da, nth e l2 db) (combine l1 l2).
Proof.
  induction l1 as [|a l1 IH]; intros [|b l2] [|e] H1 H2; simpl in *;
    try lia; [now left|].
  right. apply IH; lia.
Qed.

Lemma combine_seq_nth (l : list Q) :
  forall s, combine (seq s (length l)) l
            = map (fun i => (i, nth (i - s) l 0)) (seq s (length l)).
Proof.
  induction l as [|x l IH]; intros s; simpl; [reflexivity|].
  rewrite Nat.sub_diag. f_equal. rewrite IH.
  apply map_ext_in. intros i Hi. apply in_seq in Hi.
  replace (i - s)%nat with (S (i - S s)) by lia. reflexivity.
Qed.

Lemma dd_loop_by_rows (index : list Z) (drawdown : list Q) (st : dd_state) :
  dd_loop index drawdown (combine (seq 0 (length drawdown)) drawdown) st
  = fold_left (fun st i => dd_step index drawdown st (i, nth i drawdown 0))
              (seq 0 (length drawdown)) st.
Proof.
  unfold dd_loop. rewrite combine_seq_nth.
  generalize (seq 0 (length drawdown)). intros rows. revert st.
  induction rows as [|i rows IH]; intros st; simpl; [reflexivity|].
  rewrite IH. now rewrite Nat.sub_0_r.
Qed.

Lemma periods_disjoint_snoc (l : list dd_period) (p : dd_period) :
  periods_disjoint l ->
  (forall a, In a l -> (dd_end a < dd_start p)%Z) ->
  periods_disjoint (l ++ [p]).
Proof.
  induction l as [|a l IH]; intros Hc Hall; [exact I|].
  destruct l as [|b l].
  - simpl. split; [apply Hall; now left | exact I].
  - destruct Hc as [Hab Hc]. split; [exact Hab|].
    apply IH; [exact Hc|]. intros x Hx. apply Hall. now right.
Qed.

Lemma periods_ok_weaken (index : list Z) (drawdown : list Q) (n k : nat)
      (st : dd_state) :
  periods_ok index drawdown n k st -> periods_ok index drawdown n (S k) st.
Proof.
  intros (H1 & H2 & H3). split; [|split]; [|exact H2|].
  - intros p Hp. destruct (H1 p Hp) as (Ha & Hb & Hc & Hd).
    repeat split; auto. now apply dates_after_succ.
  - intros Hin s Hs. destruct (H3 Hin s Hs) as [(e & He & Hes & Hed) Hb].
    split; [|exact Hb]. exists e. repeat split; auto.
Qed.

Lemma periods_ok_step (index : list Z) (drawdown : list Q) (n k : nat)
      (st : dd_state) :
  (forall i j, (i < j < n)%nat -> (nth i index 0 < nth j index 0)%Z) ->
  length index = n -> length drawdown = n -> (k < n)%nat ->
  periods_ok index drawdown n k st ->
  periods_ok index drawdown n (S k)
             (dd_step index drawdown st (k, nth k drawdown 0)).
Proof.
  intros Hsorted Hli Hld Hk Hok.
  assert (Hnow : dates_after index n (S k) (nth k index 0%Z))
    by (intros j Hj; apply Hsorted; lia).
  pose proof Hok as (H1 & H2 & H3).
  unfold dd_step. rewrite iloc_nat.
  destruct (Qltb (nth k drawdown 0) (- (1)) && negb (in_drawdown st)) eqn:B1.
  { apply andb_true_iff in B1. destruct B1 as [Hdd _].
    apply Qltb_lt in Hdd.
    split; [|split]; simpl.
    - intros p Hp. destruct (H1 p Hp) as (Ha & Hb & Hc & Hd).
      repeat split; auto. now apply dates_after_succ.
    - exact H2.
    - intros _ s Hs. injection Hs as <-. split.
      + exists k. repeat split; [lia | exact Hdd].
      + intros p Hp. destruct (H1 p Hp) as (_ & _ & _ & Hd).
        apply Hd. lia. }
  destruct (Qle_bool (- (1 # 2)) (nth k drawdown 0) && in_drawdown st) eqn:B2;
    [|now apply periods_ok_weaken].
  apply andb_true_iff in B2. destruct B2 as [_ Hin].
  destruct (start_dd st) as [s|] eqn:Hs; [|now apply periods_ok_weaken].
  destruct (H3 Hin s eq_refl) as [(e & He & Hes & Hed) Hbefore].
  assert (Hse : (s < nth k index 0)%Z) by (subst s; apply Hsorted; lia).
  assert (Hdepth : Qlist_min (label_slice index drawdown s (nth k index 0%Z))
                   < - (1)).
  { apply Qle_lt_trans with (y := nth e drawdown 0); [|exact Hed].
    apply Qlist_min_le. unfold label_slice.
    apply (in_map snd _ (nth e index 0%Z, nth e drawdown 0)).
    apply filter_In. split.
    - apply In_combine_nth; lia.
    - simpl. subst s. apply andb_true_iff. split; apply Z.leb_le; lia. }
  split; [|split]; simpl.
  - intros p Hp. apply in_app_or in Hp. destruct Hp as [Hp|[<-|[]]].
    + destruct (H1 p Hp) as (Ha & Hb & Hc & Hd).
      repeat split; auto. now apply dates_after_succ.
    + simpl. repeat split; auto.
  - now apply periods_disjoint_snoc.
  - discriminate.
Qed.

Lemma dd_run_ok (index : list Z) (drawdown : list Q) (n : nat) :
  (forall i j, (i < j < n)%nat -> (nth i index 0 < nth j index 0)%Z) ->
  length index = n -> length drawdown = n ->
  forall k, (k <= n)%nat ->
    periods_ok index drawdown n k
      (fold_left (fun st i => dd_step index drawdown st (i, nth i drawdown 0))
                 (seq 0 k) (mkDD [] false None)).
Proof.
  intros Hsorted Hli Hld. induction k as [|k IH]; intros Hk.
  - split; [|split]; simpl; [contradiction | exact I | discriminate].
  - rewrite seq_snoc, fold_left_app. simpl.
    apply periods_ok_step; auto. apply IH. lia.
Qed.

(** X19: over strictly increasing dates every recorded drawdown period
    starts strictly before it ends, lasts the difference of the two dates,
    has a depth below -1 (percent), and ends strictly before the next
    period starts.  (A drawdown still running at the last row is not
    recorded.) *)
Theorem drawdown_periods_are_ordered (index : list Z) (drawdown : list Q) :
  StronglySorted Z.lt index ->
  length index = length drawdown ->
  Forall (fun p => (dd_start p < dd_end p)%Z
                   /\ dd_days p = (dd_end p - dd_start p)%Z
                   /\ dd_depth p < - (1))
         (drawdown_analysis index drawdown) /\
  periods_disjoint (drawdown_analysis index drawdown).
Proof.
  intros Hsorted Hlen. unfold drawdown_analysis.
  rewrite dd_loop_by_rows.
  destruct (dd_run_ok index drawdown (length drawdown))
    with (k := length drawdown) as (H1 & H2 & _); auto.
  - rewrite <- Hlen. now apply sorted_nth.
  - split; [|exact H2].
    apply Forall_forall. intros p Hp.
    destruct (H1 p Hp) as (Ha & Hb & Hc & _). auto.
Qed.

Lemma drawdown_periods_are_ordered_witness :
  Forall (fun p => (dd_start p < dd_end p)%Z
                   /\ dd_days p = (dd_end p - dd_start p)%Z
                   /\ dd_depth p < - (1))
         (drawdown_analysis [0; 1; 2; 3; 4]%Z [0; - (2); - (3); 0; - (2)]) /\
  periods_disjoint
    (drawdown_analysis [0; 1; 2; 3; 4]%Z [0; - (2); - (3); 0; - (2)]).
Proof.
  apply (drawdown_periods_are_ordered [0; 1; 2; 3; 4]%Z
                                      [0; - (2); - (3); 0; - (2)]).
  - repeat constructor.
  - reflexivity.
Defined.

(** ** Loading the prices (lines 34-36) and the benchmark (line 102) *)

Lemma pct_change_scan (col : list Q) :
  forall p,
    map2 (fun x o => match o with Some q => Some (x / q - 1) | None => None end)
         col (scan (fun q x => (Some x, q)) (Some p) col)
    = map Some (map2 (fun x q => x / q - 1) col (p :: col)).
Proof.
  induction col as [|x col IH]; intros p; simpl; [reflexivity|].
  f_equal. apply IH.
Qed.

Lemma load_frame_cons (d0 : Z) (dates : list Z) (p0 : Q) (prices : list Q) :
  load_frame (d0 :: dates) (p0 :: prices)
  = map (fun row : Z * Q * Q => mkBar (fst (fst row)) (snd (fst row)) (snd row))
        (combine (combine dates prices)
                 (map2 (fun x q => x / q - 1) prices (p0 :: prices))).
Proof.
  unfold load_frame, pct_change, shift. simpl.
  rewrite pct_change_scan.
  generalize (map2 (fun x q => x / q - 1) prices (p0 :: prices)).
  generalize (combine dates prices).
  induction l as [|dc l IH]; intros [|r rs]; simpl; try reflexivity.
  now rewrite IH.
Qed.

Lemma load_frame_columns (d0 : Z) (dates : list Z) (p0 : Q) (prices : list Q) :
  length dates = length prices ->
  let df := load_frame (d0 :: dates) (p0 :: prices) in
  map date df = dates /\ map Close df = prices /\
  map returns df = map2 (fun x q => x / q - 1) prices (p0 :: prices).
Proof.
  intros Hlen. cbv zeta. rewrite load_frame_cons.
  set (rs := map2 (fun x q => x / q - 1) prices (p0 :: prices)).
  assert (Hrs : length rs = length prices).
  { unfold rs. rewrite length_map2. simpl. lia. }
  clearbody rs. revert prices rs Hlen Hrs.
  induction dates as [|d dates IH]; intros [|p prices] [|r rs] Hl Hr;
    simpl in *; try discriminate; [repeat split|].
  destruct (IH prices rs) as (H1 & H2 & H3); [lia | lia |].
  rewrite H1, H2, H3. repeat split.
Qed.

Lemma buy_hold_telescopes (p0 : Q) (prices : list Q) :
  0 < p0 ->
  forall q acc, Forall (fun p => 0 < p) (q :: prices) -> acc == q / p0 ->
    Forall2 (fun e p => e == initial_capital * p / p0)
      (map (fun c => initial_capital * c)
         (scan (fun acc x => let p := acc * x in (p, p)) acc
               (map (fun r => 1 + r)
                    (map2 (fun x q => x / q - 1) prices (q :: prices)))))
      prices.
Proof.
  intros Hp0. induction prices as [|x prices IH]; intros q acc Hpos Hacc;
    simpl; [constructor|].
  inversion Hpos as [|? ? Hq Hrest]; subst.
  inversion Hrest as [|? ? Hx _]; subst.
  assert (E : acc * (1 + (x / q - 1)) == x / p0).
  { rewrite Hacc. field. split; lra. }
  constructor.
  - rewrite E. unfold Qdiv. ring.
  - apply IH; [exact Hrest | exact E].
Qed.

(** X20: loading n + 1 positive prices gives a frame of the last n rows
    (the first is lost to [dropna]), each with its close, and over it the
    buy-and-hold curve is the price itself rebased to the initial capital
    at the first price: buy_hold[t] = initial_capital x close[t] / p0. *)
Theorem buy_hold_is_the_rebased_price
        (d0 : Z) (dates : list Z) (p0 : Q) (prices : list Q) :
  length dates = length prices ->
  Forall (fun p => 0 < p) (p0 :: prices) ->
  let df := load_frame (d0 :: dates) (p0 :: prices) in
  map date df = dates /\
  map Close df = prices /\
  Forall2 (fun e p => e == initial_capital * p / p0)
          (buy_hold_curve (map returns df)) prices.
Proof.
  intros Hlen Hpos df. subst df.
  destruct (load_frame_columns d0 dates p0 prices Hlen) as (H1 & H2 & H3).
  split; [exact H1|]. split; [exact H2|].
  rewrite H3. unfold buy_hold_curve, cumprod.
  apply buy_hold_telescopes.
  - now inversion Hpos.
  - exact Hpos.
  - field. inversion Hpos; subst. lra.
Qed.

Lemma buy_hold_is_the_rebased_price_witness :
  map date (load_frame [0; 1; 2; 3]%Z [100; 100; 90; 98]) = [1; 2; 3]%Z /\
  map Close (load_frame [0; 1; 2; 3]%Z [100; 100; 90; 98]) = [100; 90; 98] /\
  Forall2 (fun e p => e == initial_capital * p / 100)
          (buy_hold_curve
             (map returns (load_frame [0; 1; 2; 3]%Z [100; 100; 90; 98])))
          [100; 90; 98].
Proof.
  apply (buy_hold_is_the_rebased_price 0 [1; 2; 3]%Z 100 [100; 90; 98]).
  - reflexivity.
  - repeat constructor.
Defined.

Lemma load_frame_too_short (dates : list Z) (prices : list Q) :
  (length prices < 2)%nat -> load_frame dates prices = [].
Proof.
  intros H. destruct prices as [|p [|q prices]]; simpl in H; try lia.
  - unfold load_frame. simpl. now rewrite combine_nil.
  - destruct dates as [|d dates]; [reflexivity|].
    unfold load_frame. simpl. now rewrite combine_nil.
Qed.

Lemma load_data_returned (dates : list Z) (adj_close : list Q) (df : frame) :
  load_data dates adj_close = Returned df ->
  df = load_frame dates adj_close /\ df <> [].
Proof.
  unfold load_data. intros H.
  destruct (rev (map Close (load_frame dates adj_close))) as [|p l] eqn:E;
    [discriminate|].
  injection H as <-. split; [reflexivity|].
  intros Hnil. rewrite Hnil in E. discriminate.
Qed.

(** X21: with fewer than two downloaded prices the frame is empty and the
    script stops on line 44 with IndexError, before the strategy function
    is defined and any grid point is tried.  With n + 1 positive prices,
    n >= 1, line 44 passes with a frame of n rows; and whenever it passes,
    the frame is not empty and the sweep over it collects all 36 rows, so
    lines 166 and 175 never meet an empty leaderboard. *)
Theorem too_few_prices_stop_the_script
        (np_sqrt : Q -> Q) (dates : list Z) (adj_close : list Q) :
  ((length adj_close < 2)%nat ->
   load_frame dates adj_close = [] /\
   load_data dates adj_close = Raised IndexError) /\
  ((2 <= length adj_close)%nat -> length dates = length adj_close ->
   Forall (fun p => 0 < p) adj_close ->
   exists df, load_data dates adj_close = Returned df /\
              S (length df) = length adj_close) /\
  (forall df, load_data dates adj_close = Returned df ->
     df = load_frame dates adj_close /\ df <> [] /\
     length (grid_search np_sqrt df param_grid) = 36%nat).
Proof.
  split; [|split].
  - intros Hlen.
    assert (Hdf : load_frame dates adj_close = [])
      by now apply load_frame_too_short.
    split; [exact Hdf|]. unfold load_data. now rewrite Hdf.
  - intros Hlen Hdates _.
    destruct adj_close as [|p0 [|p1 prices]]; simpl in Hlen; try lia.
    destruct dates as [|d0 dates]; [discriminate|].
    assert (Hl : length dates = length (p1 :: prices))
      by (simpl in *; lia).
    destruct (load_frame_columns d0 dates p0 (p1 :: prices) Hl)
      as (_ & Hclose & _).
    exists (load_frame (d0 :: dates) (p0 :: p1 :: prices)).
    split.
    + unfold load_data. rewrite Hclose.
      destruct (rev (p1 :: prices)) as [|x l] eqn:E; [|reflexivity].
      apply (f_equal (@length Q)) in E. rewrite length_rev in E.
      discriminate.
    + apply (f_equal (@length Q)) in Hclose. rewrite length_map in Hclose.
      rewrite Hclose. reflexivity.
  - intros df Hdf.
    destruct (load_data_returned dates adj_close df Hdf) as [E Hne].
    split; [exact E|]. split; [exact Hne|].
    pose proof (grid_search_all_returned np_sqrt df param_grid Hne
                  param_grid_windows_positive) as H.
    apply (f_equal (@length _)) in H. rewrite length_map in H.
    rewrite H. reflexivity.
Qed.

Lemma too_few_prices_stop_the_script_witness :
  (load_frame [0]%Z [100] = [] /\
   load_data [0]%Z [100] = Raised IndexError) /\
  (exists df, load_data [0; 1; 2; 3]%Z [100; 100; 90; 98] = Returned df /\
              S (length df) = length [100; 100; 90; 98]).
Proof.
  split.
  - apply (proj1 (too_few_prices_stop_the_script sqrt_approx [0]%Z [100])).
    simpl. lia.
  - apply (proj1 (proj2 (too_few_prices_stop_the_script
                           sqrt_approx [0; 1; 2; 3]%Z [100; 100; 90; 98]))).
    + simpl. lia.
    + reflexivity.
    + repeat constructor.
Defined.

(** ** Returns by calendar period (lines 378-393) *)

Lemma insert_key_In (k x : Z) (ks : list Z) :
  In x (insert_key k ks) <-> x = k \/ In x ks.
Proof.
  induction ks as [|h t IH]; simpl; [intuition|].
  destruct (Z.ltb_spec k h); simpl; [intuition|].
  destruct (Z.eqb_spec k h); simpl; [subst; intuition|].
  rewrite IH. intuition.
Qed.

Lemma insert_key_sorted (k : Z) (ks : list Z) :
  StronglySorted Z.lt ks -> StronglySorted Z.lt (insert_key k ks).
Proof.
  induction 1 as [|h t Hs IH Hh]; simpl; [repeat constructor|].
  destruct (Z.ltb_spec k h).
  - constructor; [now constructor|].
    constructor; [exact H|]. eapply Forall_impl; [|exact Hh].
    intros y Hy. cbv beta in Hy. lia.
  - destruct (Z.eqb_spec k h); [now constructor|].
    constructor; [exact IH|].
    apply Forall_forall. intros y Hy. apply insert_key_In in Hy.
    destruct Hy as [->|Hy]; [lia|].
    rewrite Forall_forall in Hh. now apply Hh.
Qed.

Lemma group_keys_sorted (labels : list Z) :
  StronglySorted Z.lt (group_keys labels).
Proof.
  induction labels as [|k labels IH]; simpl; [constructor|].
  now apply insert_key_sorted.
Qed.

Lemma group_keys_In (labels : list Z) (x : Z) :
  In x (group_keys labels) <-> In x labels.
Proof.
  induction labels as [|k labels IH]; simpl; [tauto|].
  rewrite insert_key_In, IH. intuition.
Qed.

Lemma Qprod_pick_absent (g : Z -> Q) (c : Q) (k0 : Z) (ks : list Z) :
  ~ In k0 ks ->
  Qprod (map (fun k => if (k0 =? k)%Z then c * g k else g k) ks)
  == Qprod (map g ks).
Proof.
  induction ks as [|h t IH]; intros Hn; simpl; [reflexivity|].
  destruct (Z.eqb_spec k0 h) as [->|Hne]; [exfalso; apply Hn; now left|].
  rewrite IH; [reflexivity|]. intros Hin. apply Hn. now right.
Qed.

Lemma Qprod_pick_one (g : Z -> Q) (c : Q) (k0 : Z) (ks : list Z) :
  StronglySorted Z.lt ks -> In k0 ks ->
  Qprod (map (fun k => if (k0 =? k)%Z then c * g k else g k) ks)
  == c * Qprod (map g ks).
Proof.
  induction 1 as [|h t Hs IH Hh]; intros Hin; [contradiction|]. simpl.
  destruct (Z.eqb_spec k0 h) as [->|Hne].
  - rewrite Qprod_pick_absent; [ring|].
    intros Hin'. rewrite Forall_forall in Hh. specialize (Hh _ Hin'). lia.
  - destruct Hin as [->|Hin]; [congruence|].
    rewrite (IH Hin). ring.
Qed.

Lemma group_products_compound (ks : list Z) (rows : list (Z * Q)) :
  StronglySorted Z.lt ks ->
  (forall kv, In kv rows -> In (fst kv) ks) ->
  Qprod (map (fun k =>
                Qprod (map (fun kv => 1 + snd kv)
                           (filter (fun kv : Z * Q => (fst kv =? k)%Z) rows)))
             ks)
  == Qprod (map (fun kv => 1 + snd kv) rows).
Proof.
  intros Hs. induction rows as [|[k0 v] rows IH]; intros Hin.
  - simpl. clear. induction ks as [|h t IH]; simpl; [reflexivity|].
    rewrite IH. ring.
  - simpl.
    rewrite <- IH by (intros kv Hkv; apply Hin; now right).
    rewrite <- (Qprod_pick_one _ (1 + v) k0 ks Hs)
      by (apply (Hin (k0, v)); now left).
    clear. induction ks as [|h t IHk]; simpl; [reflexivity|].
    rewrite IHk. destruct (Z.eqb_spec k0 h); simpl; reflexivity.
Qed.

(** X22: the returns by period list every period once, in increasing
    order, and compound to the whole: for one label per row, the product of
    (1 + return% / 100) over the periods equals the product of
    (1 + net return) over all rows. *)
Theorem period_returns_compound_to_the_total (labels : list Z) (net : list Q) :
  length labels = length net ->
  StronglySorted Z.lt (map fst (period_returns labels net)) /\
  (forall k, In k (map fst (period_returns labels net)) <-> In k labels) /\
  Qprod (map (fun kr => 1 + snd kr / 100) (period_returns labels net))
  == Qprod (map (fun r => 1 + r) net).
Proof.
  intros Hlen. unfold period_returns.
  assert (Hk : map fst (map (fun k => (k, group_return labels net k * 100))
                            (group_keys labels)) = group_keys labels).
  { rewrite map_map. simpl. apply map_id. }
  rewrite Hk.
  split; [apply group_keys_sorted|]. split; [apply group_keys_In|].
  rewrite map_map. simpl.
  transitivity
    (Qprod (map (fun k =>
                   Qprod (map (fun kv => 1 + snd kv)
                              (filter (fun kv : Z * Q => (fst kv =? k)%Z)
                                      (combine labels net))))
                (group_keys labels))).
  - unfold group_return. clear Hk.
    induction (group_keys labels) as [|h t IH]; simpl; [reflexivity|].
    rewrite IH. field.
  - rewrite group_products_compound.
    + clear Hk. revert net Hlen.
      induction labels as [|l labels IH]; intros [|r net] Hl; simpl in *;
        try discriminate; [reflexivity|].
      rewrite IH by lia. reflexivity.
    + apply group_keys_sorted.
    + intros [k v] Hkv. simpl. apply group_keys_In.
      now apply in_combine_l in Hkv.
Qed.

Lemma period_returns_compound_to_the_total_witness :
  StronglySorted Z.lt
    (map fst (period_returns [2020; 2020; 2021]%Z [1 # 10; - (1 # 10); 1 # 5])) /\
  (forall k,
      In k (map fst (period_returns [2020; 2020; 2021]%Z
                                    [1 # 10; - (1 # 10); 1 # 5]))
      <-> In k [2020; 2020; 2021]%Z) /\
  Qprod (map (fun kr => 1 + snd kr / 100)
             (period_returns [2020; 2020; 2021]%Z [1 # 10; - (1 # 10); 1 # 5]))
  == Qprod (map (fun r => 1 + r) [1 # 10; - (1 # 10); 1 # 5]).
Proof.
  apply (period_returns_compound_to_the_total
           [2020; 2020; 2021]%Z [1 # 10; - (1 # 10); 1 # 5]).
  reflexivity.
Defined.
